(** * Ponder core: cache store and realtime sync service

    A shallow embedding of two source files of the indexing engine:

    - [packages/core/src/database/cache/sqliteCacheStore.ts]
      (module [CacheStore]): the SQLite tables as finite maps and row
      lists, and the statements run against them as functions on a
      [Store];
    - [packages/core/src/realtime-sync/service.ts]
      (module [RealtimeSync]): the service as a state-and-exception
      monad over its fields, with the JSON-RPC client and the event
      store as oracles and every request, store call and emitted event
      recorded in a trace.

    JavaScript numbers that hold block numbers, timestamps and
    priorities are integers below 2^53 in every run of the program; they
    are modelled as [Z]. *)

From Stdlib Require Import ZArith List String Bool Lia.
From Stdlib Require Import Sorting.Sorted Sorting.Permutation.
From stdpp Require Import gmap strings.
Import ListNotations.

(** Result of a statement that may throw. *)
Inductive except (A : Type) : Type :=
| Ok (a : A)
| Err (msg : string).
Arguments Ok {A} a.
Arguments Err {A} msg.

(** [Array.prototype.forEach] with a callback that may throw: the
    results so far are dropped at the first exception. *)
Fixpoint forEach {A B : Type} (f : A -> except B) (l : list A)
  : except (list B) :=
  match l with
  | [] => Ok []
  | x :: l' =>
      match f x with
      | Err msg => Err msg
      | Ok y =>
          match forEach f l' with
          | Err msg => Err msg
          | Ok ys => Ok (y :: ys)
          end
      end
  end.

Module CacheStore.

Local Open Scope Z_scope.

(** ** Rows *)

(** [CachedInterval], as declared in [./cacheStore] and stored in the
    [cachedIntervals] table (the [id] column is the implicit rowid: rows
    are kept in insertion order). *)
Record CachedInterval : Type := {
  contractAddress : string;
  startBlock : Z;
  endBlock : Z;
  endBlockTimestamp : Z
}.

(** A row of the [logs] table. [blockTimestamp] is the only nullable
    column the statements below write. *)
Record DatabaseLog : Type := {
  logId : string;
  logSortKey : Z;
  address : string;
  data : string;
  topic0 : option string;
  topic1 : option string;
  topic2 : option string;
  topic3 : option string;
  blockHash : string;
  blockNumber : Z;
  blockTimestamp : option Z;
  logIndex : Z;
  transactionHash : string;
  transactionIndex : Z;
  removed : Z
}.

(** A row of the [blocks] table. *)
Record DatabaseBlock : Type := {
  hash : string;
  number : Z;
  timestamp : Z;
  gasLimit : string;
  gasUsed : string;
  baseFeePerGas : string;
  miner : string;
  extraData : string;
  size : Z;
  parentHash : string;
  stateRoot : string;
  transactionsRoot : string;
  receiptsRoot : string;
  logsBloom : string;
  totalDifficulty : string
}.

(** A row of the [transactions] table. *)
Record DatabaseTransaction : Type := {
  tx_hash : string;
  tx_nonce : Z;
  tx_from : string;
  tx_to : option string;
  tx_value : string;
  tx_input : string;
  tx_gas : string;
  tx_gasPrice : string;
  tx_maxFeePerGas : option string;
  tx_maxPriorityFeePerGas : option string;
  tx_blockHash : string;
  tx_blockNumber : Z;
  tx_transactionIndex : Z;
  tx_chainId : option Z
}.

(** [ContractCall], a row of the [contractCalls] table. *)
Record ContractCall : Type := {
  key : string;
  result : string
}.

(** ** The database

    Tables with a TEXT primary key are finite maps from the key to the
    row; [cachedIntervals], whose key is the rowid, is the list of its
    rows. *)
Record Store : Type := {
  cachedIntervals : list CachedInterval;
  logs : gmap string DatabaseLog;
  blocks : gmap string DatabaseBlock;
  transactions : gmap string DatabaseTransaction;
  contractCalls : gmap string string
}.

(** The database after [migrate] ran on a fresh file. *)
Definition migrate : Store := {|
  cachedIntervals := [];
  logs := ∅;
  blocks := ∅;
  transactions := ∅;
  contractCalls := ∅
|}.

Definition with_cachedIntervals (db : Store) (rows : list CachedInterval)
  : Store := {|
  cachedIntervals := rows;
  logs := logs db;
  blocks := blocks db;
  transactions := transactions db;
  contractCalls := contractCalls db
|}.

Definition with_logs (db : Store) (m : gmap string DatabaseLog) : Store := {|
  cachedIntervals := cachedIntervals db;
  logs := m;
  blocks := blocks db;
  transactions := transactions db;
  contractCalls := contractCalls db
|}.

Definition with_blocks (db : Store) (m : gmap string DatabaseBlock)
  : Store := {|
  cachedIntervals := cachedIntervals db;
  logs := logs db;
  blocks := m;
  transactions := transactions db;
  contractCalls := contractCalls db
|}.

Definition with_transactions (db : Store)
  (m : gmap string DatabaseTransaction) : Store := {|
  cachedIntervals := cachedIntervals db;
  logs := logs db;
  blocks := blocks db;
  transactions := m;
  contractCalls := contractCalls db
|}.

Definition with_contractCalls (db : Store) (m : gmap string string)
  : Store := {|
  cachedIntervals := cachedIntervals db;
  logs := logs db;
  blocks := blocks db;
  transactions := transactions db;
  contractCalls := m
|}.

(** ** Cached intervals *)

(** [WHERE "contractAddress" = @contractAddress] *)
Definition ofContract (a : string) (row : CachedInterval) : bool :=
  String.eqb (contractAddress row) a.

Definition getCachedIntervals (db : Store) (a : string)
  : list CachedInterval :=
  List.filter (ofContract a) (cachedIntervals db).

(** The pair [[row.startBlock, row.endBlock]] handed to
    [merge_intervals]. *)
Definition range (row : CachedInterval) : Z * Z :=
  (startBlock row, endBlock row).

Section InsertCachedInterval.

(** [merge_intervals] is imported from [@/common/utils]; the write
    below is defined for any such function. *)
Variable merge_intervals : list (Z * Z) -> list (Z * Z).

(** The body of the [forEach] over the merged intervals: find the
    contributor of the end block among the new interval and the
    removed ones, and build the row to insert. *)
Definition propagate (newInterval : CachedInterval)
    (existingIntervals : list CachedInterval) (mergedInterval : Z * Z)
  : except CachedInterval :=
  let startBlock_ := fst mergedInterval in
  let endBlock_ := snd mergedInterval in
  match List.find (fun oldInterval => endBlock oldInterval =? endBlock_)
          (newInterval :: existingIntervals) with
  | None => Err "Old interval with endBlock not found"
  | Some endBlockInterval =>
      Ok {| contractAddress := contractAddress newInterval;
            startBlock := startBlock_;
            endBlock := endBlock_;
            endBlockTimestamp := endBlockTimestamp endBlockInterval |}
  end.

(** [insertCachedInterval]. The statements run in one transaction: an
    exception rolls the deletion and the insertions back, so that the
    result is either the new database or the error alone. *)
Definition insertCachedInterval (db : Store) (interval : CachedInterval)
  : except Store :=
  let newInterval := interval in
  (* DELETE ... WHERE "contractAddress" = @contractAddress RETURNING * *)
  let existingIntervals := getCachedIntervals db (contractAddress interval) in
  let kept :=
    List.filter (fun row => negb (ofContract (contractAddress interval) row))
      (cachedIntervals db) in
  match existingIntervals with
  | [] => Ok (with_cachedIntervals db (kept ++ [newInterval]))
  | _ :: _ =>
      let mergedIntervals :=
        merge_intervals
          (List.map range existingIntervals ++ [range newInterval]) in
      match forEach (propagate newInterval existingIntervals)
              mergedIntervals with
      | Err msg => Err msg
      | Ok rows => Ok (with_cachedIntervals db (kept ++ rows))
      end
  end.

End InsertCachedInterval.

(** Modelled from the spec: the first half of [merge_intervals], which
    lives in [@/common/utils], not among the sources: the intervals are
    put in the order of their start, an interval staying behind those
    with the same start that came before it. *)
Fixpoint insert_by_start (r : Z * Z) (l : list (Z * Z)) : list (Z * Z) :=
  match l with
  | [] => [r]
  | x :: l' =>
      if fst r <=? fst x then r :: l else x :: insert_by_start r l'
  end.

(** Modelled from the spec: the ordering step of [merge_intervals]. *)
Definition sort_by_start (l : list (Z * Z)) : list (Z * Z) :=
  List.fold_right insert_by_start [] l.

(** Modelled from the spec: the second half of [merge_intervals]. The
    merge rule of section 3, "intervals [a,b] and [c,d] with
    max(a,c) <= min(b,d)+1 combine into [min(a,c), max(b,d)]", applied
    along the ordered intervals: [r] joins the running interval [last_]
    when it starts at most one block after its end, and starts a new one
    otherwise. *)
Fixpoint sweep (last_ : Z * Z) (rest : list (Z * Z)) : list (Z * Z) :=
  match rest with
  | [] => [last_]
  | r :: rest' =>
      if fst r >? snd last_ + 1 then last_ :: sweep r rest'
      else sweep (fst last_, Z.max (snd last_) (snd r)) rest'
  end.

(** Modelled from the spec: [merge_intervals] is imported from
    [@/common/utils], which is not among the sources. Section 4.1:
    "compute the merged set from the union of existing intervals and the
    new one using the section 3 rule". *)
Definition merge_intervals (intervals : list (Z * Z)) : list (Z * Z) :=
  match sort_by_start intervals with
  | [] => []
  | r :: rest => sweep r rest
  end.

(** ** Logs, blocks and transactions

    [encodeLog], [encodeBlock] and [encodeTransaction] (from [./mappers])
    turn the in-memory objects into rows; the functions below take the
    encoded rows. Decoded and encoded timestamps are the same integer,
    so that [block.timestamp] is the [timestamp] column of the encoded
    block. *)

(** [INSERT ... ON CONFLICT("logId") DO NOTHING]. The statement names
    every column but [blockTimestamp], which is left NULL. *)
Definition insertLog (m : gmap string DatabaseLog) (log : DatabaseLog)
  : gmap string DatabaseLog :=
  match m !! logId log with
  | Some _ => m
  | None =>
      <[logId log :=
          {| logId := logId log;
             logSortKey := logSortKey log;
             address := address log;
             data := data log;
             topic0 := topic0 log;
             topic1 := topic1 log;
             topic2 := topic2 log;
             topic3 := topic3 log;
             blockHash := blockHash log;
             blockNumber := blockNumber log;
             blockTimestamp := None;
             logIndex := logIndex log;
             transactionHash := transactionHash log;
             transactionIndex := transactionIndex log;
             removed := removed log |}]> m
  end.

Definition insertLogs (db : Store) (logs_ : list DatabaseLog) : Store :=
  with_logs db (List.fold_left insertLog logs_ (logs db)).

(** [UPDATE logs SET "blockTimestamp" = @blockTimestamp
     WHERE "blockHash" = @blockHash] *)
Definition setBlockTimestamp (h : string) (ts : Z) (row : DatabaseLog)
  : DatabaseLog :=
  if String.eqb (blockHash row) h then
    {| logId := logId row;
       logSortKey := logSortKey row;
       address := address row;
       data := data row;
       topic0 := topic0 row;
       topic1 := topic1 row;
       topic2 := topic2 row;
       topic3 := topic3 row;
       blockHash := blockHash row;
       blockNumber := blockNumber row;
       blockTimestamp := Some ts;
       logIndex := logIndex row;
       transactionHash := transactionHash row;
       transactionIndex := transactionIndex row;
       removed := removed row |}
  else row.

Definition backfillBlockTimestamp (db : Store) (h : string) (ts : Z)
  : Store :=
  with_logs db (setBlockTimestamp h ts <$> logs db).

(** [INSERT INTO blocks ... ON CONFLICT("hash") DO NOTHING] *)
Definition insertBlockRow (db : Store) (block : DatabaseBlock) : Store :=
  match blocks db !! hash block with
  | Some _ => db
  | None => with_blocks db (<[hash block := block]> (blocks db))
  end.

(** [insertBlock]: the block row, then the timestamp of the logs of that
    block. *)
Definition insertBlock (db : Store) (block : DatabaseBlock) : Store :=
  backfillBlockTimestamp (insertBlockRow db block)
    (hash block) (timestamp block).

(** [INSERT INTO transactions ... ON CONFLICT(`hash`) DO NOTHING] *)
Definition insertTransaction (m : gmap string DatabaseTransaction)
    (t : DatabaseTransaction) : gmap string DatabaseTransaction :=
  match m !! tx_hash t with
  | Some _ => m
  | None => <[tx_hash t := t]> m
  end.

Definition insertTransactions (db : Store)
    (ts : list DatabaseTransaction) : Store :=
  with_transactions db (List.fold_left insertTransaction ts (transactions db)).

(** The [WHERE] clause of [getLogs]. A comparison with a NULL
    [blockTimestamp] or a NULL [topic0] is not true. [eventSigHashes] is
    [None] when the argument is [undefined]; with the empty list the
    statement reads ["topic0" IN ()], which no row satisfies. *)
Definition inTimestamps (fromBlockTimestamp toBlockTimestamp : Z)
    (row : DatabaseLog) : bool :=
  match blockTimestamp row with
  | None => false
  | Some ts => (fromBlockTimestamp <? ts) && (ts <=? toBlockTimestamp)
  end.

Definition inTopics (eventSigHashes : option (list string))
    (row : DatabaseLog) : bool :=
  match eventSigHashes with
  | None => true
  | Some hashes =>
      match topic0 row with
      | None => false
      | Some t => List.existsb (String.eqb t) hashes
      end
  end.

(** [getLogs]. The rows come back in the order SQLite finds them, which
    the statement does not fix: the list below has the rows of the
    result in some order, and only membership in it is stated. Each row
    is returned as stored ([decodeLog], from [./mappers], reads it
    back). *)
Definition getLogs (db : Store) (contractAddress_ : string)
    (fromBlockTimestamp toBlockTimestamp : Z)
    (eventSigHashes : option (list string)) : list DatabaseLog :=
  List.filter
    (fun row =>
       String.eqb (address row) contractAddress_
       && inTimestamps fromBlockTimestamp toBlockTimestamp row
       && inTopics eventSigHashes row)
    (List.map snd (map_to_list (logs db))).

Definition getBlock (db : Store) (h : string) : option DatabaseBlock :=
  blocks db !! h.

Definition getTransaction (db : Store) (h : string)
  : option DatabaseTransaction :=
  transactions db !! h.

(** Modelled from the spec: [insertRealtimeBlock] belongs to the event
    store, which is not among the sources. Section 4.1: "insert one full
    block row (ignore on primary-key conflict), upsert the referenced
    transactions (ignore on conflict), insert the logs (ignore on
    conflict by logId), and backfill blockTimestamp on any pre-existing
    log rows with the matching blockHash". Each step is the statement of
    the cache store above. *)
Definition insertRealtimeBlock (db : Store) (block : DatabaseBlock)
    (ts : list DatabaseTransaction) (logs_ : list DatabaseLog) : Store :=
  backfillBlockTimestamp
    (insertLogs (insertTransactions (insertBlockRow db block) ts) logs_)
    (hash block) (timestamp block).

(** ** Contract calls *)

(** [INSERT ... ON CONFLICT("key") DO UPDATE SET "result"=excluded."result"] *)
Definition upsertContractCall (db : Store) (contractCall : ContractCall)
  : Store :=
  with_contractCalls db
    (<[key contractCall := result contractCall]> (contractCalls db)).

(** [SELECT * ... WHERE "key" = @key]; [None] is [null]. *)
Definition getContractCall (db : Store) (contractCallKey : string)
  : option ContractCall :=
  match contractCalls db !! contractCallKey with
  | None => None
  | Some r => Some {| key := contractCallKey; result := r |}
  end.

End CacheStore.

Module RealtimeSync.

Local Open Scope Z_scope.

(** ** Data

    Blocks, transactions and logs as the JSON-RPC client returns them.
    Hex-encoded quantities ([number], [timestamp]) are represented by the
    integer they encode, that is by the value of [hexToNumber] on them;
    hashes and blooms stay strings. *)

Module Tx.
Record t : Type := {
  hash : string;
  transactionIndex : Z
}.
End Tx.

Module Log.
Record t : Type := {
  address : string;
  topics : list string;
  data : string;
  blockHash : string;
  logIndex : Z;
  transactionHash : string
}.
End Log.

(** [BlockWithTransactions] *)
Module Block.
Record t : Type := {
  hash : string;
  number : Z;
  parentHash : string;
  timestamp : Z;
  logsBloom : string;
  transactions : list Tx.t
}.
End Block.

(** [LightBlock] *)
Module Light.
Record t : Type := {
  hash : string;
  number : Z;
  parentHash : string;
  timestamp : Z;
  logsBloom : string
}.
End Light.

(** Modelled from the spec: [rpcBlockToLightBlock] is defined in
    [./format], which is not among the sources. Section 3: a light block
    is [{hash, number, parentHash, timestamp, logsBloom}]; section 6:
    number and timestamp are decoded to native integers, opaque fields
    are kept. *)
Definition rpcBlockToLightBlock (b : Block.t) : Light.t := {|
  Light.hash := Block.hash b;
  Light.number := Block.number b;
  Light.parentHash := Block.parentHash b;
  Light.timestamp := Block.timestamp b;
  Light.logsBloom := Block.logsBloom b
|}.

(** ** Configuration *)

(** [f.filter] of a [LogFilter]: the fields the service reads, and the
    criteria handed to the bloom and log filters. *)
Record LogFilterCriteria : Type := {
  key : string;
  address : option string;
  topics : list (option (list string));
  endBlock : option Z
}.

Record LogFilter : Type := {
  filterName : string;
  filter : LogFilterCriteria
}.

Record Network : Type := {
  name : string;
  chainId : Z;
  finalityBlockCount : Z;
  pollingInterval : Z
}.

Definition MAX_SAFE_INTEGER : Z := 9007199254740991.

(** ** The outside world

    What the service sends to its collaborators, recorded in the trace
    in the order it happens. *)

Inductive BlockTag : Type :=
| latest
| atNumber (n : Z).

Inductive Request : Type :=
| eth_getBlockByNumber (tag : BlockTag) (withTransactions : bool)
| eth_getBlockByHash (h : string) (withTransactions : bool)
| eth_getLogs (blockHash : string).

Inductive StoreCall : Type :=
| insertRealtimeBlock (chainId_ : Z) (block : Block.t)
    (transactions : list Tx.t) (logs : list Log.t)
| insertLogFilterCachedRanges (logFilterKeys : list string)
    (startBlock endBlock endBlockTimestamp : Z)
| deleteRealtimeData (chainId_ : Z) (fromBlockNumber : Z).

Inductive Event : Type :=
| realtimeCheckpoint (timestamp : Z)
| finalityCheckpoint (timestamp : Z)
| shallowReorg (commonAncestorTimestamp : Z)
| deepReorg (detectedAtBlockNumber minimumDepth : Z)
| error (message : string).

Inductive Effect : Type :=
| Requested (r : Request)
| Called (c : StoreCall)
| Emitted (e : Event).

(** The JSON-RPC endpoint and the event store answer from a state [W]
    of their own, which every call may change. A request resolves to a
    value ([Ok], where [None] is [null]) or rejects ([Err]). *)
Record Environment (W : Type) : Type := {
  getBlockByNumber : W -> BlockTag -> bool -> W * except (option Block.t);
  getBlockByHash : W -> string -> bool -> W * except (option Block.t);
  getLogs : W -> string -> W * except (list Log.t);
  eventStore : W -> StoreCall -> W * except unit
}.
Arguments getBlockByNumber {W} _ _ _ _.
Arguments getBlockByHash {W} _ _ _ _.
Arguments getLogs {W} _ _ _.
Arguments eventStore {W} _ _ _.

(** ** The service *)

(** The fields of [RealtimeSyncService], the state of the world and the
    trace. Of the queue (from [@/utils/queue]) and the poller (from
    [@/utils/poll]), which are not among the sources, the service keeps
    what section 4.5 of the spec says of them: [queue] is the list of
    the tasks added with [addTask] since the queue was last cleared,
    with their priority and in the order they were added,
    [queueStarted] whether [start] was called on the queue, and
    [polling] whether the poller is installed ([unpoll] is defined).
    The hand-over of a task to the worker, which the started queue does
    on its own, is not a step of the service: it takes nothing out of
    [queue] here, and [blockTaskWorker] is run on a block given as its
    argument. So [queue] is the [size] of the queue object only as long
    as the queue is not started, as in the test of [start] after
    [setup] ([autoStart] is [false]). *)
Record Service (W : Type) : Type := {
  stats : gmap Z Z;
  queue : list (Block.t * Z);
  queueStarted : bool;
  finalizedBlockNumber : Z;
  blocks : list Light.t;
  polling : bool;
  world : W;
  trace : list Effect
}.
Arguments stats {W} _.
Arguments queue {W} _.
Arguments queueStarted {W} _.
Arguments finalizedBlockNumber {W} _.
Arguments blocks {W} _.
Arguments polling {W} _.
Arguments world {W} _.
Arguments trace {W} _.

(** How a call of an async method ends: it resolves, it rejects, or it
    does not end within the steps allowed to its loop. *)
Inductive outcome (A : Type) : Type :=
| Done (a : A)
| Thrown (msg : string)
| Running.
Arguments Done {A} a.
Arguments Thrown {A} msg.
Arguments Running {A}.

(** ** State and exceptions

    A method is a function of the service; what it assigned before it
    threw stays assigned. *)
Definition ServiceM (W A : Type) : Type :=
  Service W -> outcome A * Service W.

Section Service.

Context {W : Type}.

Local Abbreviation M := (ServiceM W).

Definition ret {A : Type} (a : A) : M A := fun s => (Done a, s).

Definition bind {A B : Type} (m : M A) (f : A -> M B) : M B :=
  fun s =>
    match m s with
    | (Done a, s') => f a s'
    | (Thrown msg, s') => (Thrown msg, s')
    | (Running, s') => (Running, s')
    end.

Definition throw {A : Type} (msg : string) : M A :=
  fun s => (Thrown msg, s).

Definition running {A : Type} : M A := fun s => (Running, s).

Definition get : M (Service W) := fun s => (Done s, s).

Definition modify (f : Service W -> Service W) : M unit :=
  fun s => (Done tt, f s).

Definition set_stats (v : gmap Z Z) (s : Service W) : Service W :=
  {| stats := v; queue := queue s; queueStarted := queueStarted s;
     finalizedBlockNumber := finalizedBlockNumber s; blocks := blocks s;
     polling := polling s; world := world s; trace := trace s |}.

Definition set_queue (v : list (Block.t * Z)) (s : Service W)
  : Service W :=
  {| stats := stats s; queue := v; queueStarted := queueStarted s;
     finalizedBlockNumber := finalizedBlockNumber s; blocks := blocks s;
     polling := polling s; world := world s; trace := trace s |}.

Definition set_queueStarted (v : bool) (s : Service W) : Service W :=
  {| stats := stats s; queue := queue s; queueStarted := v;
     finalizedBlockNumber := finalizedBlockNumber s; blocks := blocks s;
     polling := polling s; world := world s; trace := trace s |}.

Definition set_finalizedBlockNumber (v : Z) (s : Service W) : Service W :=
  {| stats := stats s; queue := queue s; queueStarted := queueStarted s;
     finalizedBlockNumber := v; blocks := blocks s;
     polling := polling s; world := world s; trace := trace s |}.

Definition set_blocks (v : list Light.t) (s : Service W) : Service W :=
  {| stats := stats s; queue := queue s; queueStarted := queueStarted s;
     finalizedBlockNumber := finalizedBlockNumber s; blocks := v;
     polling := polling s; world := world s; trace := trace s |}.

Definition set_polling (v : bool) (s : Service W) : Service W :=
  {| stats := stats s; queue := queue s; queueStarted := queueStarted s;
     finalizedBlockNumber := finalizedBlockNumber s; blocks := blocks s;
     polling := v; world := world s; trace := trace s |}.

(** The world moves to [w] and [e] is appended to the trace. *)
Definition observe (w : W) (e : Effect) (s : Service W) : Service W :=
  {| stats := stats s; queue := queue s; queueStarted := queueStarted s;
     finalizedBlockNumber := finalizedBlockNumber s; blocks := blocks s;
     polling := polling s; world := w; trace := trace s ++ [e] |}.

End Service.

Notation "x <- m ;; k" := (bind m (fun x => k))
  (at level 62, m at next level, right associativity).
Notation "m ;;; k" := (bind m (fun _ => k))
  (at level 62, right associativity).

Section Methods.

Context {W : Type}.

Local Abbreviation M := (ServiceM W).

(** [this.network.client] together with [this.eventStore]. *)
Variable env : Environment W.
(** [this.logFilters] and [this.network]. *)
Variable logFilters : list LogFilter.
Variable network : Network.
(** [isMatchedLogInBloomFilter] (from [./bloom]) and [filterLogs]
    (from [./filter]) are pure functions of their arguments; the
    service is defined for any such pair. *)
Variable isMatchedLogInBloomFilter :
  string -> list LogFilterCriteria -> bool.
Variable filterLogs :
  list Log.t -> list LogFilterCriteria -> list Log.t.

(** *** Calls to the collaborators *)

Definition answer {A : Type} (e : Effect) (r : W * except A) : M A :=
  fun s =>
    match snd r with
    | Ok a => (Done a, observe (fst r) e s)
    | Err msg => (Thrown msg, observe (fst r) e s)
    end.

Definition request_getBlockByNumber (tag : BlockTag) (withTxns : bool)
  : M (option Block.t) :=
  fun s =>
    answer (Requested (eth_getBlockByNumber tag withTxns))
      (getBlockByNumber env (world s) tag withTxns) s.

Definition request_getBlockByHash (h : string) (withTxns : bool)
  : M (option Block.t) :=
  fun s =>
    answer (Requested (eth_getBlockByHash h withTxns))
      (getBlockByHash env (world s) h withTxns) s.

Definition request_getLogs (h : string) : M (list Log.t) :=
  fun s =>
    answer (Requested (eth_getLogs h)) (getLogs env (world s) h) s.

Definition call (c : StoreCall) : M unit :=
  fun s => answer (Called c) (eventStore env (world s) c) s.

Definition emit (e : Event) : M unit :=
  fun s => (Done tt, observe (world s) (Emitted e) s).

(** *** The queue *)

(** Modelled from the spec: [queue.addTask], from [@/utils/queue], not
    among the sources. Section 4.5: [addTask(task, {priority})] adds a
    pending task. *)
Definition addTask (task : Block.t) (priority : Z) : M unit :=
  modify (fun s => set_queue (queue s ++ [(task, priority)]) s).

(** Modelled from the spec: [queue.clear], from [@/utils/queue]. Section
    4.4: [kill] and the reorg reconciliation "clear the task queue" of
    its pending tasks. *)
Definition clear : M unit := modify (set_queue []).

(** [for (const block of l) { ... addTask(block, {priority}) }] *)
Fixpoint addTasks (l : list Block.t) : M unit :=
  match l with
  | [] => ret tt
  | block :: l' =>
      let priority := MAX_SAFE_INTEGER - Block.number block in
      addTask block priority ;;; addTasks l'
  end.

(** *** [getLatestBlock], [addNewLatestBlock], [setup] *)

Definition getLatestBlock : M Block.t :=
  latestBlock_ <- request_getBlockByNumber latest true ;;
  match latestBlock_ with
  | None => throw "Unable to fetch latest block"
  | Some b => ret b
  end.

Definition addNewLatestBlock : M unit :=
  block <- getLatestBlock ;;
  let priority := MAX_SAFE_INTEGER - Block.number block in
  addTask block priority.

Definition setup : M (Z * Z) :=
  latestBlock <- getLatestBlock ;;
  let latestBlockNumber := Block.number latestBlock in
  let finalizedBlockNumber_ :=
    Z.max 0 (latestBlockNumber - finalityBlockCount network) in
  modify (set_finalizedBlockNumber finalizedBlockNumber_) ;;;
  let priority := MAX_SAFE_INTEGER - latestBlockNumber in
  addTask latestBlock priority ;;;
  ret (latestBlockNumber, finalizedBlockNumber_).

(** *** [start] *)

(** The callback of [endBlocks.every]. *)
Definition isBehindFinality (finalized : Z) (endBlock_ : option Z)
  : bool :=
  match endBlock_ with
  | None => false
  | Some e => e <? finalized
  end.

Definition start : M unit :=
  s <- get ;;
  let endBlocks := List.map (fun f => endBlock (filter f)) logFilters in
  if List.forallb (isBehindFinality (finalizedBlockNumber s)) endBlocks
  then ret tt
  else if (Z.of_nat (length (queue s)) =? 0)
  then throw "Unable to start. Must call setup() method before start()."
  else
    finalizedBlock <-
      request_getBlockByNumber (atNumber (finalizedBlockNumber s)) false ;;
    match finalizedBlock with
    | None => throw "Unable to fetch finalized block"
    | Some finalizedBlock =>
        modify (fun s =>
          set_blocks (blocks s ++ [rpcBlockToLightBlock finalizedBlock]) s) ;;;
        modify (set_queueStarted true) ;;;
        modify (set_polling true)
    end.

(** *** [kill] *)

Definition kill : M unit :=
  modify (set_polling false) ;;;
  modify (set_queueStarted false) ;;;
  clear.

(** *** [blockTaskWorker] *)

Definition sameHash (h : string) (b : Light.t) : bool :=
  String.eqb (Light.hash b) h.

(** Case 2, lines 282-349: the bloom pre-screen, the logs of the block
    and the write of the matched ones; returns [matchedLogCount]. *)
Definition matchLogs (newBlockWithTransactions : Block.t)
    (newBlock : Light.t) : M Z :=
  let isMatchedLogPresentInBlock :=
    isMatchedLogInBloomFilter (Block.logsBloom newBlockWithTransactions)
      (List.map filter logFilters) in
  if isMatchedLogPresentInBlock then
    logs <- request_getLogs (Light.hash newBlock) ;;
    let filteredLogs := filterLogs logs (List.map filter logFilters) in
    let matchedLogCount := Z.of_nat (length filteredLogs) in
    let requiredTransactionHashes :=
      List.map Log.transactionHash filteredLogs in
    let filteredTransactions :=
      List.filter
        (fun t => List.existsb (String.eqb (Tx.hash t))
                    requiredTransactionHashes)
        (Block.transactions newBlockWithTransactions) in
    (if matchedLogCount >? 0 then
       call (insertRealtimeBlock (chainId network)
               newBlockWithTransactions filteredTransactions filteredLogs)
     else ret tt) ;;;
    ret matchedLogCount
  else ret 0.

(** Case 2, lines 385-427: the finality checkpoint. A local block that
    [find] does not return is [undefined], and reading its [number]
    throws. *)
Definition advanceFinality (newBlock : Light.t) : M unit :=
  s <- get ;;
  if Light.number newBlock >?
       finalizedBlockNumber s + 2 * finalityBlockCount network
  then
    match List.find
            (fun block =>
               Light.number block =?
                 finalizedBlockNumber s + finalityBlockCount network)
            (blocks s) with
    | None => throw "TypeError: newFinalizedBlock is undefined"
    | Some newFinalizedBlock =>
        modify (set_blocks
          (List.filter
             (fun block =>
                Light.number block >=? Light.number newFinalizedBlock)
             (blocks s))) ;;;
        modify (set_stats
          (base.filter
             (fun kv : Z * Z => ~ (fst kv < Light.number newFinalizedBlock))
             (stats s))) ;;;
        call (insertLogFilterCachedRanges
                (List.map (fun l => key (filter l)) logFilters)
                (finalizedBlockNumber s + 1)
                (Light.number newFinalizedBlock)
                (Light.timestamp newFinalizedBlock)) ;;;
        modify (set_finalizedBlockNumber (Light.number newFinalizedBlock)) ;;;
        emit (finalityCheckpoint (Light.timestamp newFinalizedBlock))
    end
  else ret tt.

(** Case 2: the new head block. *)
Definition extend (newBlockWithTransactions : Block.t)
    (newBlock : Light.t) : M unit :=
  matchedLogCount <- matchLogs newBlockWithTransactions newBlock ;;
  emit (realtimeCheckpoint (Block.timestamp newBlockWithTransactions)) ;;;
  modify (fun s => set_blocks (blocks s ++ [newBlock]) s) ;;;
  modify (fun s =>
    set_stats (<[Light.number newBlock := matchedLogCount]> (stats s)) s) ;;;
  advanceFinality newBlock.

(** Modelled from the spec: [range] comes from [@/utils/range], not
    among the sources. Section 4.4.2: the missing blocks are
    [H.number+1 .. B.number-1]. *)
Definition range (start_ stop : Z) : list Z :=
  seqZ start_ (stop - start_).

(** The requests of case 3, which [p-limit] issues in the order of
    the block numbers; [Promise.all] rejects with the first failure.
    When all blocks are returned the trace has one request for each
    number, in ascending order. When one fails, the trace stops at the
    first number that failed, while the program, which handed all the
    requests to [p-limit] before it awaited any, may have sent later
    ones by then: of a failed fetch only that requests were sent, and
    nothing else done, is to be read off the trace. *)
Fixpoint fetchBlocks (numbers : list Z) : M (list Block.t) :=
  match numbers with
  | [] => ret []
  | n :: rest =>
      block <- request_getBlockByNumber (atNumber n) true ;;
      match block with
      | None => throw "Failed to fetch block number"
      | Some block =>
          others <- fetchBlocks rest ;;
          ret (block :: others)
      end
  end.

(** Case 3: at least one block is missing. *)
Definition fill (newBlockWithTransactions : Block.t)
    (newBlock previousHeadBlock : Light.t) : M unit :=
  let missingBlockNumbers :=
    range (Light.number previousHeadBlock + 1) (Light.number newBlock) in
  missingBlocks <- fetchBlocks missingBlockNumbers ;;
  addTasks (missingBlocks ++ [newBlockWithTransactions]).

(** Case 4 and 5, lines 496-595: the [while] loop over the canonical
    chain and the deep reorg after it. [fuel] bounds the number of
    times the loop condition is evaluated. *)
Fixpoint reconcile (fuel : nat) (newBlock : Light.t)
    (canonicalBlocksWithTransactions : list Block.t)
    (canonicalBlock : Light.t) (depth : Z) : M unit :=
  match fuel with
  | O => running
  | S fuel' =>
      s <- get ;;
      if Light.number canonicalBlock >? finalizedBlockNumber s then
        match List.find (sameHash (Light.parentHash canonicalBlock))
                (blocks s) with
        | Some commonAncestorBlock =>
            modify (set_blocks
              (List.filter
                 (fun block =>
                    Light.number block <=?
                      Light.number commonAncestorBlock)
                 (blocks s))) ;;;
            call (deleteRealtimeData (chainId network)
                    (Light.number commonAncestorBlock + 1)) ;;;
            clear ;;;
            addTasks canonicalBlocksWithTransactions ;;;
            addNewLatestBlock ;;;
            emit (shallowReorg (Light.timestamp commonAncestorBlock))
        | None =>
            parentBlock_ <-
              request_getBlockByHash (Light.parentHash canonicalBlock)
                true ;;
            match parentBlock_ with
            | None => throw "Failed to fetch parent block with hash"
            | Some parentBlock_ =>
                reconcile fuel' newBlock
                  (parentBlock_ :: canonicalBlocksWithTransactions)
                  (rpcBlockToLightBlock parentBlock_) (depth + 1)
            end
        end
      else
        emit (deepReorg (Light.number newBlock) depth)
  end.

Definition blockTaskWorker (fuel : nat) (block : Block.t) : M unit :=
  s <- get ;;
  let previousHeadBlock := last (blocks s) in
  let newBlockWithTransactions := block in
  let newBlock := rpcBlockToLightBlock newBlockWithTransactions in
  match List.find (sameHash (Light.hash newBlock)) (blocks s) with
  | Some _ => ret tt
  | None =>
      match previousHeadBlock with
      | None => throw "TypeError: previousHeadBlock is undefined"
      | Some previousHeadBlock =>
          if (Light.number newBlock =?
                Light.number previousHeadBlock + 1)
             && String.eqb (Light.parentHash newBlock)
                  (Light.hash previousHeadBlock)
          then extend newBlockWithTransactions newBlock
          else if Light.number newBlock >?
                    Light.number previousHeadBlock + 1
          then fill newBlockWithTransactions newBlock previousHeadBlock
          else
            reconcile fuel newBlock [newBlockWithTransactions] newBlock 0
      end
  end.

End Methods.

End RealtimeSync.

(** * Scenarios

    Concrete databases, chains and endpoints on which the statements
    below are exercised. *)

Module Scenarios.

Import CacheStore RealtimeSync.
Local Open Scope string_scope.
Local Open Scope Z_scope.

(** ** Cached intervals of contract [C] *)

Definition interval (a : string) (from to ts : Z) : CachedInterval :=
  {| contractAddress := a; CacheStore.startBlock := from;
     CacheStore.endBlock := to; CacheStore.endBlockTimestamp := ts |}.

(** [[10,20]] and [[30,40]] for [C], [[1,5]] for [D]. *)
Definition twoIntervals : Store :=
  with_cachedIntervals migrate
    [interval "C" 10 20 1020; interval "D" 1 5 1005;
     interval "C" 30 40 1040].

(** Only [[10,20]] for [C]. *)
Definition oneInterval : Store :=
  with_cachedIntervals migrate [interval "C" 10 20 1020].

(** A merge that invents an end block. *)
Definition brokenMerge (l : list (Z * Z)) : list (Z * Z) := [(0, 999)].

(** ** Logs and blocks *)

Definition logRow (id h : string) (n : Z) : DatabaseLog :=
  {| logId := id; logSortKey := n; CacheStore.address := "0xC";
     CacheStore.data := "0x"; topic0 := Some "0xddf2"; topic1 := None;
     topic2 := None; topic3 := None; CacheStore.blockHash := h;
     blockNumber := n; blockTimestamp := None; CacheStore.logIndex := 0;
     CacheStore.transactionHash := "0xT"; CacheStore.transactionIndex := 0;
     removed := 0 |}.

Definition blockRow (h : string) (n ts : Z) : DatabaseBlock :=
  {| CacheStore.hash := h; CacheStore.number := n;
     CacheStore.timestamp := ts; gasLimit := "30000000"; gasUsed := "21000";
     baseFeePerGas := "7"; miner := "0xM"; extraData := "0x"; size := 1;
     CacheStore.parentHash := "0xP"; stateRoot := "0x1";
     transactionsRoot := "0x2"; receiptsRoot := "0x3";
     CacheStore.logsBloom := "0x0"; totalDifficulty := "1" |}.

Definition txRow (h : string) (n : Z) : DatabaseTransaction :=
  {| tx_hash := h; tx_nonce := n; tx_from := "0xF"; tx_to := Some "0xC";
     tx_value := "0"; tx_input := "0x"; tx_gas := "21000";
     tx_gasPrice := "7"; tx_maxFeePerGas := None;
     tx_maxPriorityFeePerGas := None; tx_blockHash := "0xB1";
     tx_blockNumber := 5; tx_transactionIndex := 0; tx_chainId := Some 1 |}.

(** ** Chains *)

Definition rpcBlock (h parent : string) (n : Z) : Block.t :=
  {| Block.hash := h; Block.number := n; Block.parentHash := parent;
     Block.timestamp := 1000 + n; Block.logsBloom := "0x0";
     Block.transactions :=
       [ {| Tx.hash := "0xT"; Tx.transactionIndex := 0 |} ] |}.

Definition lightBlock (h parent : string) (n : Z) : Light.t :=
  rpcBlockToLightBlock (rpcBlock h parent n).

(** The endpoint knows a chain [Y100 <- Y101 <- Y102] that leaves the
    local one at [H100], a chain [X100 <- X101 <- X102] that never
    meets it, the finalized block [H100] and the latest block [H103].
    Its state counts the calls; the store accepts every call. *)
Definition endpoint : Environment nat := {|
  getBlockByNumber := fun w tag _ =>
    (S w,
     Ok match tag with
        | latest => Some (rpcBlock "H103" "H102" 103)
        | atNumber n =>
            if n =? 100 then Some (rpcBlock "H100" "H99" 100) else None
        end);
  getBlockByHash := fun w h _ =>
    (S w,
     Ok (if String.eqb h "Y101" then Some (rpcBlock "Y101" "H100" 101)
         else if String.eqb h "X101" then Some (rpcBlock "X101" "X100" 101)
         else if String.eqb h "X100" then Some (rpcBlock "X100" "X99" 100)
         else None));
  getLogs := fun w h =>
    (S w,
     Ok [ {| Log.address := "0xOther"; Log.topics := []; Log.data := "0x";
             Log.blockHash := h; Log.logIndex := 0;
             Log.transactionHash := "0xT" |} ]);
  eventStore := fun w _ => (S w, Ok tt)
|}.

Definition criteria (k : string) (e : option Z) : LogFilterCriteria :=
  {| RealtimeSync.key := k; RealtimeSync.address := Some "0xC";
     RealtimeSync.topics := []; RealtimeSync.endBlock := e |}.

(** One filter without end, and one that ends at block 100. *)
Definition openFilters : list LogFilter :=
  [ {| filterName := "Open"; filter := criteria "open" None |} ].

Definition endedFilters : list LogFilter :=
  [ {| filterName := "Ended"; filter := criteria "ended" (Some 100) |} ].

Definition net (finality : Z) : Network :=
  {| name := "mainnet"; chainId := 1; finalityBlockCount := finality;
     pollingInterval := 1000 |}.

(** A bloom filter that lets every block through, and a log filter
    that keeps the logs of the filtered addresses. *)
Definition anyBloom (bloom : string) (l : list LogFilterCriteria) : bool :=
  true.

Definition noBloom (bloom : string) (l : list LogFilterCriteria) : bool :=
  false.

Definition byAddress (logs : list Log.t) (l : list LogFilterCriteria)
  : list Log.t :=
  List.filter
    (fun log =>
       List.existsb
         (fun c =>
            match RealtimeSync.address c with
            | Some a => String.eqb a (Log.address log)
            | None => true
            end) l)
    logs.

(** The service with the local chain [chain], finalized at 100. *)
Definition service (chain : list Light.t) (pending : list (Block.t * Z))
  : Service nat :=
  {| stats := ∅; queue := pending; queueStarted := false;
     finalizedBlockNumber := 100; RealtimeSync.blocks := chain;
     polling := false; world := 0%nat; trace := [] |}.

(** The service once [setup] has queued the latest block, 103. *)
Definition afterSetup : Service nat :=
  service [] [(rpcBlock "H103" "H102" 103, MAX_SAFE_INTEGER - 103)].

(** ** Longer chains

    Block [n] of the main chain has hash [H] followed by the character
    of code [n], block [n] of the fork [X] followed by it. The endpoint
    [forkEndpoint] returns the blocks 100 to 150 of the fork by hash. *)

Definition hashOf (prefix : string) (n : Z) : string :=
  prefix ++ String (Ascii.ascii_of_N (Z.to_N n)) "".

Definition mainBlock (n : Z) : Block.t :=
  rpcBlock (hashOf "H" n) (hashOf "H" (n - 1)) n.

Definition forkBlock (n : Z) : Block.t :=
  rpcBlock (hashOf "X" n) (hashOf "X" (n - 1)) n.

Definition mainChain (from len : Z) : list Light.t :=
  List.map (fun n => rpcBlockToLightBlock (mainBlock n)) (seqZ from len).

Definition forkEndpoint : Environment nat := {|
  getBlockByNumber := fun w tag _ =>
    (S w,
     Ok match tag with
        | latest => Some (forkBlock 150)
        | atNumber n => Some (mainBlock n)
        end);
  getBlockByHash := fun w h _ =>
    (S w,
     Ok (List.find (fun b => String.eqb (Block.hash b) h)
           (List.map forkBlock (seqZ 100 51))));
  getLogs := fun w h => (S w, Ok []);
  eventStore := fun w _ => (S w, Ok tt)
|}.

Definition local100 : Light.t := lightBlock "H100" "H99" 100.
Definition local101 : Light.t := lightBlock "H101" "H100" 101.
Definition local102 : Light.t := lightBlock "H102" "H101" 102.

(** ** Failures

    A filter on every address, which the log of [endpoint] matches, and
    an environment that has the blocks of [endpoint] by hash and its
    logs, but no latest block, and whose store rejects every call. *)

Definition anyAddress : list LogFilter :=
  [ {| filterName := "Any";
       filter := {| RealtimeSync.key := "any"; RealtimeSync.address := None;
                    RealtimeSync.topics := [];
                    RealtimeSync.endBlock := None |} |} ].

Definition failing : Environment nat := {|
  getBlockByNumber := fun w tag _ => (S w, Ok None);
  getBlockByHash := getBlockByHash endpoint;
  getLogs := getLogs endpoint;
  eventStore := fun w _ => (S w, Err "SQLITE_BUSY")
|}.

End Scenarios.

(** * Facts about the cache store *)

Module CacheStoreFacts.

Import CacheStore.
Local Open Scope Z_scope.

(** ** Intervals as pairs *)

(** [[a,b]] and [[c,d]] neither overlap nor touch: the merge rule
    [max(a,c) <= min(b,d)+1] does not apply to them. *)
Definition separated (x y : Z * Z) : Prop :=
  Z.min (snd x) (snd y) + 1 < Z.max (fst x) (fst y).

Definition wellFormed (x : Z * Z) : Prop := fst x <= snd x.

Definition by_start (x y : Z * Z) : Prop := fst x <= fst y.

(** [y] starts after [x], more than one block past its end. *)
Definition gap (x y : Z * Z) : Prop :=
  fst x <= fst y /\ snd x + 1 < fst y.

(** Block [n] lies in one of the intervals. *)
Definition covers (l : list (Z * Z)) (n : Z) : Prop :=
  exists x, In x l /\ fst x <= n <= snd x.

#[local] Instance by_start_trans : Transitive by_start.
Proof. unfold by_start. intros x y z; lia. Qed.

#[local] Instance gap_trans : Transitive gap.
Proof. unfold gap. intros x y z; lia. Qed.

Lemma gap_separated x y : gap x y -> separated x y.
Proof. unfold gap, separated. lia. Qed.

Lemma separated_sym x y : separated x y -> separated y x.
Proof. unfold separated. lia. Qed.

Lemma insert_by_start_perm r l : Permutation (insert_by_start r l) (r :: l).
Proof.
  induction l as [|x l IH]; simpl; [reflexivity|].
  destruct (fst r <=? fst x); [reflexivity|].
  rewrite IH. apply perm_swap.
Qed.

Lemma sort_by_start_perm l : Permutation (sort_by_start l) l.
Proof.
  induction l as [|x l IH]; simpl; [reflexivity|].
  rewrite insert_by_start_perm. now constructor.
Qed.

Lemma insert_by_start_sorted r l :
  StronglySorted by_start l -> StronglySorted by_start (insert_by_start r l).
Proof.
  induction 1 as [|x l Hl IH Hx]; simpl.
  - repeat constructor.
  - destruct (fst r <=? fst x) eqn:E.
    + apply Z.leb_le in E. constructor.
      * now constructor.
      * constructor; [exact E|].
        eapply List.Forall_impl; [|exact Hx].
        unfold by_start; intros; lia.
    + apply Z.leb_gt in E. constructor; [exact IH|].
      eapply Permutation_Forall.
      * symmetry. apply insert_by_start_perm.
      * constructor; [unfold by_start; lia | exact Hx].
Qed.

Lemma sort_by_start_sorted l : StronglySorted by_start (sort_by_start l).
Proof.
  induction l; simpl; [constructor | now apply insert_by_start_sorted].
Qed.

(** ** The sweep *)

Lemma sweep_fst a rest z :
  In z (sweep a rest) -> In (fst z) (List.map fst (a :: rest)).
Proof.
  revert a; induction rest as [|r rest IH]; intros a Hz; simpl in Hz.
  - destruct Hz as [<-|[]]. now left.
  - destruct (fst r >? snd a + 1).
    + destruct Hz as [<-|Hz]; [now left|]. right. now apply IH.
    + apply IH in Hz. simpl in Hz |- *. tauto.
Qed.

Lemma sweep_snd a rest z :
  In z (sweep a rest) -> In (snd z) (List.map snd (a :: rest)).
Proof.
  revert a; induction rest as [|r rest IH]; intros a Hz; simpl in Hz.
  - destruct Hz as [<-|[]]. now left.
  - destruct (fst r >? snd a + 1).
    + destruct Hz as [<-|Hz]; [now left|]. right. now apply IH.
    + apply IH in Hz. simpl in Hz |- *.
      destruct Hz as [Hz|Hz]; [|tauto].
      destruct (Z.max_spec (snd a) (snd r)) as [[_ E]|[_ E]];
        rewrite E in Hz; tauto.
Qed.

Lemma sweep_canonical a rest :
  StronglySorted by_start (a :: rest) -> StronglySorted gap (sweep a rest).
Proof.
  revert a; induction rest as [|r rest IH]; intros a Hs; simpl.
  - repeat constructor.
  - apply StronglySorted_inv in Hs as [Hrest Ha].
    pose proof Hrest as Hrest'.
    apply StronglySorted_inv in Hrest' as [Hrest' Hr].
    destruct (fst r >? snd a + 1) eqn:E.
    + apply Z.gtb_lt in E. constructor; [now apply IH|].
      apply List.Forall_forall. intros z Hz.
      apply sweep_fst in Hz. apply in_map_iff in Hz as (y & Hy & Hin).
      assert (fst r <= fst y).
      { destruct Hin as [<-|Hin]; [lia|].
        rewrite List.Forall_forall in Hr. now apply Hr. }
      inversion Ha; subst. unfold gap, by_start in *. lia.
    + apply IH. constructor; [exact Hrest'|].
      inversion Ha; subst.
      eapply List.Forall_impl; [|eassumption]. unfold by_start. simpl. tauto.
Qed.

Lemma sweep_wellFormed a rest :
  wellFormed a -> Forall wellFormed rest -> Forall wellFormed (sweep a rest).
Proof.
  revert a; induction rest as [|r rest IH]; intros a Ha Hrest; simpl.
  - now constructor.
  - inversion Hrest; subst.
    destruct (fst r >? snd a + 1).
    + constructor; [exact Ha|]. now apply IH.
    + apply IH; [|assumption]. unfold wellFormed in *. simpl. lia.
Qed.

Lemma sweep_covers a rest n :
  wellFormed a -> Forall wellFormed rest ->
  StronglySorted by_start (a :: rest) ->
  covers (sweep a rest) n <-> covers (a :: rest) n.
Proof.
  revert a; induction rest as [|r rest IH]; intros a Ha Hrest Hs; simpl.
  - reflexivity.
  - inversion Hrest as [|? ? Hr Hrest']; subst.
    apply StronglySorted_inv in Hs as [Hs Hall].
    pose proof Hs as Hs'. apply StronglySorted_inv in Hs' as [Hs' Hrall].
    inversion Hall as [|? ? Har Harest]; subst.
    unfold wellFormed, by_start in Ha, Hr, Har.
    destruct (fst r >? snd a + 1) eqn:E.
    + specialize (IH r Hr Hrest' Hs). unfold covers in *. split.
      * intros (x & [<-|Hx] & Hn); [exists a; simpl; tauto|].
        destruct (proj1 IH) as (y & Hy & Hny); [now exists x|].
        exists y. simpl in *. tauto.
      * intros (x & [<-|Hx] & Hn); [exists a; simpl; tauto|].
        destruct (proj2 IH) as (y & Hy & Hny); [now exists x|].
        exists y. simpl in *. tauto.
    + rewrite Z.gtb_ltb, Z.ltb_ge in E.
      rewrite IH.
      * unfold covers. split.
        -- intros (x & [<-|Hx] & Hn); simpl in Hn.
           ++ destruct (Z_le_gt_dec n (snd a)).
              ** exists a. simpl. split; [tauto|lia].
              ** exists r. simpl. split; [tauto|lia].
           ++ exists x. simpl. tauto.
        -- intros (x & [<-|[<-|Hx]] & Hn).
           ++ exists (fst a, Z.max (snd a) (snd r)). simpl. split; [tauto|lia].
           ++ exists (fst a, Z.max (snd a) (snd r)). simpl. split; [tauto|lia].
           ++ exists x. simpl. tauto.
      * unfold wellFormed. simpl. lia.
      * assumption.
      * constructor; [exact Hs'|].
        eapply List.Forall_impl; [|exact Harest]. unfold by_start. simpl. tauto.
Qed.

(** ** [merge_intervals] *)

Lemma covers_perm l l' n : Permutation l l' -> covers l n -> covers l' n.
Proof.
  intros Hp (x & Hx & Hn). exists x. split; [|exact Hn].
  eapply Permutation_in; eassumption.
Qed.

Lemma merge_intervals_canonical l : StronglySorted gap (merge_intervals l).
Proof.
  unfold merge_intervals. pose proof (sort_by_start_sorted l) as Hs.
  destruct (sort_by_start l); [constructor | now apply sweep_canonical].
Qed.

Lemma merge_intervals_snd l z :
  In z (merge_intervals l) -> In (snd z) (List.map snd l).
Proof.
  unfold merge_intervals. pose proof (sort_by_start_perm l) as Hp.
  destruct (sort_by_start l) as [|r rest]; [intros []|].
  intros Hz. apply sweep_snd in Hz.
  eapply Permutation_in; [|exact Hz]. now apply Permutation_map.
Qed.

Lemma merge_intervals_fst l z :
  In z (merge_intervals l) -> In (fst z) (List.map fst l).
Proof.
  unfold merge_intervals. pose proof (sort_by_start_perm l) as Hp.
  destruct (sort_by_start l) as [|r rest]; [intros []|].
  intros Hz. apply sweep_fst in Hz.
  eapply Permutation_in; [|exact Hz]. now apply Permutation_map.
Qed.

Lemma merge_intervals_wellFormed l :
  Forall wellFormed l -> Forall wellFormed (merge_intervals l).
Proof.
  intros Hl. unfold merge_intervals.
  pose proof (sort_by_start_perm l) as Hp.
  assert (Hs : Forall wellFormed (sort_by_start l)).
  { eapply Permutation_Forall; [symmetry; exact Hp | exact Hl]. }
  destruct (sort_by_start l) as [|r rest]; [constructor|].
  inversion Hs; subst. now apply sweep_wellFormed.
Qed.

Lemma merge_intervals_covers l n :
  Forall wellFormed l -> covers (merge_intervals l) n <-> covers l n.
Proof.
  intros Hl. unfold merge_intervals.
  pose proof (sort_by_start_perm l) as Hp.
  pose proof (sort_by_start_sorted l) as Hsorted.
  assert (Hs : Forall wellFormed (sort_by_start l)).
  { eapply Permutation_Forall; [symmetry; exact Hp | exact Hl]. }
  destruct (sort_by_start l) as [|r rest].
  - split; intros H; [eapply covers_perm; eassumption |].
    destruct H as (x & Hx & _).
    apply Permutation_nil in Hp. subst. destruct Hx.
  - inversion Hs; subst. rewrite sweep_covers by assumption.
    split; apply covers_perm; [exact Hp | symmetry; exact Hp].
Qed.

(** ** Canonical lists are determined by the blocks they cover *)

Lemma canonical_lower x l n :
  StronglySorted gap (x :: l) -> covers (x :: l) n -> fst x <= n.
Proof.
  intros Hs (y & [<-|Hy] & Hn); [lia|].
  apply StronglySorted_inv in Hs as [_ Hall].
  rewrite List.Forall_forall in Hall. specialize (Hall y Hy).
  unfold gap in Hall. lia.
Qed.

Lemma canonical_tail_above x l n :
  StronglySorted gap (x :: l) -> covers l n -> snd x + 1 < n.
Proof.
  intros Hs (y & Hy & Hn).
  apply StronglySorted_inv in Hs as [_ Hall].
  rewrite List.Forall_forall in Hall. specialize (Hall y Hy).
  unfold gap in Hall. lia.
Qed.

Lemma canonical_head_end x l y l' :
  StronglySorted gap (x :: l) -> StronglySorted gap (y :: l') ->
  wellFormed x -> wellFormed y -> fst x = fst y ->
  (forall n, covers (x :: l) n -> covers (y :: l') n) ->
  snd x <= snd y.
Proof.
  intros Hx Hy Wx Wy Hfst Hcov.
  destruct (Z_le_gt_dec (snd x) (snd y)) as [|Hgt]; [assumption|exfalso].
  unfold wellFormed in *.
  destruct (Hcov (snd y + 1)) as (z & [<-|Hz] & Hn).
  - exists x. simpl. split; [tauto|lia].
  - lia.
  - assert (snd y + 1 < snd y + 1); [|lia].
    eapply canonical_tail_above; [exact Hy|]. now exists z.
Qed.

Lemma canonical_unique l1 :
  forall l2,
    StronglySorted gap l1 -> StronglySorted gap l2 ->
    Forall wellFormed l1 -> Forall wellFormed l2 ->
    (forall n, covers l1 n <-> covers l2 n) ->
    l1 = l2.
Proof.
  induction l1 as [|x l1 IH]; intros [|y l2] H1 H2 W1 W2 Hcov.
  - reflexivity.
  - inversion W2; subst. unfold wellFormed in *.
    destruct (proj2 (Hcov (fst y))) as (z & [] & _).
    exists y. simpl. split; [tauto|lia].
  - inversion W1; subst. unfold wellFormed in *.
    destruct (proj1 (Hcov (fst x))) as (z & [] & _).
    exists x. simpl. split; [tauto|lia].
  - inversion W1 as [|? ? Wx W1']; inversion W2 as [|? ? Wy W2']; subst.
    assert (Hfst : fst x = fst y).
    { assert (fst y <= fst x).
      { eapply canonical_lower; [exact H2|]. apply Hcov.
        exists x. unfold wellFormed in Wx. simpl. split; [tauto|lia]. }
      assert (fst x <= fst y).
      { eapply canonical_lower; [exact H1|]. apply Hcov.
        exists y. unfold wellFormed in Wy. simpl. split; [tauto|lia]. }
      lia. }
    assert (Hsnd : snd x = snd y).
    { assert (snd x <= snd y).
      { eapply canonical_head_end; eauto. intros n. apply Hcov. }
      assert (snd y <= snd x).
      { eapply canonical_head_end; eauto. intros n. apply Hcov. }
      lia. }
    assert (x = y) as <- by (destruct x, y; simpl in *; congruence).
    f_equal. apply IH.
    + now apply StronglySorted_inv in H1.
    + now apply StronglySorted_inv in H2.
    + assumption.
    + assumption.
    + intros n. split; intros Hn.
      * pose proof (canonical_tail_above _ _ _ H1 Hn) as Hlt.
        destruct (proj1 (Hcov n)) as (z & [<-|Hz] & Hz').
        { destruct Hn as (z & Hz & Hz'). exists z. simpl. tauto. }
        { lia. }
        { now exists z. }
      * pose proof (canonical_tail_above _ _ _ H2 Hn) as Hlt.
        destruct (proj2 (Hcov n)) as (z & [<-|Hz] & Hz').
        { destruct Hn as (z & Hz & Hz'). exists z. simpl. tauto. }
        { lia. }
        { now exists z. }
Qed.

(** Merging intervals that cover what a canonical list covers yields
    that list. *)
Lemma merge_intervals_canonical_eq l c :
  Forall wellFormed l -> StronglySorted gap c -> Forall wellFormed c ->
  (forall n, covers l n <-> covers c n) ->
  merge_intervals l = c.
Proof.
  intros Wl Hc Wc Hcov. apply canonical_unique.
  - apply merge_intervals_canonical.
  - exact Hc.
  - now apply merge_intervals_wellFormed.
  - exact Wc.
  - intros n. rewrite merge_intervals_covers by assumption. apply Hcov.
Qed.

(** ** [forEach] *)

Lemma forEach_Ok_Forall2 {A B : Type} (f : A -> except B) l ys :
  forEach f l = Ok ys -> Forall2 (fun x y => f x = Ok y) l ys.
Proof.
  revert ys; induction l as [|x l IH]; intros ys H; simpl in H.
  - injection H as <-. constructor.
  - destruct (f x) as [y|] eqn:Ex; [|discriminate].
    destruct (forEach f l) as [ys'|]; [|discriminate].
    injection H as <-. constructor; [exact Ex | now apply IH].
Qed.

Lemma forEach_Ok_map {A B : Type} (f : A -> except B) (g : A -> B) l :
  (forall x, In x l -> f x = Ok (g x)) -> forEach f l = Ok (List.map g l).
Proof.
  induction l as [|x l IH]; intros H; simpl; [reflexivity|].
  rewrite (H x) by now left. rewrite IH; [reflexivity|].
  intros y Hy. apply H. now right.
Qed.

Lemma forEach_Err {A B : Type} (f : A -> except B) l msg :
  forEach f l = Err msg -> exists x, In x l /\ f x = Err msg.
Proof.
  induction l as [|x l IH]; simpl; [discriminate|].
  destruct (f x) as [y|m] eqn:Ex.
  - destruct (forEach f l) as [ys|m]; [discriminate|].
    intros [= <-]. destruct IH as (z & Hz & Ez); [reflexivity|].
    exists z. tauto.
  - intros [= <-]. exists x. tauto.
Qed.

Lemma forEach_total {A B : Type} (f : A -> except B) l :
  (forall x, In x l -> exists y, f x = Ok y) -> exists ys, forEach f l = Ok ys.
Proof.
  induction l as [|x l IH]; intros H; simpl; [now exists []|].
  destruct (H x) as (y & ->); [now left|].
  destruct IH as (ys & ->); [intros z Hz; apply H; now right|].
  now exists (y :: ys).
Qed.

(** ** Reading the intervals of a contract after a write *)

Lemma ofContract_true a row : ofContract a row = true <-> contractAddress row = a.
Proof. unfold ofContract. apply String.eqb_eq. Qed.

Lemma ofContract_false a row :
  ofContract a row = false <-> contractAddress row <> a.
Proof. unfold ofContract. apply String.eqb_neq. Qed.

Lemma getCachedIntervals_In db a row :
  In row (getCachedIntervals db a) ->
  In row (cachedIntervals db) /\ contractAddress row = a.
Proof.
  unfold getCachedIntervals. rewrite filter_In, ofContract_true. tauto.
Qed.

Definition kept (db : Store) (a : string) : list CachedInterval :=
  List.filter (fun row => negb (ofContract a row)) (cachedIntervals db).

Lemma filter_all {A : Type} (p : A -> bool) l :
  (forall x, In x l -> p x = true) -> List.filter p l = l.
Proof.
  induction l as [|x l IH]; intros H; simpl; [reflexivity|].
  rewrite (H x) by now left. f_equal. apply IH. intros; apply H; now right.
Qed.

Lemma filter_none {A : Type} (p : A -> bool) l :
  (forall x, In x l -> p x = false) -> List.filter p l = [].
Proof.
  induction l as [|x l IH]; intros H; simpl; [reflexivity|].
  rewrite (H x) by now left. apply IH. intros; apply H; now right.
Qed.

Lemma getCachedIntervals_written db a rows :
  Forall (fun row => contractAddress row = a) rows ->
  getCachedIntervals (with_cachedIntervals db (kept db a ++ rows)) a = rows.
Proof.
  intros Hrows. unfold getCachedIntervals, kept. simpl.
  rewrite List.filter_app, filter_none, filter_all; [reflexivity| |].
  - intros x Hx. rewrite List.Forall_forall in Hrows.
    now apply ofContract_true, Hrows.
  - intros x Hx. apply filter_In in Hx as [_ Hx].
    now destruct (ofContract a x).
Qed.

Lemma getCachedIntervals_other db a a' rows :
  a' <> a ->
  Forall (fun row => contractAddress row = a) rows ->
  getCachedIntervals (with_cachedIntervals db (kept db a ++ rows)) a'
  = getCachedIntervals db a'.
Proof.
  intros Hne Hrows. unfold getCachedIntervals, kept. simpl.
  rewrite List.filter_app, (filter_none _ rows), app_nil_r.
  - induction (cachedIntervals db) as [|x l IH]; simpl; [reflexivity|].
    destruct (ofContract a x) eqn:Ea; simpl.
    + apply ofContract_true in Ea.
      assert (ofContract a' x = false) as ->
        by (apply ofContract_false; congruence).
      exact IH.
    + destruct (ofContract a' x); [f_equal|]; exact IH.
  - intros x Hx. rewrite List.Forall_forall in Hrows.
    apply ofContract_false. rewrite (Hrows x Hx). congruence.
Qed.

(** ** The interval-merge write, for any [merge_intervals] *)

(** [row] belongs to the contract of [N] and carries the timestamp of
    the first interval, among [N] and the removed ones, that ends where
    it ends. *)
Definition sourced (N : CachedInterval) (E : list CachedInterval)
    (row : CachedInterval) : Prop :=
  contractAddress row = contractAddress N /\
  exists c,
    List.find (fun old => endBlock old =? endBlock row) (N :: E) = Some c /\
    endBlockTimestamp row = endBlockTimestamp c.

Lemma propagate_Ok N E m row :
  propagate N E m = Ok row -> range row = m /\ sourced N E row.
Proof.
  unfold propagate, sourced, range.
  destruct (List.find _ (N :: E)) as [c|] eqn:Ef; [|discriminate].
  intros [= <-]. cbn [contractAddress startBlock endBlock endBlockTimestamp].
  split; [now destruct m|]. split; [reflexivity|]. now exists c.
Qed.

Lemma propagate_Err N E m msg :
  propagate N E m = Err msg ->
  msg = "Old interval with endBlock not found"%string /\
  forall c, In c (N :: E) -> endBlock c <> snd m.
Proof.
  unfold propagate.
  destruct (List.find _ (N :: E)) as [c|] eqn:Ef; [discriminate|].
  intros [= <-]. split; [reflexivity|].
  intros c Hc. apply (find_none _ _ Ef) in Hc. now apply Z.eqb_neq.
Qed.

Lemma propagate_found N E m c :
  In c (N :: E) -> endBlock c = snd m -> exists row, propagate N E m = Ok row.
Proof.
  intros Hc He. unfold propagate.
  destruct (List.find _ (N :: E)) as [c'|] eqn:Ef; [eauto|].
  apply (find_none _ _ Ef) in Hc. apply Z.eqb_neq in Hc. contradiction.
Qed.

Lemma sourced_new N : sourced N [] N.
Proof.
  split; [reflexivity|]. exists N. simpl. now rewrite Z.eqb_refl.
Qed.

Section AnyMerge.

Variable merge : list (Z * Z) -> list (Z * Z).

Lemma insertCachedInterval_Ok_inv db N db' :
  insertCachedInterval merge db N = Ok db' ->
  let E := getCachedIntervals db (contractAddress N) in
  exists rows,
    db' = with_cachedIntervals db (kept db (contractAddress N) ++ rows) /\
    Forall (sourced N E) rows /\
    (E = [] /\ rows = [N] \/
     E <> [] /\ List.map range rows = merge (List.map range E ++ [range N])).
Proof.
  unfold insertCachedInterval. fold (kept db (contractAddress N)).
  destruct (getCachedIntervals db (contractAddress N)) as [|e E] eqn:EE.
  - intros [= <-]. simpl. exists [N]. split; [reflexivity|].
    split; [|now left]. constructor; [apply sourced_new | constructor].
  - remember (merge _) as ms eqn:Ems. clear Ems.
    destruct (forEach _ ms) as [rows|] eqn:Ef; [|discriminate].
    intros [= <-]. simpl. exists rows. split; [reflexivity|].
    apply forEach_Ok_Forall2 in Ef. split; [|right; split; [discriminate|]].
    + induction Ef as [|m row ms rows Hm _ IH]; constructor; [|exact IH].
      now apply propagate_Ok in Hm.
    + induction Ef as [|m row ms rows Hm _ IH]; [reflexivity|].
      simpl. f_equal; [|exact IH]. now apply propagate_Ok in Hm.
Qed.

Lemma insertCachedInterval_Err_inv db N msg :
  insertCachedInterval merge db N = Err msg ->
  let E := getCachedIntervals db (contractAddress N) in
  msg = "Old interval with endBlock not found"%string /\
  E <> [] /\
  exists m,
    In m (merge (List.map range E ++ [range N])) /\
    forall c, In c (N :: E) -> endBlock c <> snd m.
Proof.
  unfold insertCachedInterval.
  destruct (getCachedIntervals db (contractAddress N)) as [|e E] eqn:EE;
    [discriminate|].
  destruct (forEach _ _) as [rows|msg'] eqn:Ef; [discriminate|].
  intros [= <-]. simpl. apply forEach_Err in Ef as (m & Hm & Em).
  apply propagate_Err in Em as [-> Hno].
  split; [reflexivity|]. split; [discriminate|]. now exists m.
Qed.

Lemma insertCachedInterval_sourced db N db' row :
  insertCachedInterval merge db N = Ok db' ->
  In row (getCachedIntervals db' (contractAddress N)) ->
  sourced N (getCachedIntervals db (contractAddress N)) row.
Proof.
  intros H Hrow. apply insertCachedInterval_Ok_inv in H.
  destruct H as (rows & -> & Hs & _).
  rewrite getCachedIntervals_written in Hrow.
  - rewrite List.Forall_forall in Hs. now apply Hs.
  - eapply List.Forall_impl; [|exact Hs]. now intros r [-> _].
Qed.

(** C5. A successful interval-merge write stores, for the contract of
    the new interval, only rows whose [endBlockTimestamp] is that of
    one contributor (the first among the new interval and the deleted
    ones) whose [endBlock] is the row's; and the write throws, storing
    nothing, exactly when a merged interval ends where no contributor
    ends. The rows it stores for the contract are the merged intervals,
    one row for each and in their order (the new interval alone when
    the contract had none), so that every merged interval gets a row
    with its range and the timestamp of its contributor; the rows of
    the other contracts stay; and the write succeeds when every merged
    interval has a contributor. Holds for every [merge_intervals]. *)
Theorem insertCachedInterval_timestamp_source db N :
  let E := getCachedIntervals db (contractAddress N) in
  let merged := merge (List.map range E ++ [range N]) in
  (forall db' row,
      insertCachedInterval merge db N = Ok db' ->
      In row (getCachedIntervals db' (contractAddress N)) ->
      exists c,
        List.find (fun old => endBlock old =? endBlock row) (N :: E)
          = Some c /\
        In c (N :: E) /\
        endBlock c = endBlock row /\
        endBlockTimestamp row = endBlockTimestamp c) /\
  (forall m,
      E <> [] -> In m merged ->
      (forall c, In c (N :: E) -> endBlock c <> snd m) ->
      insertCachedInterval merge db N
        = Err "Old interval with endBlock not found") /\
  (forall msg,
      insertCachedInterval merge db N = Err msg ->
      E <> [] /\
      exists m,
        In m merged /\ forall c, In c (N :: E) -> endBlock c <> snd m) /\
  (forall db',
      insertCachedInterval merge db N = Ok db' ->
      (E = [] /\ getCachedIntervals db' (contractAddress N) = [N] \/
       E <> [] /\
       List.map range (getCachedIntervals db' (contractAddress N))
       = merged) /\
      (forall a, a <> contractAddress N ->
                 getCachedIntervals db' a = getCachedIntervals db a)) /\
  (forall db' m,
      insertCachedInterval merge db N = Ok db' ->
      E <> [] -> In m merged ->
      exists row c,
        In row (getCachedIntervals db' (contractAddress N)) /\
        range row = m /\
        List.find (fun old => endBlock old =? snd m) (N :: E) = Some c /\
        endBlock c = snd m /\
        endBlockTimestamp row = endBlockTimestamp c) /\
  ((forall m, In m merged ->
      exists c, In c (N :: E) /\ endBlock c = snd m) ->
   exists db', insertCachedInterval merge db N = Ok db').
Proof.
  intros E merged.
  assert (Hstored : forall db',
             insertCachedInterval merge db N = Ok db' ->
             (E = [] /\ getCachedIntervals db' (contractAddress N) = [N] \/
              E <> [] /\
              List.map range (getCachedIntervals db' (contractAddress N))
              = merged) /\
             (forall a, a <> contractAddress N ->
                        getCachedIntervals db' a = getCachedIntervals db a)).
  { intros db' H. apply insertCachedInterval_Ok_inv in H.
    destruct H as (rows & -> & Hs & Hcase).
    assert (Ha : Forall (fun row => contractAddress row = contractAddress N)
                   rows)
      by (eapply List.Forall_impl; [|exact Hs]; now intros r [-> _]).
    split.
    - rewrite (getCachedIntervals_written _ _ _ Ha).
      destruct Hcase as [[HE ->]|[HE Hmap]]; [now left | now right].
    - intros a Hne. now apply getCachedIntervals_other. }
  split; [|split; [|split; [|split; [|split]]]].
  - intros db' row H Hrow.
    destruct (insertCachedInterval_sourced _ _ _ _ H Hrow) as (_ & c & Hc & Ht).
    exists c. split; [exact Hc|].
    pose proof (find_some _ _ Hc) as [Hin He].
    apply Z.eqb_eq in He. auto.
  - intros m HE Hm Hno.
    destruct (insertCachedInterval merge db N) as [db'|msg] eqn:H.
    + exfalso. apply insertCachedInterval_Ok_inv in H.
      destruct H as (rows & _ & Hs & [[HE' _]|[_ Hmap]]); [contradiction|].
      fold E in Hmap, Hs. fold merged in Hmap. rewrite <- Hmap in Hm.
      apply List.in_map_iff in Hm as (row & <- & Hrow).
      rewrite List.Forall_forall in Hs.
      destruct (Hs row Hrow) as (_ & c & Hc & _).
      pose proof (find_some _ _ Hc) as [Hin He]. apply Z.eqb_eq in He.
      now apply (Hno c Hin).
    + apply insertCachedInterval_Err_inv in H as [-> _]. reflexivity.
  - intros msg H. apply insertCachedInterval_Err_inv in H. tauto.
  - exact Hstored.
  - intros db' m H HE Hm.
    destruct (Hstored db' H) as [[[HE' _]|[_ Hmap]] _]; [contradiction|].
    rewrite <- Hmap in Hm. apply List.in_map_iff in Hm as (row & <- & Hrow).
    destruct (insertCachedInterval_sourced _ _ _ _ H Hrow)
      as (_ & c & Hc & Ht).
    exists row, c. split; [exact Hrow|]. split; [reflexivity|].
    pose proof (find_some _ _ Hc) as [_ He]. apply Z.eqb_eq in He.
    fold E in Hc. auto.
  - intros Hall.
    destruct (insertCachedInterval merge db N) as [db'|msg] eqn:H;
      [now exists db'|].
    exfalso. apply insertCachedInterval_Err_inv in H.
    destruct H as (_ & _ & m & Hm & Hno).
    destruct (Hall m Hm) as (c & Hc & He). exact (Hno c Hc He).
Qed.

End AnyMerge.

(** ** The interval-merge write with [merge_intervals] *)

Abbreviation insert := (insertCachedInterval merge_intervals).

(** The stored intervals of one contract, pairwise: no two of them
    overlap or touch. *)
Definition rowsSeparated (rows : list CachedInterval) : Prop :=
  ForallOrdPairs (fun r r' => separated (range r) (range r')) rows.

Definition rowWellFormed (row : CachedInterval) : Prop :=
  startBlock row <= endBlock row.

(** One call, the database staying as it was if the call throws. *)
Definition step (db : Store) (interval : CachedInterval) : Store :=
  match insert db interval with
  | Ok db' => db'
  | Err _ => db
  end.

(** A sequence of calls on a fresh database. *)
Definition run (intervals : list CachedInterval) : Store :=
  List.fold_left step intervals migrate.

Lemma insert_rows db N :
  let E := getCachedIntervals db (contractAddress N) in
  exists rows,
    insert db N
      = Ok (with_cachedIntervals db (kept db (contractAddress N) ++ rows)) /\
    Forall (sourced N E) rows /\
    List.map range rows = merge_intervals (List.map range E ++ [range N]).
Proof.
  intros E. destruct (insert db N) as [db'|msg] eqn:H.
  - apply insertCachedInterval_Ok_inv in H. fold E in H.
    destruct H as (rows & -> & Hs & Hm). exists rows.
    split; [reflexivity|]. split; [exact Hs|].
    destruct Hm as [[-> ->]|[_ Hm]]; [reflexivity | exact Hm].
  - exfalso. apply insertCachedInterval_Err_inv in H. fold E in H.
    destruct H as (_ & _ & m & Hm & Hno).
    apply merge_intervals_snd in Hm.
    rewrite List.map_app, List.map_map in Hm. simpl in Hm.
    apply in_app_or in Hm as [Hm|[Hm|[]]].
    + apply List.in_map_iff in Hm as (c & Hc & Hin).
      apply (Hno c); [now right | exact Hc].
    + apply (Hno N); [now left | exact Hm].
Qed.

Lemma insert_total db N : exists db', insert db N = Ok db'.
Proof. destruct (insert_rows db N) as (rows & H & _). eauto. Qed.

Lemma sourced_address N E rows :
  Forall (sourced N E) rows ->
  Forall (fun row => contractAddress row = contractAddress N) rows.
Proof. apply List.Forall_impl. now intros r [H _]. Qed.

(** What [step] leaves for each contract. *)
Lemma step_rows db N :
  let E := getCachedIntervals db (contractAddress N) in
  exists rows,
    getCachedIntervals (step db N) (contractAddress N) = rows /\
    Forall (sourced N E) rows /\
    List.map range rows = merge_intervals (List.map range E ++ [range N]).
Proof.
  intros E. destruct (insert_rows db N) as (rows & H & Hs & Hm).
  exists rows. unfold step. rewrite H.
  split; [|tauto]. apply getCachedIntervals_written.
  now apply sourced_address in Hs.
Qed.

Lemma step_other db N a :
  a <> contractAddress N ->
  getCachedIntervals (step db N) a = getCachedIntervals db a.
Proof.
  intros Hne. destruct (insert_rows db N) as (rows & H & Hs & _).
  unfold step. rewrite H. apply getCachedIntervals_other; [exact Hne|].
  now apply sourced_address in Hs.
Qed.

Lemma canonical_rowsSeparated rows :
  StronglySorted gap (List.map range rows) -> rowsSeparated rows.
Proof.
  induction rows as [|r rows IH]; simpl; intros Hs; [constructor|].
  apply StronglySorted_inv in Hs as [Hs Hall]. constructor; [|now apply IH].
  rewrite List.Forall_map in Hall.
  eapply List.Forall_impl; [|exact Hall]. intros; now apply gap_separated.
Qed.

Lemma step_separated db N a :
  rowsSeparated (getCachedIntervals db a) ->
  rowsSeparated (getCachedIntervals (step db N) a).
Proof.
  intros Hdb. destruct (string_dec a (contractAddress N)) as [->|Hne].
  - destruct (step_rows db N) as (rows & -> & _ & Hm).
    apply canonical_rowsSeparated. rewrite Hm.
    apply merge_intervals_canonical.
  - now rewrite step_other.
Qed.

Lemma step_wellFormed db N a :
  rowWellFormed N ->
  Forall rowWellFormed (getCachedIntervals db a) ->
  Forall rowWellFormed (getCachedIntervals (step db N) a).
Proof.
  intros HN Hdb. destruct (string_dec a (contractAddress N)) as [->|Hne].
  - destruct (step_rows db N) as (rows & -> & _ & Hm).
    assert (H : Forall wellFormed (List.map range rows)).
    { rewrite Hm. apply merge_intervals_wellFormed.
      apply Forall_app. split.
      - now rewrite List.Forall_map.
      - constructor; [exact HN | constructor]. }
    now rewrite List.Forall_map in H.
  - now rewrite step_other.
Qed.

Lemma covers_app l l' n : covers (l ++ l') n <-> covers l n \/ covers l' n.
Proof.
  unfold covers. split.
  - intros (x & Hx & Hn). apply in_app_or in Hx as [Hx|Hx]; eauto.
  - intros [(x & Hx & Hn)|(x & Hx & Hn)]; exists x;
      (split; [apply in_or_app; tauto | exact Hn]).
Qed.

Lemma covers_one x n : covers [x] n <-> fst x <= n <= snd x.
Proof.
  unfold covers. split.
  - now intros (y & [<-|[]] & Hn).
  - intros Hn. exists x. simpl. tauto.
Qed.

Lemma step_covers db N n :
  rowWellFormed N ->
  Forall rowWellFormed (getCachedIntervals db (contractAddress N)) ->
  covers (List.map range (getCachedIntervals (step db N) (contractAddress N))) n
  <-> covers (List.map range (getCachedIntervals db (contractAddress N))) n
      \/ startBlock N <= n <= endBlock N.
Proof.
  intros HN Hdb. destruct (step_rows db N) as (rows & -> & _ & Hm).
  rewrite Hm, merge_intervals_covers, covers_app, covers_one; [reflexivity|].
  apply Forall_app. split.
  - now rewrite List.Forall_map.
  - constructor; [exact HN | constructor].
Qed.

Lemma step_provenance db N a row :
  In row (getCachedIntervals (step db N) a) ->
  (a = contractAddress N /\ endBlock row = endBlock N
     /\ endBlockTimestamp row = endBlockTimestamp N) \/
  (exists c, In c (getCachedIntervals db a) /\ endBlock c = endBlock row
     /\ endBlockTimestamp c = endBlockTimestamp row).
Proof.
  intros Hrow. destruct (string_dec a (contractAddress N)) as [->|Hne].
  - destruct (step_rows db N) as (rows & E & Hs & _). rewrite E in Hrow.
    rewrite List.Forall_forall in Hs.
    destruct (Hs row Hrow) as (_ & c & Hc & Ht).
    apply find_some in Hc as [[<-|Hin] He]; apply Z.eqb_eq in He.
    + left. auto.
    + right. exists c. auto.
  - rewrite step_other in Hrow by assumption. right. exists row. auto.
Qed.

Lemma run_snoc l N : run (l ++ [N]) = step (run l) N.
Proof. unfold run. now rewrite fold_left_app. Qed.

Lemma run_separated l a : rowsSeparated (getCachedIntervals (run l) a).
Proof.
  induction l as [|N l IH] using rev_ind; [constructor|].
  rewrite run_snoc. now apply step_separated.
Qed.

Lemma run_wellFormed l a :
  Forall rowWellFormed l ->
  Forall rowWellFormed (getCachedIntervals (run l) a).
Proof.
  induction l as [|N l IH] using rev_ind; intros Hl; [constructor|].
  apply Forall_app in Hl as [Hl HN]. inversion HN; subst.
  rewrite run_snoc. apply step_wellFormed; auto.
Qed.

Lemma run_provenance l a row :
  In row (getCachedIntervals (run l) a) ->
  exists c, In c l /\ contractAddress c = a /\ endBlock c = endBlock row
    /\ endBlockTimestamp c = endBlockTimestamp row.
Proof.
  revert row. induction l as [|N l IH] using rev_ind; intros row Hrow.
  - destruct Hrow.
  - rewrite run_snoc in Hrow.
    apply step_provenance in Hrow as [(-> & He & Ht)|(c & Hc & He & Ht)].
    + exists N. split; [apply in_or_app; simpl; tauto | auto].
    + destruct (IH c Hc) as (c' & Hin & Ha & He' & Ht').
      exists c'. split; [apply in_or_app; tauto|].
      repeat split; congruence.
Qed.

Lemma run_covers l a n :
  Forall rowWellFormed l ->
  covers (List.map range (getCachedIntervals (run l) a)) n <->
  exists i, In i l /\ contractAddress i = a
    /\ startBlock i <= n <= endBlock i.
Proof.
  induction l as [|N l IH] using rev_ind; intros Hl.
  - split; [now intros (x & [] & _) | now intros (i & [] & _)].
  - apply Forall_app in Hl as [Hl HN]. inversion HN as [|? ? HN' _]; subst.
    rewrite run_snoc.
    destruct (string_dec a (contractAddress N)) as [->|Hne].
    + rewrite step_covers, IH by auto using run_wellFormed. split.
      * intros [(i & Hi & Ha & Hn)|Hn].
        -- exists i. split; [apply in_or_app; tauto | tauto].
        -- exists N. split; [apply in_or_app; simpl; tauto | tauto].
      * intros (i & Hi & Ha & Hn).
        apply in_app_or in Hi as [Hi|[<-|[]]]; [left; eauto | now right].
    + rewrite step_other, IH by auto. split.
      * intros (i & Hi & Ha & Hn).
        exists i. split; [apply in_or_app; tauto | tauto].
      * intros (i & Hi & Ha & Hn).
        apply in_app_or in Hi as [Hi|[<-|[]]]; [eauto | congruence].
Qed.

Lemma merge_intervals_two a b c d :
  Z.max a c <= Z.min b d + 1 ->
  merge_intervals [(a, b); (c, d)] = [(Z.min a c, Z.max b d)].
Proof.
  intros H. unfold merge_intervals. simpl.
  destruct (a <=? c) eqn:E; simpl.
  - apply Z.leb_le in E. destruct (c >? b + 1) eqn:E'.
    + apply Z.gtb_lt in E'. lia.
    + do 2 f_equal; lia.
  - apply Z.leb_gt in E. destruct (a >? d + 1) eqn:E'.
    + apply Z.gtb_lt in E'. lia.
    + do 2 f_equal; lia.
Qed.

(** The merge rule on two intervals: the stored [e] and the new [N]
    become one row. *)
Lemma step_two db N e :
  getCachedIntervals db (contractAddress N) = [e] ->
  Z.max (startBlock e) (startBlock N)
    <= Z.min (endBlock e) (endBlock N) + 1 ->
  getCachedIntervals (step db N) (contractAddress N)
  = [ {| contractAddress := contractAddress N;
         startBlock := Z.min (startBlock e) (startBlock N);
         endBlock := Z.max (endBlock e) (endBlock N);
         endBlockTimestamp :=
           if endBlock e <=? endBlock N then endBlockTimestamp N
           else endBlockTimestamp e |} ].
Proof.
  intros HE Hrule. destruct (step_rows db N) as (rows & -> & Hs & Hm).
  rewrite HE in Hs, Hm.
  change (List.map range [e] ++ [range N])
    with [(startBlock e, endBlock e); (startBlock N, endBlock N)] in Hm.
  rewrite merge_intervals_two in Hm by exact Hrule.
  destruct rows as [|r [|r' rows]]; try discriminate.
  injection Hm as Hstart Hend.
  inversion Hs as [|? ? (Ha & c & Hc & Ht) _]; subst.
  assert (Hts : endBlockTimestamp r =
                if endBlock e <=? endBlock N then endBlockTimestamp N
                else endBlockTimestamp e).
  { rewrite Ht. simpl in Hc. rewrite Hend in Hc.
    destruct (endBlock e <=? endBlock N) eqn:E.
    - apply Z.leb_le in E.
      replace (endBlock N =? Z.max (endBlock e) (endBlock N)) with true in Hc
        by (symmetry; apply Z.eqb_eq; lia).
      now injection Hc as <-.
    - apply Z.leb_gt in E.
      replace (endBlock N =? Z.max (endBlock e) (endBlock N)) with false in Hc
        by (symmetry; apply Z.eqb_neq; lia).
      replace (endBlock e =? Z.max (endBlock e) (endBlock N)) with true in Hc
        by (symmetry; apply Z.eqb_eq; lia).
      now injection Hc as <-. }
  destruct r; simpl in *; subst. now rewrite Hts.
Qed.

(** C3. After any sequence of [insertCachedInterval] calls on a fresh
    database, for every contract: the stored intervals are pairwise
    non-overlapping and non-adjacent; every stored row carries the
    [endBlock] and the [endBlockTimestamp] of one interval that was
    inserted for that contract; when the inserted intervals are ranges,
    the stored ones cover exactly the inserted blocks. And a stored
    [[a,b]] and a new [[c,d]] with [max(a,c) <= min(b,d)+1] become the
    single row [[min(a,c), max(b,d)]], with the timestamp of the one
    that ends there. (Spec-modelled [merge_intervals].) *)
Theorem cachedIntervals_merged :
  (forall intervals a,
      rowsSeparated (getCachedIntervals (run intervals) a)) /\
  (forall intervals a row,
      In row (getCachedIntervals (run intervals) a) ->
      exists c,
        In c intervals /\ contractAddress c = a /\
        endBlock c = endBlock row /\
        endBlockTimestamp c = endBlockTimestamp row) /\
  (forall intervals a n,
      Forall rowWellFormed intervals ->
      covers (List.map range (getCachedIntervals (run intervals) a)) n <->
      exists i, In i intervals /\ contractAddress i = a /\
                startBlock i <= n <= endBlock i) /\
  (forall db N e,
      getCachedIntervals db (contractAddress N) = [e] ->
      Z.max (startBlock e) (startBlock N)
        <= Z.min (endBlock e) (endBlock N) + 1 ->
      exists db',
        insertCachedInterval merge_intervals db N = Ok db' /\
        getCachedIntervals db' (contractAddress N)
        = [ {| contractAddress := contractAddress N;
               startBlock := Z.min (startBlock e) (startBlock N);
               endBlock := Z.max (endBlock e) (endBlock N);
               endBlockTimestamp :=
                 if endBlock e <=? endBlock N then endBlockTimestamp N
                 else endBlockTimestamp e |} ]).
Proof.
  split; [|split; [|split]].
  - apply run_separated.
  - apply run_provenance.
  - intros. now apply run_covers.
  - intros db N e HE Hrule.
    destruct (insert_total db N) as (db' & H). exists db'.
    split; [exact H|].
    rewrite <- (step_two db N e HE Hrule). unfold step. now rewrite H.
Qed.

(** ** Writing a range that is already covered *)

Lemma ForallOrdPairs_perm {A : Type} (R : A -> A -> Prop) l l' :
  (forall x y, R x y -> R y x) ->
  Permutation l l' -> ForallOrdPairs R l -> ForallOrdPairs R l'.
Proof.
  intros Hsym Hp. induction Hp as [|x l l' Hp IH|x y l|l l' l'' _ IH1 _ IH2];
    intros H.
  - constructor.
  - inversion H; subst. constructor; [|now apply IH].
    eapply Permutation_Forall; eassumption.
  - inversion H as [|? ? Hy H']; subst. inversion H' as [|? ? Hx H'']; subst.
    inversion Hy; subst. constructor; [|now constructor].
    constructor; [now apply Hsym | assumption].
  - auto.
Qed.

Lemma sorted_separated_canonical l :
  StronglySorted by_start l -> ForallOrdPairs separated l ->
  Forall wellFormed l -> StronglySorted gap l.
Proof.
  induction l as [|x l IH]; intros Hs Hp Hw; [constructor|].
  apply StronglySorted_inv in Hs as [Hs Hx].
  inversion Hp as [|? ? Hsep Hp']; inversion Hw as [|? ? Wx Wl]; subst.
  constructor; [now apply IH|].
  rewrite List.Forall_forall in *. intros y Hy.
  specialize (Hx y Hy). specialize (Hsep y Hy). specialize (Wl y Hy).
  unfold gap, by_start, separated, wellFormed in *. lia.
Qed.

Lemma rowsSeparated_ranges rows :
  rowsSeparated rows -> ForallOrdPairs separated (List.map range rows).
Proof.
  induction 1 as [|r rows Hr _ IH]; simpl; constructor; [|exact IH].
  now rewrite List.Forall_map.
Qed.

Lemma rows_end_unique E r r' :
  Forall rowWellFormed E -> rowsSeparated E ->
  In r E -> In r' E -> endBlock r = endBlock r' -> r = r'.
Proof.
  intros Hw Hs. revert r r'.
  induction Hs as [|x E Hx _ IH]; intros r r' Hr Hr' He; [destruct Hr|].
  inversion Hw as [|? ? Wx WE]; subst.
  rewrite List.Forall_forall in Hx, WE.
  destruct Hr as [<-|Hr], Hr' as [<-|Hr'].
  - reflexivity.
  - specialize (Hx r' Hr'). specialize (WE r' Hr').
    unfold separated, range, rowWellFormed in *. simpl in *. lia.
  - specialize (Hx r Hr). specialize (WE r Hr).
    unfold separated, range, rowWellFormed in *. simpl in *. lia.
  - apply IH; auto. now apply List.Forall_forall.
Qed.

(** The row that the write builds for a merged interval. *)
Definition rebuilt (N : CachedInterval) (E : list CachedInterval)
    (m : Z * Z) : CachedInterval :=
  {| contractAddress := contractAddress N;
     startBlock := fst m;
     endBlock := snd m;
     endBlockTimestamp :=
       match List.find (fun old => endBlock old =? snd m) (N :: E) with
       | Some c => endBlockTimestamp c
       | None => 0
       end |}.

Lemma sourced_rebuilt N E rows :
  Forall (sourced N E) rows ->
  List.map (rebuilt N E) (List.map range rows) = rows.
Proof.
  induction 1 as [|r rows (Ha & c & Hc & Ht) _ IH]; simpl; [reflexivity|].
  rewrite IH. f_equal. unfold rebuilt, range. cbn [fst snd]. rewrite Hc.
  destruct r; simpl in *. now subst.
Qed.

Lemma stored_rebuilt N E :
  Forall rowWellFormed E -> rowsSeparated E ->
  Forall (fun r => contractAddress r = contractAddress N) E ->
  (forall r, In r E -> endBlock r = endBlock N ->
             endBlockTimestamp r = endBlockTimestamp N) ->
  List.map (rebuilt N E) (List.map range E) = E.
Proof.
  intros Hw Hs Ha Hts. rewrite List.map_map.
  rewrite <- (List.map_id E) at 2. apply List.map_ext_in. intros r Hr.
  rewrite List.Forall_forall in Ha.
  unfold rebuilt, range. cbn [fst snd List.find].
  destruct (endBlock N =? endBlock r) eqn:EN.
  - apply Z.eqb_eq in EN. rewrite <- (Hts r Hr) by congruence.
    rewrite <- (Ha r Hr). now destruct r.
  - destruct (List.find _ E) as [c|] eqn:Ef.
    + apply find_some in Ef as [Hc He]. apply Z.eqb_eq in He.
      assert (c = r) as -> by (eapply rows_end_unique; eauto).
      rewrite <- (Ha r Hr). now destruct r.
    + apply (find_none _ _ Ef) in Hr. now rewrite Z.eqb_refl in Hr.
Qed.

Lemma covered_noop db N :
  let a := contractAddress N in
  let E := getCachedIntervals db a in
  rowWellFormed N -> Forall rowWellFormed E -> rowsSeparated E ->
  (forall n, startBlock N <= n <= endBlock N ->
             covers (List.map range E) n) ->
  (forall r, In r E -> endBlock r = endBlock N ->
             endBlockTimestamp r = endBlockTimestamp N) ->
  Permutation (getCachedIntervals (step db N) a) E.
Proof.
  intros a E. subst a E. intros HN Hw Hs Hcov Hts.
  destruct (step_rows db N) as (rows & -> & Hsrc & Hm).
  set (E := getCachedIntervals db (contractAddress N)) in *.
  assert (Wall : Forall wellFormed (List.map range E ++ [range N])).
  { apply Forall_app. split; [now rewrite List.Forall_map|].
    constructor; [exact HN | constructor]. }
  assert (Wranges : Forall wellFormed (List.map range E))
    by now rewrite List.Forall_map.
  rewrite (merge_intervals_canonical_eq _ (sort_by_start (List.map range E)))
    in Hm.
  - rewrite <- (sourced_rebuilt _ _ _ Hsrc), Hm.
    etransitivity; [apply Permutation_map, sort_by_start_perm|].
    rewrite stored_rebuilt; auto.
    apply List.Forall_forall. intros r Hr.
    now apply getCachedIntervals_In in Hr.
  - exact Wall.
  - apply sorted_separated_canonical.
    + apply sort_by_start_sorted.
    + eapply ForallOrdPairs_perm.
      * apply separated_sym.
      * symmetry. apply sort_by_start_perm.
      * now apply rowsSeparated_ranges.
    + eapply Permutation_Forall; [symmetry; apply sort_by_start_perm|].
      exact Wranges.
  - eapply Permutation_Forall; [symmetry; apply sort_by_start_perm|].
    exact Wranges.
  - intros n. rewrite covers_app, covers_one. split.
    + intros [H|H].
      * eapply covers_perm; [symmetry; apply sort_by_start_perm | exact H].
      * eapply covers_perm; [symmetry; apply sort_by_start_perm|].
        now apply Hcov.
    + intros H. left.
      eapply covers_perm; [apply sort_by_start_perm | exact H].
Qed.

(** C4. On a contract whose stored intervals are ranges that neither
    overlap nor touch, writing a range whose blocks are all covered by
    them, with the timestamp of the stored interval that ends where it
    ends if there is one, leaves the intervals of that contract as they
    were, and those of every other contract too; and writing any range
    a second time changes nothing. (Spec-modelled [merge_intervals].) *)
Theorem insertCachedInterval_idempotent db N :
  let a := contractAddress N in
  let E := getCachedIntervals db a in
  rowWellFormed N -> Forall rowWellFormed E -> rowsSeparated E ->
  ((forall n, startBlock N <= n <= endBlock N ->
              covers (List.map range E) n) ->
   (forall r, In r E -> endBlock r = endBlock N ->
              endBlockTimestamp r = endBlockTimestamp N) ->
   exists db',
     insertCachedInterval merge_intervals db N = Ok db' /\
     Permutation (getCachedIntervals db' a) E /\
     (forall a', a' <> a ->
                 getCachedIntervals db' a' = getCachedIntervals db a')) /\
  (exists db1 db2,
     insertCachedInterval merge_intervals db N = Ok db1 /\
     insertCachedInterval merge_intervals db1 N = Ok db2 /\
     Permutation (getCachedIntervals db2 a) (getCachedIntervals db1 a) /\
     (forall a', a' <> a ->
                 getCachedIntervals db2 a' = getCachedIntervals db1 a')).
Proof.
  intros a E. subst a E. intros HN Hw Hs. split.
  - intros Hcov Hts. destruct (insert_total db N) as (db' & H).
    exists db'. split; [exact H|].
    assert (Hstep : step db N = db') by (unfold step; now rewrite H).
    rewrite <- Hstep. split.
    + now apply covered_noop.
    + intros a' Hne. now apply step_other.
  - destruct (insert_total db N) as (db1 & H1).
    destruct (insert_total db1 N) as (db2 & H2).
    exists db1, db2. split; [exact H1|]. split; [exact H2|].
    assert (Hstep1 : step db N = db1) by (unfold step; now rewrite H1).
    assert (Hstep2 : step db1 N = db2) by (unfold step; now rewrite H2).
    rewrite <- Hstep2. split; [|intros a' Hne; now apply step_other].
    apply covered_noop.
    + exact HN.
    + rewrite <- Hstep1. now apply step_wellFormed.
    + rewrite <- Hstep1. now apply step_separated.
    + intros n Hn. rewrite <- Hstep1. apply step_covers; auto.
    + intros r Hr He. rewrite <- Hstep1 in Hr.
      destruct (step_rows db N) as (rows & Erows & Hsrc & _).
      rewrite Erows in Hr.
      rewrite List.Forall_forall in Hsrc.
      destruct (Hsrc r Hr) as (_ & c & Hc & Ht).
      simpl in Hc. rewrite He, Z.eqb_refl in Hc. now injection Hc as <-.
Qed.

(** ** Logs and blocks *)

Lemma setBlockTimestamp_blockHash h ts row :
  blockHash (setBlockTimestamp h ts row) = blockHash row.
Proof. unfold setBlockTimestamp. now destruct (String.eqb _ _). Qed.

Lemma setBlockTimestamp_logId h ts row :
  logId (setBlockTimestamp h ts row) = logId row.
Proof. unfold setBlockTimestamp. now destruct (String.eqb _ _). Qed.

Lemma setBlockTimestamp_hit h ts row :
  blockHash row = h -> blockTimestamp (setBlockTimestamp h ts row) = Some ts.
Proof.
  intros <-. unfold setBlockTimestamp. now rewrite String.eqb_refl.
Qed.

Lemma logs_insertBlockRow db block : logs (insertBlockRow db block) = logs db.
Proof. unfold insertBlockRow. now destruct (blocks db !! hash block). Qed.

Lemma backfill_lookup db h ts id row :
  logs (backfillBlockTimestamp db h ts) !! id = Some row ->
  exists row0, logs db !! id = Some row0 /\ row = setBlockTimestamp h ts row0.
Proof.
  unfold backfillBlockTimestamp. simpl. rewrite lookup_fmap.
  destruct (logs db !! id) as [row0|]; simpl; [|discriminate].
  intros [= <-]. eauto.
Qed.

Lemma insertLog_keeps m log id row :
  m !! id = Some row -> insertLog m log !! id = Some row.
Proof.
  intros H. unfold insertLog.
  destruct (m !! logId log) eqn:E; [exact H|].
  rewrite lookup_insert_ne; [exact H|]. congruence.
Qed.

Lemma insertLog_stored m log : is_Some (insertLog m log !! logId log).
Proof.
  unfold insertLog. destruct (m !! logId log) eqn:E.
  - rewrite E. eauto.
  - rewrite lookup_insert_eq. eauto.
Qed.

Lemma insertLog_inv m log id row :
  insertLog m log !! id = Some row ->
  m !! id = Some row \/ blockHash row = blockHash log.
Proof.
  unfold insertLog. destruct (m !! logId log) eqn:E; [tauto|].
  destruct (decide (logId log = id)) as [<-|Hne].
  - rewrite lookup_insert_eq. intros [= <-]. now right.
  - rewrite lookup_insert_ne by exact Hne. tauto.
Qed.

Lemma insertLogs_keeps batch : forall m id row,
  m !! id = Some row -> List.fold_left insertLog batch m !! id = Some row.
Proof.
  induction batch as [|log batch IH]; intros m id row H; simpl; [exact H|].
  apply IH. now apply insertLog_keeps.
Qed.

Lemma insertLogs_stored batch : forall m log,
  In log batch -> is_Some (List.fold_left insertLog batch m !! logId log).
Proof.
  induction batch as [|x batch IH]; intros m log []; simpl.
  - subst x. destruct (insertLog_stored m log) as [row Hrow].
    exists row. now apply insertLogs_keeps.
  - now apply IH.
Qed.

Lemma insertLogs_inv batch : forall m id row,
  List.fold_left insertLog batch m !! id = Some row ->
  m !! id = Some row \/
  exists log, In log batch /\ blockHash row = blockHash log.
Proof.
  induction batch as [|x batch IH]; intros m id row H; simpl in H; [tauto|].
  apply IH in H as [H|(log & Hin & Hh)].
  - apply insertLog_inv in H as [H|H]; [tauto|].
    right. exists x. simpl. tauto.
  - right. exists log. simpl. tauto.
Qed.

(** The blocks table is keyed by the hash of its rows. *)
Definition blocksKeyed (db : Store) : Prop :=
  forall h b, blocks db !! h = Some b -> hash b = h.

(** Every stored log has its block stored. *)
Definition logsHaveBlock (db : Store) : Prop :=
  forall id row, logs db !! id = Some row ->
    exists b, getBlock db (blockHash row) = Some b /\ hash b = blockHash row.

Lemma insertBlockRow_stored db block :
  is_Some (blocks (insertBlockRow db block) !! hash block).
Proof.
  unfold insertBlockRow. destruct (blocks db !! hash block) eqn:E.
  - rewrite E. eauto.
  - simpl. rewrite lookup_insert_eq. eauto.
Qed.

Lemma insertBlockRow_keeps db block h b :
  blocks db !! h = Some b -> blocks (insertBlockRow db block) !! h = Some b.
Proof.
  intros H. unfold insertBlockRow.
  destruct (blocks db !! hash block) eqn:E; [exact H|]. simpl.
  rewrite lookup_insert_ne; [exact H|]. congruence.
Qed.

Lemma insertBlockRow_keyed db block :
  blocksKeyed db -> blocksKeyed (insertBlockRow db block).
Proof.
  intros Hk h b. unfold insertBlockRow.
  destruct (blocks db !! hash block) eqn:E; [apply Hk|]. simpl.
  destruct (decide (hash block = h)) as [<-|Hne].
  - rewrite lookup_insert_eq. now intros [= <-].
  - rewrite lookup_insert_ne by exact Hne. apply Hk.
Qed.

Lemma blocks_insertRealtimeBlock db block ts batch :
  blocks (insertRealtimeBlock db block ts batch)
  = blocks (insertBlockRow db block).
Proof. reflexivity. Qed.

Lemma insertRealtimeBlock_invariant db block ts batch :
  Forall (fun log => blockHash log = hash block) batch ->
  blocksKeyed db /\ logsHaveBlock db ->
  blocksKeyed (insertRealtimeBlock db block ts batch) /\
  logsHaveBlock (insertRealtimeBlock db block ts batch).
Proof.
  intros Hbatch [Hk Hl]. split.
  - unfold blocksKeyed. rewrite blocks_insertRealtimeBlock.
    now apply insertBlockRow_keyed.
  - intros id row Hrow. unfold getBlock.
    rewrite blocks_insertRealtimeBlock.
    apply backfill_lookup in Hrow as (row0 & Hrow0 & ->).
    rewrite setBlockTimestamp_blockHash.
    simpl in Hrow0. rewrite logs_insertBlockRow in Hrow0.
    apply insertLogs_inv in Hrow0 as [Hold|(log & Hin & Hh)].
    + destruct (Hl id row0 Hold) as (b & Hb & Hhash).
      exists b. split; [now apply insertBlockRow_keeps | exact Hhash].
    + rewrite List.Forall_forall in Hbatch. rewrite Hh, (Hbatch log Hin).
      destruct (insertBlockRow_stored db block) as [b Hb].
      exists b. split; [exact Hb|].
      eapply insertBlockRow_keyed; eassumption.
Qed.

(** A sequence of [insertRealtimeBlock] calls on a fresh database. *)
Definition realtimeWrite (db : Store)
    (w : DatabaseBlock * list DatabaseTransaction * list DatabaseLog)
  : Store :=
  insertRealtimeBlock db (fst (fst w)) (snd (fst w)) (snd w).

Definition realtime
    (writes : list (DatabaseBlock * list DatabaseTransaction
                    * list DatabaseLog)) : Store :=
  List.fold_left realtimeWrite writes migrate.

(** The logs of a write are those of its block. *)
Definition logsOfBlock
    (w : DatabaseBlock * list DatabaseTransaction * list DatabaseLog)
  : Prop :=
  Forall (fun log => blockHash log = hash (fst (fst w))) (snd w).

Lemma realtime_invariant writes :
  Forall logsOfBlock writes ->
  blocksKeyed (realtime writes) /\ logsHaveBlock (realtime writes).
Proof.
  induction writes as [|w writes IH] using rev_ind; intros Hw.
  - split; intros k v H; unfold realtime in H; simpl in H;
      now rewrite lookup_empty in H.
  - apply Forall_app in Hw as [Hw Hone]. inversion Hone; subst.
    unfold realtime. rewrite fold_left_app. simpl.
    apply insertRealtimeBlock_invariant; [assumption|]. now apply IH.
Qed.

(** C9. After [insertBlock], whatever [insertLogs] calls came before,
    the logs handed to those calls are stored and every stored log with
    the hash of the block has the timestamp of the block. And after any
    sequence of [insertRealtimeBlock] calls on a fresh database, each
    with the logs of its block, every stored log has its block stored.
    ([insertRealtimeBlock] is spec-modelled.) *)
Theorem logs_block_timestamp :
  (forall db batches block,
      let db' :=
        insertBlock (List.fold_left insertLogs batches db) block in
      (forall batch log, In batch batches -> In log batch ->
          is_Some (logs db' !! logId log)) /\
      (forall id row,
          logs db' !! id = Some row -> blockHash row = hash block ->
          blockTimestamp row = Some (timestamp block))) /\
  (forall writes,
      Forall logsOfBlock writes ->
      forall id row,
        logs (realtime writes) !! id = Some row ->
        exists b,
          getBlock (realtime writes) (blockHash row) = Some b /\
          hash b = blockHash row).
Proof.
  split.
  - intros db batches block db'. split.
    + intros batch log Hbatch Hlog. unfold db', insertBlock.
      unfold backfillBlockTimestamp. simpl. rewrite lookup_fmap.
      rewrite logs_insertBlockRow.
      assert (H : is_Some (logs (List.fold_left insertLogs batches db)
                             !! logId log)).
      { clear db'. revert db.
        induction batches as [|x batches IH]; intros db; [destruct Hbatch|].
        simpl. destruct Hbatch as [->|Hbatch]; [|now apply IH].
        destruct (insertLogs_stored batch (logs db) log Hlog) as [r Hr].
        assert (G : forall l d r, logs d !! logId log = Some r ->
                  is_Some (logs (List.fold_left insertLogs l d) !! logId log)).
        { clear. induction l as [|y l IHl]; intros d r Hr; simpl; [eauto|].
          eapply IHl. simpl. eapply insertLogs_keeps. exact Hr. }
        eapply G. exact Hr. }
      destruct H as [r ->]. simpl. eauto.
    + intros id row Hrow Hhash. unfold db', insertBlock in Hrow.
      apply backfill_lookup in Hrow as (row0 & _ & ->).
      rewrite setBlockTimestamp_blockHash in Hhash.
      now apply setBlockTimestamp_hit.
  - intros writes Hw id row Hrow.
    destruct (realtime_invariant writes Hw) as [_ Hl].
    exact (Hl id row Hrow).
Qed.

(** ** Contract calls *)

Lemma getContractCall_upsert db c :
  getContractCall (upsertContractCall db c) (key c) = Some c.
Proof.
  unfold getContractCall, upsertContractCall. simpl.
  rewrite lookup_insert_eq. now destruct c.
Qed.

Lemma getContractCall_upsert_ne db c k :
  k <> key c ->
  getContractCall (upsertContractCall db c) k = getContractCall db k.
Proof.
  intros Hne. unfold getContractCall, upsertContractCall. simpl.
  rewrite lookup_insert_ne; [reflexivity | congruence].
Qed.

Lemma getContractCall_never calls : forall db k,
  (forall c, In c calls -> key c <> k) ->
  getContractCall (List.fold_left upsertContractCall calls db) k
  = getContractCall db k.
Proof.
  induction calls as [|c calls IH]; intros db k H; simpl; [reflexivity|].
  rewrite IH by (intros; apply H; now right).
  apply getContractCall_upsert_ne. intros ->. now apply (H c); [left|].
Qed.

(** C10. [getContractCall k] after [upsertContractCall {key: k, result:
    r}] returns [{key: k, result: r}] whatever was stored for [k]; the
    other keys keep what they had; after any sequence of upserts on a
    fresh database, [getContractCall k] returns the last call upserted
    with key [k], and [null] when there is none. *)
Theorem contractCall_last_write_wins :
  (forall db k r,
      getContractCall (upsertContractCall db {| key := k; result := r |}) k
      = Some {| key := k; result := r |}) /\
  (forall db c k,
      k <> key c ->
      getContractCall (upsertContractCall db c) k = getContractCall db k) /\
  (forall before c after,
      (forall c', In c' after -> key c' <> key c) ->
      getContractCall
        (List.fold_left upsertContractCall (before ++ c :: after) migrate)
        (key c) = Some c) /\
  (forall calls k,
      (forall c, In c calls -> key c <> k) ->
      getContractCall (List.fold_left upsertContractCall calls migrate) k
      = None).
Proof.
  split; [|split; [|split]].
  - intros db k r.
    apply (getContractCall_upsert db {| key := k; result := r |}).
  - intros. now apply getContractCall_upsert_ne.
  - intros before c after H. rewrite fold_left_app. simpl.
    rewrite getContractCall_never by exact H.
    apply getContractCall_upsert.
  - intros calls k H. rewrite getContractCall_never by exact H.
    reflexivity.
Qed.

(** ** The statements on the scenarios *)

(** Interval merge: [[10,20]] and [[30,40]] stored for [C]; writing
    [[20,35]] leaves [[10,40]] with the timestamp of 40, and writing
    [[41,50]] then leaves [[10,50]] with the timestamp of 50. *)
Example interval_merge_10_50 :
  getCachedIntervals
    (step Scenarios.twoIntervals (Scenarios.interval "C" 20 35 1035)) "C"
  = [Scenarios.interval "C" 10 40 1040] /\
  getCachedIntervals
    (step (step Scenarios.twoIntervals (Scenarios.interval "C" 20 35 1035))
       (Scenarios.interval "C" 41 50 1050)) "C"
  = [Scenarios.interval "C" 10 50 1050] /\
  getCachedIntervals
    (step (step Scenarios.twoIntervals (Scenarios.interval "C" 20 35 1035))
       (Scenarios.interval "C" 41 50 1050)) "D"
  = [Scenarios.interval "D" 1 5 1005].
Proof. vm_compute. repeat split; reflexivity. Qed.

Lemma cachedIntervals_merged_scenario :
  exists db',
    insertCachedInterval merge_intervals Scenarios.oneInterval
      (Scenarios.interval "C" 21 35 1035) = Ok db' /\
    getCachedIntervals db' "C" = [Scenarios.interval "C" 10 35 1035].
Proof.
  destruct cachedIntervals_merged as (_ & _ & _ & H).
  destruct (H Scenarios.oneInterval (Scenarios.interval "C" 21 35 1035)
              (Scenarios.interval "C" 10 20 1020))
    as (db' & H1 & H2); [reflexivity | cbn; lia |].
  exists db'. split; [exact H1 | exact H2].
Defined.

Lemma insertCachedInterval_idempotent_scenario :
  exists db',
    insertCachedInterval merge_intervals Scenarios.twoIntervals
      (Scenarios.interval "C" 12 18 7777) = Ok db' /\
    Permutation (getCachedIntervals db' "C")
      [Scenarios.interval "C" 10 20 1020; Scenarios.interval "C" 30 40 1040].
Proof.
  destruct (insertCachedInterval_idempotent Scenarios.twoIntervals
              (Scenarios.interval "C" 12 18 7777)) as [H _].
  - unfold rowWellFormed. cbn. lia.
  - repeat constructor; unfold rowWellFormed; cbn; lia.
  - repeat constructor; unfold separated; cbn; lia.
  - destruct H as (db' & H1 & H2 & _).
    + intros n Hn. cbn in Hn. exists (10, 20). split; [now left | cbn; lia].
    + intros r [<-|[<-|[]]] He; cbn in He; lia.
    + exists db'. split; [exact H1 | exact H2].
Defined.

Lemma insertCachedInterval_timestamp_source_scenario :
  insertCachedInterval Scenarios.brokenMerge Scenarios.oneInterval
    (Scenarios.interval "C" 21 35 1035)
  = Err "Old interval with endBlock not found".
Proof.
  destruct (insertCachedInterval_timestamp_source Scenarios.brokenMerge
              Scenarios.oneInterval (Scenarios.interval "C" 21 35 1035))
    as (_ & H & _).
  apply (H (0, 999)).
  - discriminate.
  - now left.
  - intros c [<-|[<-|[]]]; cbn; lia.
Defined.

Lemma logs_block_timestamp_scenario :
  exists b,
    getBlock
      (realtime [(Scenarios.blockRow "0xB1" 5 1005, [],
                  [Scenarios.logRow "L1" "0xB1" 5])]) "0xB1" = Some b /\
    hash b = "0xB1"%string.
Proof.
  destruct logs_block_timestamp as [_ H].
  apply (H [(Scenarios.blockRow "0xB1" 5 1005, [],
             [Scenarios.logRow "L1" "0xB1" 5])]
           ltac:(repeat constructor) "L1"%string
           (setBlockTimestamp "0xB1" 1005 (Scenarios.logRow "L1" "0xB1" 5))).
  vm_compute. reflexivity.
Defined.

Lemma contractCall_last_write_wins_scenario :
  getContractCall
    (List.fold_left upsertContractCall
       [ {| key := "k1"; result := "r1" |} ] migrate) "k2" = None.
Proof.
  destruct contractCall_last_write_wins as (_ & _ & _ & H).
  apply H. intros c [<-|[]]. discriminate.
Defined.

End CacheStoreFacts.

(** * Facts about the realtime sync service *)

Module RealtimeSyncFacts.

Import RealtimeSync.
Local Open Scope Z_scope.

(** A store call other than [insertRealtimeBlock], or no store call. *)
Definition writesNoBlock (e : Effect) : Prop :=
  match e with
  | Called (insertRealtimeBlock _ _ _ _) => False
  | _ => True
  end.

(** No store call at all. *)
Definition callsNoStore (e : Effect) : Prop :=
  match e with
  | Called _ => False
  | _ => True
  end.

Definition isParentRequest (e : Effect) : Prop :=
  match e with
  | Requested (eth_getBlockByHash _ true) => True
  | _ => False
  end.

Lemma last_snoc {A : Type} (l : list A) x : last (l ++ [x]) = Some x.
Proof.
  induction l as [|y l IH]; [reflexivity|].
  simpl. destruct (l ++ [x]) eqn:E; [now destruct l | exact IH].
Qed.

Lemma find_app_found {A : Type} (p : A -> bool) l l' x :
  List.find p l = Some x -> List.find p (l ++ l') = Some x.
Proof.
  induction l as [|y l IH]; simpl; [discriminate|].
  destruct (p y); [tauto | exact IH].
Qed.

Lemma filter_snoc_last {A : Type} (p : A -> bool) l x :
  p x = true -> last (List.filter p (l ++ [x])) = Some x.
Proof.
  intros H. rewrite List.filter_app. simpl. rewrite H. apply last_snoc.
Qed.

Section Facts.

Context {W : Type}.
Variable env : Environment W.
Variable logFilters : list LogFilter.
Variable network : Network.
Variable isMatchedLogInBloomFilter :
  string -> list LogFilterCriteria -> bool.
Variable filterLogs :
  list Log.t -> list LogFilterCriteria -> list Log.t.

Local Abbreviation worker :=
  (blockTaskWorker env logFilters network isMatchedLogInBloomFilter
     filterLogs).
Local Abbreviation matching :=
  (matchLogs env logFilters network isMatchedLogInBloomFilter filterLogs).
Local Abbreviation finality := (advanceFinality env logFilters network).
Local Abbreviation extending :=
  (extend env logFilters network isMatchedLogInBloomFilter filterLogs).
Local Abbreviation reconciling := (reconcile env network).
Local Abbreviation starting := (start env logFilters).

(** ** The classification of a block task *)

(** [block] is the new head: case 2. *)
Definition isNewHead (s : Service W) (block : Block.t) : Prop :=
  List.find (sameHash (Block.hash block)) (blocks s) = None /\
  exists previousHeadBlock,
    last (blocks s) = Some previousHeadBlock /\
    Block.number block = Light.number previousHeadBlock + 1 /\
    Block.parentHash block = Light.hash previousHeadBlock.

(** [block] is on a fork: case 4. *)
Definition isReorg (s : Service W) (block : Block.t) : Prop :=
  List.find (sameHash (Block.hash block)) (blocks s) = None /\
  exists previousHeadBlock,
    last (blocks s) = Some previousHeadBlock /\
    Block.number block <= Light.number previousHeadBlock + 1 /\
    ~ (Block.number block = Light.number previousHeadBlock + 1 /\
       Block.parentHash block = Light.hash previousHeadBlock).

Lemma worker_newHead fuel s block :
  isNewHead s block ->
  worker fuel block s = extending block (rpcBlockToLightBlock block) s.
Proof.
  intros (Hdup & H & Hlast & Hnum & Hparent).
  unfold blockTaskWorker, bind, get. simpl.
  rewrite Hdup, Hlast, Hnum, Hparent.
  now rewrite Z.eqb_refl, String.eqb_refl.
Qed.

Lemma worker_reorg fuel s block :
  isReorg s block ->
  worker fuel block s
  = reconciling fuel (rpcBlockToLightBlock block) [block]
      (rpcBlockToLightBlock block) 0 s.
Proof.
  intros (Hdup & H & Hlast & Hnum & Hnot).
  unfold blockTaskWorker, bind, get. simpl.
  rewrite Hdup, Hlast.
  destruct (Block.number block =? Light.number H + 1) eqn:En; simpl.
  - apply Z.eqb_eq in En.
    destruct (String.eqb (Block.parentHash block) (Light.hash H)) eqn:Ep.
    + apply String.eqb_eq in Ep. tauto.
    + rewrite En. replace (_ >? _) with false; [reflexivity|].
      symmetry. rewrite Z.gtb_ltb. apply Z.ltb_ge. lia.
  - replace (_ >? _) with false; [reflexivity|].
    symmetry. rewrite Z.gtb_ltb. apply Z.ltb_ge. lia.
Qed.

(** ** The new head block *)

Lemma matching_frame block newBlock s out s' :
  matching block newBlock s = (out, s') ->
  blocks s' = blocks s /\
  finalizedBlockNumber s' = finalizedBlockNumber s /\
  queue s' = queue s /\ stats s' = stats s.
Proof.
  unfold matchLogs.
  destruct (isMatchedLogInBloomFilter _ _);
    [|unfold ret; intros [= <- <-]; auto].
  unfold bind, request_getLogs, answer.
  destruct (getLogs env (world s) (Light.hash newBlock)) as [w [logs|msg]];
    simpl; [|intros [= <- <-]; auto].
  destruct (Z.of_nat (length (filterLogs logs _)) >? 0).
  - unfold call, answer. simpl.
    destruct (eventStore env w _) as [w2 [[]|msg]]; simpl;
      intros [= <- <-]; auto.
  - unfold ret. intros [= <- <-]; auto.
Qed.

Lemma matching_falsePositive block newBlock s w' logs :
  isMatchedLogInBloomFilter (Block.logsBloom block)
    (List.map filter logFilters) = true ->
  getLogs env (world s) (Light.hash newBlock) = (w', Ok logs) ->
  filterLogs logs (List.map filter logFilters) = [] ->
  matching block newBlock s
  = (Done 0, observe w' (Requested (eth_getLogs (Light.hash newBlock))) s).
Proof.
  intros Hbloom Hlogs Hfiltered. unfold matchLogs. rewrite Hbloom.
  unfold bind, request_getLogs, answer. rewrite Hlogs. simpl.
  rewrite Hfiltered. reflexivity.
Qed.

Lemma extending_eq block newBlock s matchedLogCount s1 :
  matching block newBlock s = (Done matchedLogCount, s1) ->
  extending block newBlock s
  = finality newBlock
      (set_stats (<[Light.number newBlock := matchedLogCount]> (stats s1))
         (set_blocks (blocks s1 ++ [newBlock])
            (observe (world s1)
               (Emitted (realtimeCheckpoint (Block.timestamp block))) s1))).
Proof. intros H. unfold extend, bind. rewrite H. reflexivity. Qed.

(** The keys handed to [insertLogFilterCachedRanges]. *)
Definition logFilterKeys : list string :=
  List.map (fun l => key (filter l)) logFilters.

(** The block that [advanceFinality] looks for. *)
Definition atNewFinality (s : Service W) (block : Light.t) : bool :=
  Light.number block =?
    finalizedBlockNumber s + finalityBlockCount network.

Lemma advanceFinality_found newBlock s F w2 :
  Light.number newBlock >
    finalizedBlockNumber s + 2 * finalityBlockCount network ->
  List.find (atNewFinality s) (blocks s) = Some F ->
  eventStore env (world s)
    (insertLogFilterCachedRanges logFilterKeys
       (finalizedBlockNumber s + 1) (Light.number F) (Light.timestamp F))
  = (w2, Ok tt) ->
  exists s',
    finality newBlock s = (Done tt, s') /\
    blocks s'
    = List.filter (fun b => Light.number b >=? Light.number F) (blocks s) /\
    finalizedBlockNumber s' = Light.number F /\
    queue s' = queue s /\
    world s' = w2 /\
    trace s'
    = trace s ++
        [Called (insertLogFilterCachedRanges logFilterKeys
                   (finalizedBlockNumber s + 1) (Light.number F)
                   (Light.timestamp F));
         Emitted (finalityCheckpoint (Light.timestamp F))].
Proof.
  intros Hdepth HF Hstore. unfold advanceFinality, bind, get.
  apply Z.gt_lt, Z.gtb_lt in Hdepth. rewrite Hdepth.
  unfold atNewFinality in HF. rewrite HF.
  unfold modify, call, answer, emit. cbn [world set_stats set_blocks].
  fold logFilterKeys. rewrite Hstore. cbn [fst snd].
  eexists. split; [reflexivity|].
  cbn [blocks finalizedBlockNumber queue world trace observe
       set_finalizedBlockNumber set_stats set_blocks].
  rewrite <- app_assoc. auto.
Qed.

(** What [advanceFinality] may do, however it ends. *)
Lemma advanceFinality_frame newBlock s :
  exists rest,
    trace (snd (finality newBlock s)) = trace s ++ rest /\
    Forall writesNoBlock rest /\
    (blocks (snd (finality newBlock s)) = blocks s \/
     exists F,
       Light.number newBlock >
         finalizedBlockNumber s + 2 * finalityBlockCount network /\
       List.find (atNewFinality s) (blocks s) = Some F /\
       blocks (snd (finality newBlock s))
       = List.filter (fun b => Light.number b >=? Light.number F)
           (blocks s)).
Proof.
  unfold advanceFinality, bind, get.
  destruct (Light.number newBlock >? _) eqn:Hdepth.
  - apply Z.gtb_lt, Z.lt_gt in Hdepth. fold (atNewFinality s).
    destruct (List.find (atNewFinality s) (blocks s)) as [F|] eqn:HF.
    + unfold modify, call, answer, emit. cbn [world set_stats set_blocks].
      destruct (eventStore env (world s) _) as [w2 [[]|msg]];
        cbn [fst snd blocks trace observe set_finalizedBlockNumber
             set_stats set_blocks].
      * eexists. rewrite <- app_assoc. split; [reflexivity|].
        split; [repeat constructor|]. right. eauto.
      * eexists. split; [reflexivity|].
        split; [repeat constructor|]. right. eauto.
    + exists []. simpl. rewrite app_nil_r. auto.
  - exists []. simpl. rewrite app_nil_r. auto.
Qed.

(** C1. A new head block [B] above [finalizedBlockNumber + 2 *
    finalityBlockCount], whose logs were processed, advances
    finality: with [F] the local block that [find] selects at
    [finalizedBlockNumber + finalityBlockCount], the local chain keeps
    the blocks numbered [F.number] or more, the store is asked to
    record [finalizedBlockNumber + 1 .. F.number] with the timestamp
    of [F] for the keys of all the filters, [finalizedBlockNumber]
    becomes [F.number] and [finalityCheckpoint] carries the timestamp
    of [F]. *)
Theorem finality_advances fuel s block matchedLogCount s1 F w2 :
  isNewHead s block ->
  matching block (rpcBlockToLightBlock block) s
    = (Done matchedLogCount, s1) ->
  Block.number block >
    finalizedBlockNumber s + 2 * finalityBlockCount network ->
  List.find (atNewFinality s) (blocks s ++ [rpcBlockToLightBlock block])
    = Some F ->
  eventStore env (world s1)
    (insertLogFilterCachedRanges logFilterKeys
       (finalizedBlockNumber s + 1) (Light.number F) (Light.timestamp F))
    = (w2, Ok tt) ->
  exists s',
    worker fuel block s = (Done tt, s') /\
    Light.number F
      = finalizedBlockNumber s + finalityBlockCount network /\
    blocks s'
    = List.filter (fun b => Light.number b >=? Light.number F)
        (blocks s ++ [rpcBlockToLightBlock block]) /\
    finalizedBlockNumber s' = Light.number F /\
    trace s'
    = trace s1 ++
        [Emitted (realtimeCheckpoint (Block.timestamp block));
         Called (insertLogFilterCachedRanges logFilterKeys
                   (finalizedBlockNumber s + 1) (Light.number F)
                   (Light.timestamp F));
         Emitted (finalityCheckpoint (Light.timestamp F))].
Proof.
  intros Hhead Hmatch Hdepth HF Hstore.
  rewrite (worker_newHead _ _ _ Hhead), (extending_eq _ _ _ _ _ Hmatch).
  destruct (matching_frame _ _ _ _ _ Hmatch) as (Hb & Hf & _ & _).
  set (s2 := set_stats _ _).
  destruct (advanceFinality_found (rpcBlockToLightBlock block) s2 F w2)
    as (s' & Hrun & Hblocks & Hfin & _ & _ & Htrace).
  - unfold s2. simpl. rewrite Hf. exact Hdepth.
  - unfold s2, atNewFinality. simpl. rewrite Hf, Hb. exact HF.
  - unfold s2. simpl. rewrite Hf. exact Hstore.
  - exists s'. split; [exact Hrun|].
    split.
    { apply find_some in HF as [_ HF]. now apply Z.eqb_eq in HF. }
    rewrite Hblocks, Hfin, Htrace. unfold s2. simpl.
    rewrite Hb, Hf, <- app_assoc. auto.
Qed.

(** C7. A new head block whose bloom pre-screen passes and whose
    filtered logs are empty: however the task ends, the store is never
    asked to insert the block, [realtimeCheckpoint] is emitted with
    the timestamp of the block right after the logs were fetched, and
    the light form of the block is the head of the local chain. *)
Theorem falsePositive_not_inserted fuel s block w' logs :
  isNewHead s block ->
  isMatchedLogInBloomFilter (Block.logsBloom block)
    (List.map filter logFilters) = true ->
  getLogs env (world s) (Block.hash block) = (w', Ok logs) ->
  filterLogs logs (List.map filter logFilters) = [] ->
  0 <= finalityBlockCount network ->
  last (blocks (snd (worker fuel block s)))
    = Some (rpcBlockToLightBlock block) /\
  exists rest,
    trace (snd (worker fuel block s))
    = trace s ++
        Requested (eth_getLogs (Block.hash block)) ::
        Emitted (realtimeCheckpoint (Block.timestamp block)) :: rest /\
    Forall writesNoBlock rest.
Proof.
  intros Hhead Hbloom Hlogs Hfiltered Hcount.
  pose proof (matching_falsePositive block (rpcBlockToLightBlock block)
                s w' logs Hbloom Hlogs Hfiltered) as Hmatch.
  rewrite (worker_newHead _ _ _ Hhead), (extending_eq _ _ _ _ _ Hmatch).
  set (s2 := set_stats _ _).
  destruct (advanceFinality_frame (rpcBlockToLightBlock block) s2)
    as (rest & Htrace & Hrest & Hblocks).
  split.
  - destruct Hblocks as [->|(F & Hdepth & HF & ->)].
    + unfold s2. simpl. apply last_snoc.
    + unfold s2. simpl. apply filter_snoc_last.
      apply find_some in HF as [_ HF]. unfold atNewFinality in HF.
      apply Z.eqb_eq in HF. unfold s2 in HF, Hdepth. simpl in HF, Hdepth.
      apply Z.geb_le. simpl. lia.
  - exists rest. split; [|exact Hrest].
    rewrite Htrace. unfold s2. simpl. now rewrite <- !app_assoc.
Qed.

(** The block that the finality checkpoint moves to is in a local
    chain that holds one block per number from [finalizedBlockNumber]
    up. *)
Fixpoint numberedFrom (n : Z) (l : list Light.t) : Prop :=
  match l with
  | [] => True
  | b :: l' => Light.number b = n /\ numberedFrom (n + 1) l'
  end.

Lemma numberedFrom_find l : forall n k,
  numberedFrom n l -> n <= k < n + Z.of_nat (length l) ->
  exists F, List.find (fun b => Light.number b =? k) l = Some F.
Proof.
  induction l as [|b l IH]; intros n k Hl Hk; simpl in *; [lia|].
  destruct Hl as [Hb Hl]. destruct (Light.number b =? k) eqn:E; [eauto|].
  apply Z.eqb_neq in E. apply (IH (n + 1)); [exact Hl | lia].
Qed.

Lemma numberedFrom_last l : forall n b,
  numberedFrom n l -> last l = Some b ->
  Light.number b = n + Z.of_nat (length l) - 1.
Proof.
  induction l as [|x l IH]; intros n b Hl Hb; [discriminate|].
  destruct Hl as [Hx Hl]. destruct l as [|y l].
  - injection Hb as <-. simpl. lia.
  - rewrite (IH (n + 1) b Hl Hb). simpl length. lia.
Qed.

Lemma finalized_block_found s block :
  isNewHead s block ->
  numberedFrom (finalizedBlockNumber s) (blocks s) ->
  0 <= finalityBlockCount network ->
  Block.number block >
    finalizedBlockNumber s + 2 * finalityBlockCount network ->
  exists F,
    List.find (atNewFinality s) (blocks s ++ [rpcBlockToLightBlock block])
    = Some F.
Proof.
  intros (_ & H & Hlast & Hnum & _) Hchain Hcount Hdepth.
  pose proof (numberedFrom_last _ _ _ Hchain Hlast) as Hhead.
  destruct (numberedFrom_find (blocks s) (finalizedBlockNumber s)
              (finalizedBlockNumber s + finalityBlockCount network))
    as (F & HF); [exact Hchain | lia |].
  exists F. now apply find_app_found.
Qed.

(** ** [start] *)

(** Every configured log filter ends, below the finalized block. *)
Definition filtersEnded (s : Service W) : Prop :=
  forall f, In f logFilters ->
    exists e, endBlock (filter f) = Some e /\ e < finalizedBlockNumber s.

Lemma filtersEnded_forallb s :
  List.forallb (isBehindFinality (finalizedBlockNumber s))
    (List.map (fun f => endBlock (filter f)) logFilters) = true
  <-> filtersEnded s.
Proof.
  unfold filtersEnded. rewrite forallb_forall. split.
  - intros H f Hf.
    specialize (H (endBlock (filter f)) (in_map _ _ _ Hf)).
    destruct (endBlock (filter f)) as [e|]; [|discriminate].
    exists e. split; [reflexivity|]. now apply Z.ltb_lt.
  - intros H e He. apply List.in_map_iff in He as (f & <- & Hf).
    destruct (H f Hf) as (e & -> & Hlt). now apply Z.ltb_lt.
Qed.

(** C6, amended. [start] returns with the service untouched (no
    request sent, no block in the local chain, queue not started, no
    poller) exactly when every configured log filter has an [endBlock]
    strictly below [finalizedBlockNumber]. Otherwise, once [setup] has
    queued the latest block and when the finalized block is fetched,
    it puts that block in the local chain, starts the queue and
    installs the poller. *)
Theorem start_returns_early_iff s :
  (starting s = (Done tt, s) <-> filtersEnded s) /\
  (forall w' finalizedBlock,
      ~ filtersEnded s ->
      queue s <> [] ->
      getBlockByNumber env (world s)
        (atNumber (finalizedBlockNumber s)) false
        = (w', Ok (Some finalizedBlock)) ->
      exists s',
        starting s = (Done tt, s') /\
        blocks s' = blocks s ++ [rpcBlockToLightBlock finalizedBlock] /\
        queueStarted s' = true /\
        polling s' = true /\
        queue s' = queue s /\
        trace s'
        = trace s ++
            [Requested
               (eth_getBlockByNumber
                  (atNumber (finalizedBlockNumber s)) false)]).
Proof.
  split.
  - rewrite <- filtersEnded_forallb. unfold start, bind, get.
    destruct (List.forallb _ _); [now split|].
    split; [|discriminate]. intros H. exfalso.
    destruct (Z.of_nat (length (queue s)) =? 0); [discriminate|].
    unfold request_getBlockByNumber, answer in H.
    destruct (getBlockByNumber env (world s) _ false) as [w' [[b|]|msg]];
      simpl in H; try discriminate.
    unfold modify in H. simpl in H. injection H as H.
    apply (f_equal trace) in H. simpl in H.
    apply (f_equal (@length _)) in H. rewrite length_app in H.
    simpl in H. lia.
  - intros w' finalizedBlock Hnot Hqueue Hfetch.
    rewrite <- filtersEnded_forallb in Hnot. unfold start, bind, get.
    destruct (List.forallb _ _); [contradiction|].
    destruct (queue s) as [|t q] eqn:Eq; [contradiction|].
    destruct (Z.of_nat (length (t :: q)) =? 0) eqn:E0;
      [apply Z.eqb_eq in E0; simpl in E0; lia|].
    unfold request_getBlockByNumber, answer. cbv beta.
    rewrite Hfetch. simpl.
    unfold modify. simpl. eexists. split; [reflexivity|]. simpl.
    rewrite Eq. auto.
Qed.

(** ** Reorgs *)

(** The task queued for a block. *)
Definition task (block : Block.t) : Block.t * Z :=
  (block, MAX_SAFE_INTEGER - Block.number block).

(** The traversal of the canonical chain: the iterations of the
    [while] loop that fetch a parent. From the blocks fetched so far,
    the current canonical block, the depth and the service, one step
    is taken when the current block is above the finalized one, its
    parent is not in the local chain and the endpoint returns it. *)
Inductive climbs :
  list Block.t -> Light.t -> Z -> Service W ->
  list Block.t -> Light.t -> Z -> Service W -> Prop :=
| climbs_here canonical cursor depth s :
    climbs canonical cursor depth s canonical cursor depth s
| climbs_parent canonical cursor depth s w' parent
    canonical' cursor' depth' s' :
    Light.number cursor > finalizedBlockNumber s ->
    List.find (sameHash (Light.parentHash cursor)) (blocks s) = None ->
    getBlockByHash env (world s) (Light.parentHash cursor) true
      = (w', Ok (Some parent)) ->
    climbs (parent :: canonical) (rpcBlockToLightBlock parent) (depth + 1)
      (observe w'
         (Requested (eth_getBlockByHash (Light.parentHash cursor) true)) s)
      canonical' cursor' depth' s' ->
    climbs canonical cursor depth s canonical' cursor' depth' s'.

Lemma climbs_frame canonical cursor depth s canonical' cursor' depth' s' :
  climbs canonical cursor depth s canonical' cursor' depth' s' ->
  blocks s' = blocks s /\
  finalizedBlockNumber s' = finalizedBlockNumber s /\
  queue s' = queue s /\
  exists fetched requests,
    canonical' = rev fetched ++ canonical /\
    depth' = depth + Z.of_nat (length fetched) /\
    trace s' = trace s ++ requests /\
    length requests = length fetched /\
    Forall isParentRequest requests.
Proof.
  induction 1 as [canonical cursor depth s
                 |canonical cursor depth s w' parent canonical' cursor'
                    depth' s' Hnum Hfind Hfetch _ IH].
  - repeat split. exists [], []. simpl. rewrite app_nil_r.
    repeat split; [lia | constructor].
  - destruct IH as (Hb & Hf & Hq & fetched & requests
                    & Hc & Hd & Ht & Hl & Hr).
    simpl in Hb, Hf, Hq, Ht. repeat split; try assumption.
    exists (parent :: fetched),
      (Requested (eth_getBlockByHash (Light.parentHash cursor) true)
         :: requests).
    rewrite <- app_assoc in Ht. simpl. rewrite <- !app_assoc. simpl.
    repeat split; [exact Hc | lia | exact Ht | lia |].
    constructor; [exact I | exact Hr].
Qed.

Lemma reconciling_climbs newBlock canonical cursor depth s
    canonical' cursor' depth' s' :
  climbs canonical cursor depth s canonical' cursor' depth' s' ->
  exists k, forall fuel,
    reconciling (k + fuel)%nat newBlock canonical cursor depth s
    = reconciling fuel newBlock canonical' cursor' depth' s'.
Proof.
  induction 1 as [canonical cursor depth s
                 |canonical cursor depth s w' parent canonical' cursor'
                    depth' s' Hnum Hfind Hfetch _ (k & IH)].
  - now exists 0%nat.
  - exists (S k). intros fuel. rewrite <- IH. simpl.
    unfold bind at 1, get at 1.
    apply Z.gt_lt, Z.gtb_lt in Hnum. rewrite Hnum, Hfind.
    unfold bind at 1, request_getBlockByHash at 1, answer at 1.
    rewrite Hfetch. reflexivity.
Qed.

Lemma addTasks_eq l : forall s : Service W,
  addTasks l s = (Done tt, set_queue (queue s ++ List.map task l) s).
Proof.
  induction l as [|b l IH]; intros s; simpl.
  - rewrite app_nil_r. now destruct s.
  - unfold bind, addTask, modify. rewrite IH. simpl.
    now rewrite <- app_assoc.
Qed.

Lemma reconciling_deep fuel newBlock canonical cursor depth s :
  Light.number cursor <= finalizedBlockNumber s ->
  reconciling (S fuel) newBlock canonical cursor depth s
  = (Done tt,
     observe (world s) (Emitted (deepReorg (Light.number newBlock) depth))
       s).
Proof.
  intros Hnum. simpl. unfold bind, get.
  replace (_ >? _) with false; [reflexivity|].
  symmetry. rewrite Z.gtb_ltb. apply Z.ltb_ge. exact Hnum.
Qed.

Lemma reconciling_shallow fuel newBlock canonical cursor depth s A w2 w3
    latestBlock :
  Light.number cursor > finalizedBlockNumber s ->
  List.find (sameHash (Light.parentHash cursor)) (blocks s) = Some A ->
  eventStore env (world s)
    (deleteRealtimeData (chainId network) (Light.number A + 1))
    = (w2, Ok tt) ->
  getBlockByNumber env w2 latest true = (w3, Ok (Some latestBlock)) ->
  exists s',
    reconciling (S fuel) newBlock canonical cursor depth s
      = (Done tt, s') /\
    blocks s'
    = List.filter (fun b => Light.number b <=? Light.number A) (blocks s) /\
    finalizedBlockNumber s' = finalizedBlockNumber s /\
    queue s' = List.map task canonical ++ [task latestBlock] /\
    world s' = w3 /\
    trace s'
    = trace s ++
        [Called (deleteRealtimeData (chainId network) (Light.number A + 1));
         Requested (eth_getBlockByNumber latest true);
         Emitted (shallowReorg (Light.timestamp A))].
Proof.
  intros Hnum Hfind Hdelete Hlatest. simpl. unfold bind at 1, get at 1.
  apply Z.gt_lt, Z.gtb_lt in Hnum. rewrite Hnum, Hfind.
  unfold bind at 1, modify at 1.
  unfold bind at 1, call at 1, answer at 1. cbn [world set_blocks].
  rewrite Hdelete. cbn [fst snd].
  unfold bind at 1, clear at 1, modify at 1.
  unfold bind at 1. rewrite addTasks_eq.
  unfold bind at 1, addNewLatestBlock, getLatestBlock.
  unfold bind at 1 2, request_getBlockByNumber, answer.
  cbn [world set_queue observe set_blocks]. rewrite Hlatest. cbn [fst snd].
  unfold ret, addTask, modify, emit.
  eexists. split; [reflexivity|].
  cbn [blocks finalizedBlockNumber queue world trace observe set_queue
       set_blocks app].
  rewrite <- !app_assoc. auto.
Qed.

Lemma isParentRequest_callsNoStore e : isParentRequest e -> callsNoStore e.
Proof. now destruct e as [[]| |]. Qed.

(** The canonical blocks in the order of the chain: each block is the
    one that was fetched as the parent of the next, and has a lower
    number. *)
Definition parentsBelow (canonical : list Block.t) : Prop :=
  Sorted (fun parent child => Block.number parent < Block.number child)
    canonical.

(** The tasks come in ascending order of block number. *)
Definition ascending (tasks : list (Block.t * Z)) : Prop :=
  StronglySorted
    (fun t t' => Block.number (fst t) < Block.number (fst t')) tasks.

Lemma parentsBelow_ascending canonical :
  parentsBelow canonical -> ascending (List.map task canonical).
Proof.
  intros H. apply Sorted_StronglySorted in H; [|intros x y z; lia].
  induction H as [|b l _ IH Hb]; simpl; constructor; [exact IH|].
  now rewrite List.Forall_map.
Qed.

(** C2. A block on a fork whose traversal of the canonical chain
    comes to a block, above the finalized one, whose parent [A] is in
    the local chain: once the store has deleted the realtime data and
    the latest block is fetched, the task returns with the local chain
    cut to the blocks numbered [A.number] or less, the store asked to
    delete from [A.number + 1], the queue holding exactly the
    canonical blocks (the fetched ancestors, oldest first, then the
    block of the task) followed by the latest block, each with
    priority [MAX_SAFE_INTEGER - number], and [shallowReorg] emitted
    with the timestamp of [A]. The canonical blocks are queued in
    ascending order of number when each fetched parent is numbered
    below its child. *)
Theorem shallowReorg_reconciles s block canonical cursor depth s1 A w2 w3
    latestBlock :
  isReorg s block ->
  climbs [block] (rpcBlockToLightBlock block) 0 s canonical cursor depth s1 ->
  Light.number cursor > finalizedBlockNumber s ->
  List.find (sameHash (Light.parentHash cursor)) (blocks s) = Some A ->
  eventStore env (world s1)
    (deleteRealtimeData (chainId network) (Light.number A + 1))
    = (w2, Ok tt) ->
  getBlockByNumber env w2 latest true = (w3, Ok (Some latestBlock)) ->
  exists fuel0, forall fuel, (fuel0 <= fuel)%nat ->
  exists s',
    worker fuel block s = (Done tt, s') /\
    blocks s'
    = List.filter (fun b => Light.number b <=? Light.number A) (blocks s) /\
    finalizedBlockNumber s' = finalizedBlockNumber s /\
    queue s' = List.map task canonical ++ [task latestBlock] /\
    (exists fetched, canonical = rev fetched ++ [block]) /\
    (parentsBelow canonical -> ascending (List.map task canonical)) /\
    trace s'
    = trace s1 ++
        [Called (deleteRealtimeData (chainId network) (Light.number A + 1));
         Requested (eth_getBlockByNumber latest true);
         Emitted (shallowReorg (Light.timestamp A))].
Proof.
  intros Hreorg Hclimb Hnum Hfind Hdelete Hlatest.
  destruct (climbs_frame _ _ _ _ _ _ _ _ Hclimb)
    as (Hb & Hf & Hq & fetched & requests & Hc & _).
  destruct (reconciling_climbs (rpcBlockToLightBlock block)
              _ _ _ _ _ _ _ _ Hclimb) as (k & Hk).
  exists (k + 1)%nat. intros fuel Hfuel.
  replace fuel with (k + S (fuel - k - 1))%nat by lia.
  rewrite (worker_reorg _ _ _ Hreorg), Hk.
  destruct (reconciling_shallow (fuel - k - 1) (rpcBlockToLightBlock block)
              canonical cursor depth s1 A w2 w3 latestBlock)
    as (s' & Hrun & Hblocks & Hfin & Hqueue & _ & Htrace);
    try assumption; try (rewrite ?Hf, ?Hb; assumption).
  exists s'. split; [exact Hrun|].
  rewrite Hblocks, Hfin, Hqueue, Htrace, Hb, Hf.
  repeat split; eauto using parentsBelow_ascending.
Qed.

(** C8. A block on a fork whose traversal of the canonical chain
    comes to a block at or below the finalized one without having met
    the local chain: the task returns having emitted [deepReorg] with
    the number of the block and, as [minimumDepth], the number of
    parents it fetched; it called the store for nothing and left the
    local chain, [finalizedBlockNumber] and the queue as they were. *)
Theorem deepReorg_leaves_chain s block canonical cursor depth s1 :
  isReorg s block ->
  climbs [block] (rpcBlockToLightBlock block) 0 s canonical cursor depth s1 ->
  Light.number cursor <= finalizedBlockNumber s ->
  exists fuel0, forall fuel, (fuel0 <= fuel)%nat ->
  exists s' requests,
    worker fuel block s = (Done tt, s') /\
    blocks s' = blocks s /\
    finalizedBlockNumber s' = finalizedBlockNumber s /\
    queue s' = queue s /\
    trace s'
    = trace s ++ requests ++
        [Emitted (deepReorg (Block.number block) depth)] /\
    Forall isParentRequest requests /\
    depth = Z.of_nat (length requests) /\
    Forall callsNoStore
      (requests ++ [Emitted (deepReorg (Block.number block) depth)]).
Proof.
  intros Hreorg Hclimb Hnum.
  destruct (climbs_frame _ _ _ _ _ _ _ _ Hclimb)
    as (Hb & Hf & Hq & fetched & requests & Hc & Hd & Ht & Hl & Hr).
  destruct (reconciling_climbs (rpcBlockToLightBlock block)
              _ _ _ _ _ _ _ _ Hclimb) as (k & Hk).
  exists (k + 1)%nat. intros fuel Hfuel.
  replace fuel with (k + S (fuel - k - 1))%nat by lia.
  rewrite (worker_reorg _ _ _ Hreorg), Hk.
  rewrite reconciling_deep by (rewrite Hf; exact Hnum).
  eexists. exists requests. split; [reflexivity|]. simpl.
  rewrite Ht, <- app_assoc.
  repeat split; try assumption; [lia|].
  apply Forall_app. split.
  - eapply List.Forall_impl; [|exact Hr].
    apply isParentRequest_callsNoStore.
  - repeat constructor.
Qed.

End Facts.

(** ** The statements on the scenarios *)

Import Scenarios.
Local Open Scope string_scope.
Local Open Scope Z_scope.

(** Finality 1, local chain 100..102: block 103 moves the checkpoint to
    101. *)
Lemma finality_advances_scenario :
  exists s',
    blockTaskWorker endpoint openFilters (net 1) noBloom byAddress 0
      (rpcBlock "H103" "H102" 103)
      (service [local100; local101; local102] []) = (Done tt, s') /\
    finalizedBlockNumber s' = 101 /\
    blocks s' = [local101; local102; lightBlock "H103" "H102" 103].
Proof.
  destruct (finality_advances endpoint openFilters (net 1) noBloom byAddress
              0 (service [local100; local101; local102] [])
              (rpcBlock "H103" "H102" 103) 0
              (service [local100; local101; local102] []) local101 1%nat)
    as (s' & Hrun & _ & Hblocks & Hfin & _).
  - split; [reflexivity|]. exists local102. repeat split; reflexivity.
  - reflexivity.
  - cbn. lia.
  - reflexivity.
  - reflexivity.
  - exists s'. split; [exact Hrun|]. split; [exact Hfin | exact Hblocks].
Defined.

(** The only log of block 101 belongs to another contract. *)
Lemma falsePositive_not_inserted_scenario :
  last (blocks (snd
    (blockTaskWorker endpoint openFilters (net 10) anyBloom byAddress 0
       (rpcBlock "H101" "H100" 101) (service [local100] []))))
  = Some (lightBlock "H101" "H100" 101).
Proof.
  eapply (falsePositive_not_inserted endpoint openFilters (net 10) anyBloom
            byAddress 0 (service [local100] []) (rpcBlock "H101" "H100" 101)).
  - split; [reflexivity|]. exists local100. repeat split; reflexivity.
  - reflexivity.
  - reflexivity.
  - reflexivity.
  - cbn. lia.
Defined.

(** Block [Y102] forks from the local chain below 101. *)
Lemma shallowReorg_reconciles_scenario :
  exists fuel s',
    blockTaskWorker endpoint openFilters (net 10) anyBloom byAddress fuel
      (rpcBlock "Y102" "Y101" 102)
      (service [local100; local101] [(rpcBlock "H102" "H101" 102, 5)])
    = (Done tt, s') /\
    blocks s' = [local100] /\
    queue s'
    = [task (rpcBlock "Y101" "H100" 101); task (rpcBlock "Y102" "Y101" 102);
       task (rpcBlock "H103" "H102" 103)].
Proof.
  destruct (shallowReorg_reconciles endpoint openFilters (net 10) anyBloom
              byAddress
              (service [local100; local101] [(rpcBlock "H102" "H101" 102, 5)])
              (rpcBlock "Y102" "Y101" 102)
              [rpcBlock "Y101" "H100" 101; rpcBlock "Y102" "Y101" 102]
              (lightBlock "Y101" "H100" 101) 1
              (observe 1%nat (Requested (eth_getBlockByHash "Y101" true))
                 (service [local100; local101]
                    [(rpcBlock "H102" "H101" 102, 5)]))
              local100 2%nat 3%nat (rpcBlock "H103" "H102" 103))
    as (fuel0 & H).
  - split; [reflexivity|]. exists local101.
    split; [reflexivity|]. split; [cbn; lia|].
    intros [_ Hparent]. discriminate Hparent.
  - eapply climbs_parent; [cbn; lia | reflexivity | reflexivity |].
    apply climbs_here.
  - cbn. lia.
  - reflexivity.
  - reflexivity.
  - reflexivity.
  - destruct (H fuel0 (le_n fuel0)) as (s' & Hrun & Hblocks & _ & Hqueue & _).
    exists fuel0, s'. split; [exact Hrun|].
    split; [exact Hblocks | exact Hqueue].
Defined.

(** Block [X102] belongs to a chain that never meets the local one. *)
Lemma deepReorg_leaves_chain_scenario :
  exists fuel s',
    blockTaskWorker endpoint openFilters (net 10) anyBloom byAddress fuel
      (rpcBlock "X102" "X101" 102) (service [local100; local101] [])
    = (Done tt, s') /\
    blocks s' = [local100; local101] /\
    finalizedBlockNumber s' = 100.
Proof.
  destruct (deepReorg_leaves_chain endpoint openFilters (net 10) anyBloom
              byAddress (service [local100; local101] [])
              (rpcBlock "X102" "X101" 102)
              [rpcBlock "X100" "X99" 100; rpcBlock "X101" "X100" 101;
               rpcBlock "X102" "X101" 102]
              (lightBlock "X100" "X99" 100) 2
              (observe 2%nat (Requested (eth_getBlockByHash "X100" true))
                 (observe 1%nat (Requested (eth_getBlockByHash "X101" true))
                    (service [local100; local101] []))))
    as (fuel0 & H).
  - split; [reflexivity|]. exists local101.
    split; [reflexivity|]. split; [cbn; lia|].
    intros [_ Hparent]. discriminate Hparent.
  - eapply climbs_parent; [cbn; lia | reflexivity | reflexivity |].
    eapply climbs_parent; [cbn; lia | reflexivity | reflexivity |].
    apply climbs_here.
  - cbn. lia.
  - destruct (H fuel0 (le_n fuel0)) as (s' & requests & Hrun & Hb & Hf & _).
    exists fuel0, s'. split; [exact Hrun|]. split; [exact Hb | exact Hf].
Defined.

(** A filter without end: [start] fetches block 100 and polls. *)
Lemma start_returns_early_iff_scenario :
  exists s',
    start endpoint openFilters afterSetup = (Done tt, s') /\
    blocks s' = [local100] /\ queueStarted s' = true /\ polling s' = true.
Proof.
  destruct (start_returns_early_iff endpoint openFilters afterSetup)
    as [_ H].
  destruct (H 1%nat (rpcBlock "H100" "H99" 100))
    as (s' & Hrun & Hblocks & Hq & Hp & _).
  - intros Hended.
    destruct (Hended _ (or_introl eq_refl)) as (e & He & _).
    discriminate He.
  - discriminate.
  - reflexivity.
  - exists s'. auto.
Defined.

(** C6 as stated fails. The only filter ends at block 100 and the
    finalized block is 100: every filter has an [endBlock] that is at
    most [finalizedBlockNumber], and yet [start] does not return early:
    it fetches the finalized block, puts it in the local chain, starts
    the queue and polls. *)
Lemma start_polls_when_endBlock_is_finalized :
  (forall f, In f endedFilters ->
     exists e, endBlock (filter f) = Some e /\
               e <= finalizedBlockNumber afterSetup) /\
  start endpoint endedFilters afterSetup <> (Done tt, afterSetup) /\
  fst (start endpoint endedFilters afterSetup) = Done tt /\
  blocks (snd (start endpoint endedFilters afterSetup)) = [local100] /\
  queueStarted (snd (start endpoint endedFilters afterSetup)) = true /\
  polling (snd (start endpoint endedFilters afterSetup)) = true.
Proof.
  split; [|split].
  - intros f [<-|[]]. exists 100. split; [reflexivity | cbn; lia].
  - intros H. apply (f_equal (fun r => polling (snd r))) in H.
    vm_compute in H. discriminate H.
  - repeat split; reflexivity.
Qed.

(** ** The scenarios of the specification *)

(** Finality advance: [finalityBlockCount = 10], finalized at 100, local
    chain 100..120, block 121 arrives. *)
Example finality_advance_to_110 :
  let r :=
    blockTaskWorker forkEndpoint openFilters (net 10) noBloom byAddress 0
      (mainBlock 121) (service (mainChain 100 21) []) in
  fst r = Done tt /\
  finalizedBlockNumber (snd r) = 110 /\
  List.map Light.number (blocks (snd r)) = seqZ 110 12 /\
  trace (snd r)
  = [Emitted (realtimeCheckpoint 1121);
     Called (insertLogFilterCachedRanges ["open"] 101 110 1110);
     Emitted (finalityCheckpoint 1110)].
Proof. vm_compute. repeat split; reflexivity. Qed.

(** Deep reorg: finalized at 100, local chain 100..149, block 150 of a
    chain that never meets it. *)
Example deep_reorg_at_150 :
  let r :=
    blockTaskWorker forkEndpoint openFilters (net 10) noBloom byAddress 51
      (forkBlock 150) (service (mainChain 100 50) []) in
  fst r = Done tt /\
  blocks (snd r) = mainChain 100 50 /\
  finalizedBlockNumber (snd r) = 100 /\
  List.filter
    (fun e => match e with Emitted _ => true | Called _ => true
                         | Requested _ => false end)
    (trace (snd r))
  = [Emitted (deepReorg 150 50)] /\
  length (trace (snd r)) = 51%nat.
Proof. vm_compute. repeat split; reflexivity. Qed.

(** With less fuel than the loop needs, the model does not answer. *)
Example deep_reorg_needs_fuel :
  fst (blockTaskWorker forkEndpoint openFilters (net 10) noBloom byAddress 50
         (forkBlock 150) (service (mainChain 100 50) [])) = Running.
Proof. vm_compute. reflexivity. Qed.

(** Shallow reorg of depth 2: local chain 100, 101; block [Y102] whose
    parent [Y101] has the local block 100 as parent. *)
Example shallow_reorg_below_101 :
  let r :=
    blockTaskWorker endpoint openFilters (net 10) anyBloom byAddress 2
      (rpcBlock "Y102" "Y101" 102)
      (service [local100; local101] [(rpcBlock "H102" "H101" 102, 5)]) in
  fst r = Done tt /\
  blocks (snd r) = [local100] /\
  List.map (fun t => Block.number (fst t)) (queue (snd r)) = [101; 102; 103] /\
  trace (snd r)
  = [Requested (eth_getBlockByHash "Y101" true);
     Called (deleteRealtimeData 1 101);
     Requested (eth_getBlockByNumber latest true);
     Emitted (shallowReorg 1100)].
Proof. vm_compute. repeat split; reflexivity. Qed.

(** A gap: local head 100, block 103 arrives; the endpoint is asked for
    101 and 102 and the three blocks are queued oldest first. *)
Example gap_fill_to_103 :
  let r :=
    blockTaskWorker forkEndpoint openFilters (net 10) noBloom byAddress 0
      (mainBlock 103) (service (mainChain 100 1) []) in
  fst r = Done tt /\
  blocks (snd r) = mainChain 100 1 /\
  queue (snd r) = [task (mainBlock 101); task (mainBlock 102);
                   task (mainBlock 103)] /\
  trace (snd r)
  = [Requested (eth_getBlockByNumber (atNumber 101) true);
     Requested (eth_getBlockByNumber (atNumber 102) true)].
Proof. vm_compute. repeat split; reflexivity. Qed.

End RealtimeSyncFacts.

(** * More about the cache store *)

Module CacheStoreExtra.

Import CacheStore CacheStoreFacts.
Local Open Scope Z_scope.

(** ** Logs: first write wins *)

(** The row that [insertLogs] stores for [log], and the same row once
    the block is known. *)
Definition storedLog (log : DatabaseLog) (ts : option Z) : DatabaseLog :=
  {| logId := logId log;
     logSortKey := logSortKey log;
     address := address log;
     data := data log;
     topic0 := topic0 log;
     topic1 := topic1 log;
     topic2 := topic2 log;
     topic3 := topic3 log;
     blockHash := blockHash log;
     blockNumber := blockNumber log;
     blockTimestamp := ts;
     logIndex := logIndex log;
     transactionHash := transactionHash log;
     transactionIndex := transactionIndex log;
     removed := removed log |}.

Definition hasLogId (id : string) (log : DatabaseLog) : bool :=
  String.eqb (logId log) id.

Definition hasTxHash (h : string) (t : DatabaseTransaction) : bool :=
  String.eqb (tx_hash t) h.

Lemma insertLog_lookup m log id :
  insertLog m log !! id
  = match m !! id with
    | Some row => Some row
    | None => if hasLogId id log then Some (storedLog log None) else None
    end.
Proof.
  unfold insertLog, hasLogId. fold (storedLog log None).
  destruct (String.eqb (logId log) id) eqn:E.
  - apply String.eqb_eq in E. subst id.
    destruct (m !! logId log) eqn:Em; [now rewrite Em|].
    now rewrite lookup_insert_eq.
  - apply String.eqb_neq in E.
    destruct (m !! logId log) eqn:Em.
    + now destruct (m !! id).
    + rewrite lookup_insert_ne by exact E. now destruct (m !! id).
Qed.

Lemma insertLogs_fold_lookup batch : forall m id,
  List.fold_left insertLog batch m !! id
  = match m !! id with
    | Some row => Some row
    | None =>
        match List.find (hasLogId id) batch with
        | Some log => Some (storedLog log None)
        | None => None
        end
    end.
Proof.
  induction batch as [|x batch IH]; intros m id; simpl.
  - now destruct (m !! id).
  - rewrite IH, insertLog_lookup.
    destruct (m !! id); [reflexivity|]. now destruct (hasLogId id x).
Qed.

Lemma insertLogs_fold_present batch : forall m,
  (forall log, In log batch -> is_Some (m !! logId log)) ->
  List.fold_left insertLog batch m = m.
Proof.
  induction batch as [|x batch IH]; intros m H; simpl; [reflexivity|].
  assert (Hx : insertLog m x = m).
  { unfold insertLog. destruct (H x (or_introl eq_refl)) as [r ->].
    reflexivity. }
  rewrite Hx. apply IH. intros log Hlog. apply H. now right.
Qed.

(** X3. After [insertLogs], a [logId] that was stored keeps its row as
    it was, timestamp included; a [logId] that was not stored holds the
    first log of the batch with that id, with a NULL [blockTimestamp];
    running the same batch again changes nothing. *)
Theorem insertLogs_first_write_wins db batch :
  (forall id,
      logs (insertLogs db batch) !! id
      = match logs db !! id with
        | Some row => Some row
        | None =>
            match List.find (hasLogId id) batch with
            | Some log => Some (storedLog log None)
            | None => None
            end
        end) /\
  insertLogs (insertLogs db batch) batch = insertLogs db batch.
Proof.
  split.
  - intros id. apply insertLogs_fold_lookup.
  - unfold insertLogs. simpl.
    rewrite (insertLogs_fold_present batch
               (List.fold_left insertLog batch (logs db))); [reflexivity|].
    intros log Hlog. now apply insertLogs_stored.
Qed.

(** ** Reading logs back *)

Lemma getLogs_In db a from to sig row :
  In row (getLogs db a from to sig) <->
  (exists id, logs db !! id = Some row) /\
  address row = a /\
  (exists ts, blockTimestamp row = Some ts /\ from < ts <= to) /\
  inTopics sig row = true.
Proof.
  unfold getLogs. rewrite filter_In, List.in_map_iff.
  rewrite !andb_true_iff, String.eqb_eq.
  assert (Hstored :
    (exists x : string * DatabaseLog,
        snd x = row /\ In x (map_to_list (logs db)))
    <-> exists id, logs db !! id = Some row).
  { split.
    - intros ([id r] & <- & Hin). exists id.
      now apply elem_of_map_to_list, list_elem_of_In.
    - intros (id & Hid). exists (id, row). split; [reflexivity|].
      now apply list_elem_of_In, elem_of_map_to_list. }
  assert (Htime :
    inTimestamps from to row = true
    <-> exists ts, blockTimestamp row = Some ts /\ from < ts <= to).
  { unfold inTimestamps. destruct (blockTimestamp row) as [ts|].
    - rewrite andb_true_iff, Z.ltb_lt, Z.leb_le. split.
      + intros H. exists ts. tauto.
      + intros (ts' & [= <-] & H). exact H.
    - split; [discriminate | now intros (ts & H & _)]. }
  rewrite Hstored, Htime. tauto.
Qed.

(** X4. A log is invisible to [getLogs] until its block is inserted:
    the row that [insertLogs] stores is in no result, whatever the
    range; after [insertBlock] of the block whose hash it carries, it is
    in the result for its address exactly when the timestamp of the
    block is above [fromBlockTimestamp] and at most [toBlockTimestamp]
    and, when [eventSigHashes] is given, its [topic0] is one of them
    (none when the list is empty). *)
Theorem log_visible_once_block_inserted db log b :
  logs db !! logId log = None ->
  blockHash log = hash b ->
  logs (insertLogs db [log]) !! logId log = Some (storedLog log None) /\
  (forall a from to sig,
      ~ In (storedLog log None) (getLogs (insertLogs db [log]) a from to sig)) /\
  (forall from to,
      In (storedLog log (Some (timestamp b)))
        (getLogs (insertBlock (insertLogs db [log]) b) (address log)
           from to None)
      <-> from < timestamp b <= to) /\
  (forall from to hashes,
      In (storedLog log (Some (timestamp b)))
        (getLogs (insertBlock (insertLogs db [log]) b) (address log)
           from to (Some hashes))
      <-> from < timestamp b <= to /\
          exists t, topic0 log = Some t /\ In t hashes).
Proof.
  intros Hfresh Hhash.
  assert (H1 : logs (insertLogs db [log]) !! logId log
               = Some (storedLog log None)).
  { destruct (insertLogs_first_write_wins db [log]) as [H _].
    rewrite H, Hfresh. simpl. unfold hasLogId. now rewrite String.eqb_refl. }
  assert (H2 : logs (insertBlock (insertLogs db [log]) b) !! logId log
               = Some (storedLog log (Some (timestamp b)))).
  { unfold insertBlock, backfillBlockTimestamp. simpl.
    rewrite lookup_fmap, logs_insertBlockRow, H1. simpl. f_equal.
    unfold setBlockTimestamp, storedLog. simpl.
    now rewrite Hhash, String.eqb_refl. }
  split; [exact H1|]. split; [|split].
  - intros a from to sig Hin. apply getLogs_In in Hin.
    destruct Hin as (_ & _ & (ts & Hts & _) & _). discriminate Hts.
  - intros from to. rewrite getLogs_In. simpl. split.
    + intros (_ & _ & (ts & [= <-] & Hr) & _). exact Hr.
    + intros Hr. repeat split; eauto.
  - intros from to hashes. rewrite getLogs_In. unfold inTopics. simpl. split.
    + intros (_ & _ & (ts & [= <-] & Hr) & Ht). split; [exact Hr|].
      destruct (topic0 log) as [t|]; [|discriminate]. exists t.
      split; [reflexivity|]. apply existsb_exists in Ht as (t' & Hin & Heq).
      apply String.eqb_eq in Heq. now subst.
    + intros (Hr & t & Ht & Hin). rewrite Ht.
      repeat split; eauto. apply existsb_exists. exists t.
      split; [exact Hin | apply String.eqb_refl].
Qed.

(** ** Blocks: first write wins, but the logs follow the last *)

(** X5. [insertBlock] with a hash that is already stored keeps the
    stored row, with a new hash it stores the block, and the other
    hashes keep their row; in both cases every stored log of that hash
    takes the timestamp of the block that was passed, and the logs of
    other blocks stay as they were. So after a second [insertBlock] with
    the same hash and another timestamp, the logs carry a timestamp that
    is not the one of the stored block. *)
Theorem insertBlock_keeps_first_row db b :
  (forall old, getBlock db (hash b) = Some old ->
               getBlock (insertBlock db b) (hash b) = Some old) /\
  (getBlock db (hash b) = None ->
   getBlock (insertBlock db b) (hash b) = Some b) /\
  (forall h, h <> hash b -> getBlock (insertBlock db b) h = getBlock db h) /\
  (forall id row,
      logs db !! id = Some row ->
      blockHash row = hash b ->
      logs (insertBlock db b) !! id
      = Some (storedLog row (Some (timestamp b)))) /\
  (forall id row,
      logs db !! id = Some row ->
      blockHash row <> hash b ->
      logs (insertBlock db b) !! id = Some row).
Proof.
  unfold getBlock, insertBlock, backfillBlockTimestamp. simpl.
  repeat split.
  - intros old Hold. unfold insertBlockRow. now rewrite Hold.
  - intros Hnone. unfold insertBlockRow. rewrite Hnone. simpl.
    apply lookup_insert_eq.
  - intros h Hne. unfold insertBlockRow.
    destruct (blocks db !! hash b); [reflexivity|]. simpl.
    apply lookup_insert_ne. congruence.
  - intros id row Hrow Hhash.
    rewrite lookup_fmap, logs_insertBlockRow, Hrow. simpl. f_equal.
    unfold setBlockTimestamp.
    now apply String.eqb_eq in Hhash as ->.
  - intros id row Hrow Hhash.
    rewrite lookup_fmap, logs_insertBlockRow, Hrow. simpl. f_equal.
    unfold setBlockTimestamp.
    now apply String.eqb_neq in Hhash as ->.
Qed.

(** ** Transactions *)

Lemma insertTransaction_lookup m t h :
  insertTransaction m t !! h
  = match m !! h with
    | Some old => Some old
    | None => if hasTxHash h t then Some t else None
    end.
Proof.
  unfold insertTransaction, hasTxHash.
  destruct (String.eqb (tx_hash t) h) eqn:E.
  - apply String.eqb_eq in E. subst h.
    destruct (m !! tx_hash t) eqn:Em; [now rewrite Em|].
    now rewrite lookup_insert_eq.
  - apply String.eqb_neq in E.
    destruct (m !! tx_hash t) eqn:Em.
    + now destruct (m !! h).
    + rewrite lookup_insert_ne by exact E. now destruct (m !! h).
Qed.

Lemma insertTransactions_fold_lookup ts : forall m h,
  List.fold_left insertTransaction ts m !! h
  = match m !! h with
    | Some old => Some old
    | None => List.find (hasTxHash h) ts
    end.
Proof.
  induction ts as [|t ts IH]; intros m h; simpl.
  - now destruct (m !! h).
  - rewrite IH, insertTransaction_lookup.
    destruct (m !! h); [reflexivity|]. now destruct (hasTxHash h t).
Qed.

Lemma insertTransactions_fold_present ts : forall m,
  (forall t, In t ts -> is_Some (m !! tx_hash t)) ->
  List.fold_left insertTransaction ts m = m.
Proof.
  induction ts as [|t ts IH]; intros m H; simpl; [reflexivity|].
  assert (Ht : insertTransaction m t = m).
  { unfold insertTransaction. destruct (H t (or_introl eq_refl)) as [r ->].
    reflexivity. }
  rewrite Ht. apply IH. intros t' Ht'. apply H. now right.
Qed.

(** X6. After [insertTransactions], [getTransaction] returns for a hash
    the transaction that was stored under it before the call if there
    was one, and otherwise the first transaction of the batch with that
    hash ([null] if there is none); every transaction of the batch can
    be read back by its hash, and running the batch again changes
    nothing. *)
Theorem insertTransactions_getTransaction db ts :
  (forall h,
      getTransaction (insertTransactions db ts) h
      = match getTransaction db h with
        | Some old => Some old
        | None => List.find (hasTxHash h) ts
        end) /\
  (forall t, In t ts ->
      exists t', getTransaction (insertTransactions db ts) (tx_hash t)
                 = Some t') /\
  insertTransactions (insertTransactions db ts) ts = insertTransactions db ts.
Proof.
  assert (Hlookup : forall h,
    getTransaction (insertTransactions db ts) h
    = match getTransaction db h with
      | Some old => Some old
      | None => List.find (hasTxHash h) ts
      end).
  { intros h. unfold getTransaction, insertTransactions. simpl.
    apply insertTransactions_fold_lookup. }
  assert (Hstored : forall t, In t ts ->
    exists t', getTransaction (insertTransactions db ts) (tx_hash t)
               = Some t').
  { intros t Ht. rewrite Hlookup.
    destruct (getTransaction db (tx_hash t)) as [old|]; [eauto|].
    destruct (List.find (hasTxHash (tx_hash t)) ts) as [t'|] eqn:Ef; [eauto|].
    apply (find_none _ _ Ef) in Ht. unfold hasTxHash in Ht.
    now rewrite String.eqb_refl in Ht. }
  split; [exact Hlookup|]. split; [exact Hstored|].
  unfold insertTransactions. simpl.
  rewrite (insertTransactions_fold_present ts
             (List.fold_left insertTransaction ts (transactions db)));
    [reflexivity|].
  intros t Ht. destruct (Hstored t Ht) as (t' & Ht'). now exists t'.
Qed.

(** ** The interval-merge write never fails on a sound merge *)

(** X2. When every interval that [merge_intervals] returns ends where
    one of the intervals it was given ends, [insertCachedInterval] does
    not throw; it leaves the logs, the blocks, the transactions, the
    contract calls and the intervals of the other contracts as they
    were, and every row of the contract it writes carries its
    address. *)
Theorem insertCachedInterval_succeeds merge db N :
  (forall l m, In m (merge l) -> In (snd m) (List.map snd l)) ->
  exists db',
    insertCachedInterval merge db N = Ok db' /\
    logs db' = logs db /\ blocks db' = blocks db /\
    transactions db' = transactions db /\
    contractCalls db' = contractCalls db /\
    (forall a, a <> contractAddress N ->
               getCachedIntervals db' a = getCachedIntervals db a) /\
    (forall row, In row (getCachedIntervals db' (contractAddress N)) ->
                 In row (cachedIntervals db')).
Proof.
  intros Hsound. destruct (insertCachedInterval merge db N) as [db'|msg] eqn:H.
  - exists db'. split; [reflexivity|].
    apply insertCachedInterval_Ok_inv in H.
    destruct H as (rows & -> & Hs & _). simpl. repeat split.
    + intros a Hne. apply getCachedIntervals_other; [exact Hne|].
      now apply sourced_address in Hs.
    + intros row Hrow. now apply getCachedIntervals_In in Hrow.
  - exfalso. apply insertCachedInterval_Err_inv in H.
    destruct H as (_ & _ & m & Hm & Hno). apply Hsound in Hm.
    rewrite List.map_app, List.map_map in Hm. simpl in Hm.
    apply in_app_or in Hm as [Hm|[Hm|[]]].
    + apply List.in_map_iff in Hm as (c & Hc & Hin).
      apply (Hno c); [now right | exact Hc].
    + apply (Hno N); [now left | exact Hm].
Qed.

(** ** Two writes in either order *)

Lemma rows_determined a L1 : forall L2,
  List.map range L1 = List.map range L2 ->
  Forall (fun r => contractAddress r = a) L1 ->
  Forall (fun r => contractAddress r = a) L2 ->
  (forall r1 r2, In r1 L1 -> In r2 L2 -> endBlock r1 = endBlock r2 ->
                 endBlockTimestamp r1 = endBlockTimestamp r2) ->
  L1 = L2.
Proof.
  induction L1 as [|r1 L1 IH]; intros [|r2 L2] Hm H1 H2 Hts;
    try discriminate; [reflexivity|].
  injection Hm as Hr Hm. inversion H1; inversion H2; subst.
  f_equal.
  - assert (Ht : endBlockTimestamp r1 = endBlockTimestamp r2).
    { apply Hts; [now left | now left |]. unfold range in Hr. congruence. }
    unfold range in Hr. destruct r1, r2; simpl in *. congruence.
  - apply IH; auto. intros x y Hx Hy. apply Hts; now right.
Qed.

Lemma two_steps_ranges db X Y c :
  contractAddress X = contractAddress Y ->
  let E := getCachedIntervals db (contractAddress X) in
  Forall rowWellFormed E -> rowWellFormed X -> rowWellFormed Y ->
  StronglySorted gap c -> Forall wellFormed c ->
  (forall n, covers c n <->
             covers (List.map range E) n \/
             startBlock X <= n <= endBlock X \/
             startBlock Y <= n <= endBlock Y) ->
  List.map range (getCachedIntervals (step (step db X) Y) (contractAddress X))
  = c.
Proof.
  intros Ha E HE HX HY Hc Wc Hcov.
  destruct (step_rows db X) as (rowsX & EX & _ & HmX). fold E in HmX.
  destruct (step_rows (step db X) Y) as (rows & Erows & _ & Hm).
  rewrite <- Ha in Erows, Hm. rewrite Erows, Hm, EX, HmX.
  assert (WE : Forall wellFormed (List.map range E ++ [range X])).
  { apply Forall_app. split; [now rewrite List.Forall_map|].
    constructor; [exact HX | constructor]. }
  apply merge_intervals_canonical_eq; try assumption.
  - apply Forall_app. split.
    + now apply merge_intervals_wellFormed.
    + constructor; [exact HY | constructor].
  - intros n.
    rewrite covers_app, merge_intervals_covers, covers_app, !covers_one
      by assumption.
    rewrite Hcov. unfold range. simpl. tauto.
Qed.

Lemma two_steps_provenance db X Y row :
  contractAddress X = contractAddress Y ->
  In row (getCachedIntervals (step (step db X) Y) (contractAddress X)) ->
  exists r,
    In r (X :: Y :: getCachedIntervals db (contractAddress X)) /\
    endBlock r = endBlock row /\
    endBlockTimestamp r = endBlockTimestamp row.
Proof.
  intros Ha Hrow.
  apply step_provenance in Hrow as [(_ & He & Ht)|(c & Hc & He & Ht)].
  - exists Y. simpl. auto.
  - apply step_provenance in Hc as [(_ & He' & Ht')|(c' & Hc' & He' & Ht')].
    + exists X. simpl. split; [tauto|]. split; congruence.
    + exists c'. simpl. split; [tauto|]. split; congruence.
Qed.

(** X1. Two interval writes for one contract give the same stored
    intervals in either order, for that contract and for every other,
    when the stored intervals of the contract and the two new ones are
    ranges and intervals that end at the same block carry the same
    timestamp. (With the [merge_intervals] modelled from the spec.) *)
Theorem insertCachedInterval_commutes db A B :
  contractAddress A = contractAddress B ->
  let E := getCachedIntervals db (contractAddress A) in
  Forall rowWellFormed E -> rowWellFormed A -> rowWellFormed B ->
  (forall r r', In r (A :: B :: E) -> In r' (A :: B :: E) ->
                endBlock r = endBlock r' ->
                endBlockTimestamp r = endBlockTimestamp r') ->
  exists dA dAB dB dBA,
    insertCachedInterval merge_intervals db A = Ok dA /\
    insertCachedInterval merge_intervals dA B = Ok dAB /\
    insertCachedInterval merge_intervals db B = Ok dB /\
    insertCachedInterval merge_intervals dB A = Ok dBA /\
    forall a, getCachedIntervals dAB a = getCachedIntervals dBA a.
Proof.
  intros Ha E HE HA HB Hts.
  destruct (insert_total db A) as (dA & H1).
  destruct (insert_total dA B) as (dAB & H2).
  destruct (insert_total db B) as (dB & H3).
  destruct (insert_total dB A) as (dBA & H4).
  exists dA, dAB, dB, dBA. repeat (split; [assumption|]).
  assert (S1 : step db A = dA) by (unfold step; now rewrite H1).
  assert (S2 : step dA B = dAB) by (unfold step; now rewrite H2).
  assert (S3 : step db B = dB) by (unfold step; now rewrite H3).
  assert (S4 : step dB A = dBA) by (unfold step; now rewrite H4).
  rewrite <- S2, <- S4, <- S1, <- S3. intros a.
  destruct (string_dec a (contractAddress A)) as [->|Hne].
  - set (c := merge_intervals
                (List.map range E ++ [range A; range B])).
    assert (WE : Forall wellFormed (List.map range E ++ [range A; range B])).
    { apply Forall_app. split; [now rewrite List.Forall_map|].
      repeat constructor; assumption. }
    assert (Hc : forall n, covers c n <->
              covers (List.map range E) n \/
              startBlock A <= n <= endBlock A \/
              startBlock B <= n <= endBlock B).
    { intros n. unfold c. rewrite merge_intervals_covers by exact WE.
      rewrite covers_app.
      change [range A; range B] with ([range A] ++ [range B]).
      rewrite covers_app, !covers_one. unfold range. simpl. tauto. }
    apply (rows_determined (contractAddress A)).
    + rewrite (two_steps_ranges db A B c); try assumption.
      * rewrite Ha.
        rewrite (two_steps_ranges db B A c); try (rewrite <- ?Ha; assumption).
        -- reflexivity.
        -- congruence.
        -- apply merge_intervals_canonical.
        -- now apply merge_intervals_wellFormed.
        -- intros n. rewrite <- Ha. rewrite Hc. tauto.
      * apply merge_intervals_canonical.
      * now apply merge_intervals_wellFormed.
    + apply List.Forall_forall. intros r Hr.
      now apply getCachedIntervals_In in Hr.
    + apply List.Forall_forall. intros r Hr.
      now apply getCachedIntervals_In in Hr.
    + intros r1 r2 Hr1 Hr2 He.
      apply (two_steps_provenance db A B r1 Ha) in Hr1
        as (x & Hx & Hxe & Hxt).
      rewrite Ha in Hr2.
      apply (two_steps_provenance db B A r2 (eq_sym Ha)) in Hr2
        as (y & Hy & Hye & Hyt).
      rewrite <- Ha in Hy. rewrite <- Hxt, <- Hyt. apply Hts.
      * exact Hx.
      * simpl in Hy |- *. tauto.
      * congruence.
  - rewrite !step_other; congruence.
Qed.

(** ** The statements on the scenarios *)

Lemma insertCachedInterval_commutes_scenario :
  exists dAB dBA,
    insertCachedInterval merge_intervals
      (step Scenarios.oneInterval (Scenarios.interval "C" 15 30 1030))
      (Scenarios.interval "C" 25 40 1040) = Ok dAB /\
    insertCachedInterval merge_intervals
      (step Scenarios.oneInterval (Scenarios.interval "C" 25 40 1040))
      (Scenarios.interval "C" 15 30 1030) = Ok dBA /\
    getCachedIntervals dAB "C" = getCachedIntervals dBA "C".
Proof.
  destruct (insertCachedInterval_commutes Scenarios.oneInterval
              (Scenarios.interval "C" 15 30 1030)
              (Scenarios.interval "C" 25 40 1040))
    as (dA & dAB & dB & dBA & H1 & H2 & H3 & H4 & H).
  - reflexivity.
  - repeat constructor; unfold rowWellFormed; cbn; lia.
  - unfold rowWellFormed. cbn. lia.
  - unfold rowWellFormed. cbn. lia.
  - intros r r' [<-|[<-|[<-|[]]]] [<-|[<-|[<-|[]]]] He;
      cbn in He |- *; try reflexivity; lia.
  - exists dAB, dBA.
    assert (SA : step Scenarios.oneInterval (Scenarios.interval "C" 15 30 1030)
                 = dA) by (unfold step; now rewrite H1).
    assert (SB : step Scenarios.oneInterval (Scenarios.interval "C" 25 40 1040)
                 = dB) by (unfold step; now rewrite H3).
    rewrite SA, SB. split; [exact H2|]. split; [exact H4 | apply H].
Defined.

Lemma insertCachedInterval_succeeds_scenario :
  exists db',
    insertCachedInterval merge_intervals Scenarios.twoIntervals
      (Scenarios.interval "C" 21 29 1029) = Ok db' /\
    getCachedIntervals db' "D" = [Scenarios.interval "D" 1 5 1005].
Proof.
  destruct (insertCachedInterval_succeeds merge_intervals
              Scenarios.twoIntervals (Scenarios.interval "C" 21 29 1029))
    as (db' & H & _ & _ & _ & _ & Hother & _).
  - intros l m. apply merge_intervals_snd.
  - exists db'. split; [exact H|]. rewrite Hother; [reflexivity | discriminate].
Defined.

Lemma log_visible_once_block_inserted_scenario :
  In (storedLog (Scenarios.logRow "L1" "0xB1" 5) (Some 1005))
    (getLogs
       (insertBlock (insertLogs migrate [Scenarios.logRow "L1" "0xB1" 5])
          (Scenarios.blockRow "0xB1" 5 1005))
       "0xC" 1000 1005 None).
Proof.
  destruct (log_visible_once_block_inserted migrate
              (Scenarios.logRow "L1" "0xB1" 5)
              (Scenarios.blockRow "0xB1" 5 1005))
    as (_ & _ & H & _).
  - reflexivity.
  - reflexivity.
  - apply (H 1000 1005). cbn. lia.
Defined.

Lemma insertBlock_keeps_first_row_scenario :
  getBlock
    (insertBlock (insertBlock migrate (Scenarios.blockRow "0xB1" 5 1005))
       (Scenarios.blockRow "0xB1" 5 2000)) "0xB1"
  = Some (Scenarios.blockRow "0xB1" 5 1005).
Proof.
  destruct (insertBlock_keeps_first_row
              (insertBlock migrate (Scenarios.blockRow "0xB1" 5 1005))
              (Scenarios.blockRow "0xB1" 5 2000)) as (H & _).
  apply H. reflexivity.
Defined.

Lemma insertTransactions_getTransaction_scenario :
  exists t',
    getTransaction
      (insertTransactions migrate
         [Scenarios.txRow "0xT1" 1; Scenarios.txRow "0xT1" 2]) "0xT1"
    = Some t'.
Proof.
  destruct (insertTransactions_getTransaction migrate
              [Scenarios.txRow "0xT1" 1; Scenarios.txRow "0xT1" 2])
    as (_ & H & _).
  apply (H (Scenarios.txRow "0xT1" 2)). right. now left.
Defined.

(** A block inserted twice with two timestamps: the row keeps the
    first, the log takes the second. *)
Example stale_block_row :
  let db :=
    insertBlock
      (insertBlock (insertLogs migrate [Scenarios.logRow "L1" "0xB1" 5])
         (Scenarios.blockRow "0xB1" 5 1005))
      (Scenarios.blockRow "0xB1" 5 2000) in
  option_map timestamp (getBlock db "0xB1") = Some 1005 /\
  option_map blockTimestamp (logs db !! "L1"%string) = Some (Some 2000).
Proof. vm_compute. split; reflexivity. Qed.

(** With two transactions of one hash in a batch, the first is kept. *)
Example first_transaction_kept :
  getTransaction
    (insertTransactions migrate
       [Scenarios.txRow "0xT1" 1; Scenarios.txRow "0xT1" 2]) "0xT1"
  = Some (Scenarios.txRow "0xT1" 1).
Proof. vm_compute. reflexivity. Qed.

End CacheStoreExtra.

(** * More about the realtime sync service *)

Module RealtimeSyncExtra.

Import RealtimeSync RealtimeSyncFacts.
Local Open Scope Z_scope.

Definition isEmitted (e : Effect) : Prop :=
  match e with
  | Emitted _ => True
  | _ => False
  end.

Definition isRequest (e : Effect) : Prop :=
  match e with
  | Requested _ => True
  | _ => False
  end.

(** The local chain from number [n] up: one block per number, each the
    parent of the next. *)
Fixpoint chained (n : Z) (l : list Light.t) : Prop :=
  match l with
  | [] => True
  | b :: l' =>
      Light.number b = n /\
      match l' with
      | [] => True
      | b' :: _ => Light.parentHash b' = Light.hash b
      end /\
      chained (n + 1) l'
  end.

Lemma chained_numbers l : forall n b,
  chained n l -> In b l -> n <= Light.number b.
Proof.
  induction l as [|x l IH]; intros n b Hl Hb; [destruct Hb|].
  destruct Hl as (Hx & _ & Hl). destruct Hb as [<-|Hb]; [lia|].
  specialize (IH _ _ Hl Hb). lia.
Qed.

Lemma chained_keep_from l : forall n k,
  chained n l -> n <= k ->
  chained k (List.filter (fun b => Light.number b >=? k) l).
Proof.
  induction l as [|x l IH]; intros n k Hl Hk; [exact I|].
  destruct Hl as (Hx & Hlink & Hl). simpl.
  destruct (Light.number x >=? k) eqn:E.
  - apply Z.geb_le in E. assert (k = n) as -> by lia.
    rewrite CacheStoreFacts.filter_all.
    + simpl. auto.
    + intros b Hb. apply Z.geb_le.
      pose proof (chained_numbers _ _ _ Hl Hb). lia.
  - rewrite Z.geb_leb in E. apply Z.leb_gt in E.
    apply (IH (n + 1)); [exact Hl | lia].
Qed.

Lemma chained_keep_upto l : forall n k,
  chained n l ->
  chained n (List.filter (fun b => Light.number b <=? k) l).
Proof.
  induction l as [|x l IH]; intros n k Hl; [exact I|].
  destruct Hl as (Hx & Hlink & Hl). simpl.
  destruct (Light.number x <=? k) eqn:E.
  - apply Z.leb_le in E. simpl. split; [exact Hx|].
    split; [|now apply IH].
    destruct l as [|y l]; [exact I|]. simpl.
    destruct (Light.number y <=? k) eqn:Ey; [exact Hlink|].
    rewrite CacheStoreFacts.filter_none; [exact I|].
    intros b Hb. apply Z.leb_gt in Ey. apply Z.leb_gt.
    pose proof (chained_numbers _ _ _ Hl (or_intror Hb)).
    destruct Hl as (Hy & _). lia.
  - apply Z.leb_gt in E. rewrite CacheStoreFacts.filter_none; [exact I|].
    intros b Hb. apply Z.leb_gt.
    pose proof (chained_numbers _ _ _ Hl Hb). lia.
Qed.

Lemma chained_snoc l : forall n H B,
  chained n l -> last l = Some H ->
  Light.number B = Light.number H + 1 ->
  Light.parentHash B = Light.hash H ->
  chained n (l ++ [B]).
Proof.
  induction l as [|x l IH]; intros n H B Hl Hlast Hnum Hparent;
    [discriminate|].
  destruct Hl as (Hx & Hlink & Hl). destruct l as [|y l].
  - injection Hlast as <-. simpl. repeat split; auto; lia.
  - simpl app. split; [exact Hx|]. split; [exact Hlink|].
    apply (IH (n + 1) H B); assumption.
Qed.

Section More.

Context {W : Type}.
Variable env : Environment W.
Variable logFilters : list LogFilter.
Variable network : Network.
Variable isMatchedLogInBloomFilter :
  string -> list LogFilterCriteria -> bool.
Variable filterLogs :
  list Log.t -> list LogFilterCriteria -> list Log.t.

Local Abbreviation worker :=
  (blockTaskWorker env logFilters network isMatchedLogInBloomFilter
     filterLogs).
Local Abbreviation matching :=
  (matchLogs env logFilters network isMatchedLogInBloomFilter filterLogs).
Local Abbreviation finality := (advanceFinality env logFilters network).
Local Abbreviation extending :=
  (extend env logFilters network isMatchedLogInBloomFilter filterLogs).
Local Abbreviation reconciling := (reconcile env network).
Local Abbreviation filling := (fill env).
Local Abbreviation keys := (logFilterKeys logFilters).

(** ** How each part of the worker ends *)

Lemma extending_thrown block newBlock s msg s1 :
  matching block newBlock s = (Thrown msg, s1) ->
  extending block newBlock s = (Thrown msg, s1).
Proof. intros H. unfold extend, bind. now rewrite H. Qed.

Lemma matching_not_running block newBlock s :
  fst (matching block newBlock s) <> Running.
Proof.
  unfold matchLogs.
  destruct (isMatchedLogInBloomFilter _ _); [|discriminate].
  unfold bind, request_getLogs, answer.
  destruct (getLogs env (world s) (Light.hash newBlock)) as [w [logs|msg]];
    simpl; [|discriminate].
  destruct (Z.of_nat (length (filterLogs logs _)) >? 0); [|discriminate].
  unfold call, answer. simpl.
  destruct (eventStore env w _) as [w2 [[]|msg]]; simpl; discriminate.
Qed.

Lemma matching_emits_nothing block newBlock s :
  exists new,
    trace (snd (matching block newBlock s)) = trace s ++ new /\
    Forall (fun e => ~ isEmitted e) new.
Proof.
  unfold matchLogs.
  destruct (isMatchedLogInBloomFilter _ _);
    [|exists []; simpl; now rewrite app_nil_r].
  unfold bind, request_getLogs, answer.
  destruct (getLogs env (world s) (Light.hash newBlock)) as [w [logs|msg]];
    simpl; [|eexists; split; [reflexivity | repeat constructor; auto]].
  destruct (Z.of_nat (length (filterLogs logs _)) >? 0).
  - unfold call, answer. simpl.
    destruct (eventStore env w _) as [w2 [[]|msg]]; simpl;
      rewrite <- app_assoc; eexists;
      (split; [reflexivity | repeat constructor; auto]).
  - simpl. eexists. split; [reflexivity | repeat constructor; auto].
Qed.

(** The four ways [advanceFinality] ends. *)
Lemma advanceFinality_shape newBlock s :
  (Light.number newBlock
     <= finalizedBlockNumber s + 2 * finalityBlockCount network /\
   finality newBlock s = (Done tt, s)) \/
  (Light.number newBlock
     > finalizedBlockNumber s + 2 * finalityBlockCount network /\
   List.find (atNewFinality network s) (blocks s) = None /\
   finality newBlock s
   = (Thrown "TypeError: newFinalizedBlock is undefined", s)) \/
  (exists F,
     Light.number newBlock
       > finalizedBlockNumber s + 2 * finalityBlockCount network /\
     List.find (atNewFinality network s) (blocks s) = Some F /\
     blocks (snd (finality newBlock s))
     = List.filter (fun b => Light.number b >=? Light.number F) (blocks s) /\
     queue (snd (finality newBlock s)) = queue s /\
     ((fst (finality newBlock s) = Done tt /\
       finalizedBlockNumber (snd (finality newBlock s)) = Light.number F /\
       trace (snd (finality newBlock s))
       = trace s ++
           [Called (insertLogFilterCachedRanges keys
                      (finalizedBlockNumber s + 1) (Light.number F)
                      (Light.timestamp F));
            Emitted (finalityCheckpoint (Light.timestamp F))]) \/
      (exists msg,
         fst (finality newBlock s) = Thrown msg /\
         finalizedBlockNumber (snd (finality newBlock s))
         = finalizedBlockNumber s /\
         trace (snd (finality newBlock s))
         = trace s ++
             [Called (insertLogFilterCachedRanges keys
                        (finalizedBlockNumber s + 1) (Light.number F)
                        (Light.timestamp F))]))).
Proof.
  unfold advanceFinality, bind, get.
  destruct (Light.number newBlock >? _) eqn:Hdepth.
  - apply Z.gtb_lt, Z.lt_gt in Hdepth. right.
    fold (atNewFinality network s).
    destruct (List.find (atNewFinality network s) (blocks s)) as [F|] eqn:HF.
    + right. exists F. split; [exact Hdepth|]. split; [reflexivity|].
      unfold modify, call, answer, emit. cbn [world set_stats set_blocks].
      fold keys.
      destruct (eventStore env (world s) _) as [w2 [[]|msg]];
        cbn [fst snd blocks queue trace finalizedBlockNumber observe
             set_finalizedBlockNumber set_stats set_blocks].
      * split; [reflexivity|]. split; [reflexivity|]. left.
        rewrite <- app_assoc. auto.
      * split; [reflexivity|]. split; [reflexivity|]. right.
        exists msg. auto.
    + left. auto.
  - rewrite Z.gtb_ltb, Z.ltb_ge in Hdepth. left. auto.
Qed.

Lemma fetchBlocks_frame numbers : forall s out s',
  fetchBlocks env numbers s = (out, s') ->
  blocks s' = blocks s /\
  finalizedBlockNumber s' = finalizedBlockNumber s /\
  queue s' = queue s /\
  out <> Running /\
  exists requests,
    trace s' = trace s ++ requests /\
    Forall isRequest requests /\
    forall missing,
      out = Done missing ->
      length missing = length numbers /\
      requests
      = List.map
          (fun n => Requested (eth_getBlockByNumber (atNumber n) true))
          numbers.
Proof.
  induction numbers as [|n numbers IH]; intros s out s'; simpl.
  - intros [= <- <-]. do 3 (split; [reflexivity|]).
    split; [discriminate|]. exists [].
    rewrite app_nil_r. split; [reflexivity|]. split; [constructor|].
    now intros missing [= <-].
  - unfold bind at 1, request_getBlockByNumber, answer.
    destruct (getBlockByNumber env (world s) (atNumber n) true)
      as [w [[b|]|msg]]; cbn [fst snd].
    + unfold bind.
      destruct (fetchBlocks env numbers _) as [o s1] eqn:E.
      destruct (IH _ _ _ E)
        as (Hb & Hf & Hq & Hrun & requests & Ht & Hr & Hdone).
      simpl in Hb, Hf, Hq, Ht. rewrite <- app_assoc in Ht.
      destruct o as [others|msg|]; [| |now destruct Hrun];
        unfold ret; intros [= <- <-];
        (split; [exact Hb|]); (split; [exact Hf|]); (split; [exact Hq|]);
        (split; [discriminate|]);
        eexists; (split; [exact Ht|]);
        (split; [constructor; [exact I | exact Hr]|]).
      * intros missing [= <-]. destruct (Hdone others eq_refl) as [Hl ->].
        simpl. auto.
      * discriminate.
    + unfold throw. intros [= <- <-]. simpl.
      do 3 (split; [reflexivity|]). split; [discriminate|]. eexists.
      split; [reflexivity|]. split; [repeat constructor | discriminate].
    + intros [= <- <-]. simpl.
      do 3 (split; [reflexivity|]). split; [discriminate|]. eexists.
      split; [reflexivity|]. split; [repeat constructor | discriminate].
Qed.

(** However the reorg loop ends, it leaves [finalizedBlockNumber] and
    either leaves the local chain or cuts it at a block of the chain. *)
Lemma reconcile_shape fuel : forall newBlock canonical cursor depth s out s',
  reconciling fuel newBlock canonical cursor depth s = (out, s') ->
  finalizedBlockNumber s' = finalizedBlockNumber s /\
  (blocks s' = blocks s \/
   exists A,
     In A (blocks s) /\
     blocks s'
     = List.filter (fun b => Light.number b <=? Light.number A) (blocks s)).
Proof.
  induction fuel as [|fuel IH]; intros newBlock canonical cursor depth s out s';
    simpl.
  - intros [= <- <-]. auto.
  - unfold bind at 1, get at 1.
    destruct (Light.number cursor >? finalizedBlockNumber s).
    + destruct (List.find _ (blocks s)) as [A|] eqn:Hfind.
      * apply find_some in Hfind as [HA _].
        unfold bind at 1, modify at 1.
        unfold bind at 1, call at 1, answer at 1. cbn [world set_blocks].
        destruct (eventStore env (world s) _) as [w2 [[]|msg]]; cbn [fst snd].
        -- unfold bind at 1, clear at 1, modify at 1.
           unfold bind at 1. rewrite addTasks_eq.
           unfold bind at 1, addNewLatestBlock, getLatestBlock.
           unfold bind at 1 2, request_getBlockByNumber, answer.
           cbn [world set_queue observe set_blocks].
           destruct (getBlockByNumber env w2 latest true)
             as [w3 [[b|]|msg]]; cbn [fst snd];
             unfold ret, throw, addTask, modify, emit;
             intros [= <- <-]; simpl; eauto.
        -- intros [= <- <-]. simpl. eauto.
      * unfold bind at 1, request_getBlockByHash at 1, answer at 1.
        destruct (getBlockByHash env (world s) _ true)
          as [w1 [[parent|]|msg]]; cbn [fst snd].
        -- intros H. apply IH in H. exact H.
        -- intros [= <- <-]. auto.
        -- intros [= <- <-]. auto.
    + unfold emit. intros [= <- <-]. auto.
Qed.

(** What a block task may do to the local chain and to
    [finalizedBlockNumber], however it ends. *)
Inductive chainStep (s : Service W) (out : outcome unit) (s' : Service W)
  : Prop :=
| chain_kept :
    blocks s' = blocks s ->
    finalizedBlockNumber s' = finalizedBlockNumber s ->
    chainStep s out s'
| chain_extended block H :
    last (blocks s) = Some H ->
    Light.number block = Light.number H + 1 ->
    Light.parentHash block = Light.hash H ->
    blocks s' = blocks s ++ [block] ->
    finalizedBlockNumber s' = finalizedBlockNumber s ->
    chainStep s out s'
| chain_finalized block H F :
    last (blocks s) = Some H ->
    Light.number block = Light.number H + 1 ->
    Light.parentHash block = Light.hash H ->
    In F (blocks s ++ [block]) ->
    Light.number F = finalizedBlockNumber s + finalityBlockCount network ->
    Light.number block
      > finalizedBlockNumber s + 2 * finalityBlockCount network ->
    blocks s'
    = List.filter (fun b => Light.number b >=? Light.number F)
        (blocks s ++ [block]) ->
    (out = Done tt /\ finalizedBlockNumber s' = Light.number F \/
     (exists msg, out = Thrown msg) /\
     finalizedBlockNumber s' = finalizedBlockNumber s) ->
    chainStep s out s'
| chain_cut A :
    In A (blocks s) ->
    blocks s'
    = List.filter (fun b => Light.number b <=? Light.number A) (blocks s) ->
    finalizedBlockNumber s' = finalizedBlockNumber s ->
    chainStep s out s'.

Lemma worker_chainStep fuel block s out s' :
  worker fuel block s = (out, s') -> chainStep s out s'.
Proof.
  unfold blockTaskWorker, bind at 1, get at 1.
  destruct (List.find _ (blocks s)) as [dup|] eqn:Hdup.
  { intros [= <- <-]. now apply chain_kept. }
  destruct (last (blocks s)) as [H|] eqn:Hlast.
  2: { intros [= <- <-]. now apply chain_kept. }
  destruct ((Light.number (rpcBlockToLightBlock block)
               =? Light.number H + 1)
            && String.eqb (Light.parentHash (rpcBlockToLightBlock block))
                 (Light.hash H)) eqn:Hhead.
  - apply andb_true_iff in Hhead as [Hnum Hparent].
    apply Z.eqb_eq in Hnum. apply String.eqb_eq in Hparent.
    destruct (matching block (rpcBlockToLightBlock block) s)
      as [[count|msg|] s1] eqn:Hmatch.
    + destruct (matching_frame _ _ _ _ _ _ _ _ _ _ Hmatch)
        as (Hb & Hf & _ & _).
      rewrite (extending_eq _ _ _ _ _ _ _ _ _ _ Hmatch).
      set (s2 := set_stats _ _).
      assert (Hb2 : blocks s2 = blocks s ++ [rpcBlockToLightBlock block])
        by (unfold s2; simpl; now rewrite Hb).
      assert (Hf2 : finalizedBlockNumber s2 = finalizedBlockNumber s)
        by (unfold s2; simpl; exact Hf).
      destruct (advanceFinality_shape (rpcBlockToLightBlock block) s2)
        as [[_ Hr]|[(_ & _ & Hr)|(F & Hdepth & HF & Hblocks & _ & Hend)]].
      * rewrite Hr. intros [= <- <-].
        now apply (chain_extended _ _ _ (rpcBlockToLightBlock block) H).
      * rewrite Hr. intros [= <- <-].
        now apply (chain_extended _ _ _ (rpcBlockToLightBlock block) H).
      * intros Hrun. rewrite Hrun in Hblocks, Hend.
        cbn [fst snd] in Hblocks, Hend.
        apply find_some in HF as [HinF HnumF].
        unfold atNewFinality in HnumF. apply Z.eqb_eq in HnumF.
        rewrite Hf2 in HnumF, Hdepth. rewrite Hb2 in HinF, Hblocks.
        apply (chain_finalized _ _ _ (rpcBlockToLightBlock block) H F);
          try assumption.
        destruct Hend as [(Ho & Hfin & _)|(msg & Ho & Hfin & _)];
          [left; auto|].
        right. rewrite Hf2 in Hfin. eauto.
    + rewrite (extending_thrown _ _ _ _ _ Hmatch). intros [= <- <-].
      destruct (matching_frame _ _ _ _ _ _ _ _ _ _ Hmatch)
        as (Hb & Hf & _ & _).
      now apply chain_kept.
    + exfalso.
      apply (matching_not_running block (rpcBlockToLightBlock block) s).
      now rewrite Hmatch.
  - destruct (Light.number (rpcBlockToLightBlock block)
                >? Light.number H + 1).
    + unfold fill, bind.
      destruct (fetchBlocks env _ s) as [o s1] eqn:Hfetch.
      destruct (fetchBlocks_frame _ _ _ _ Hfetch) as (Hb & Hf & _).
      destruct o as [missing|msg|].
      * rewrite addTasks_eq. intros [= <- <-]. now apply chain_kept.
      * intros [= <- <-]. now apply chain_kept.
      * intros [= <- <-]. now apply chain_kept.
    + intros Hrun. apply reconcile_shape in Hrun as [Hf [Hb|(A & HA & Hb)]].
      * now apply chain_kept.
      * now apply (chain_cut _ _ _ A).
Qed.

(** ** Invariants of the block task *)

(** X11. However a block task ends, [finalizedBlockNumber] is what it
    was or has grown by [finalityBlockCount]; with a non-negative
    [finalityBlockCount] it never decreases. *)
Theorem finalizedBlockNumber_steps fuel block s out s' :
  blockTaskWorker env logFilters network isMatchedLogInBloomFilter
    filterLogs fuel block s = (out, s') ->
  (finalizedBlockNumber s' = finalizedBlockNumber s \/
   finalizedBlockNumber s'
   = finalizedBlockNumber s + finalityBlockCount network) /\
  (0 <= finalityBlockCount network ->
   finalizedBlockNumber s <= finalizedBlockNumber s').
Proof.
  intros Hrun.
  apply worker_chainStep in Hrun.
  assert (H : finalizedBlockNumber s' = finalizedBlockNumber s \/
              finalizedBlockNumber s'
              = finalizedBlockNumber s + finalityBlockCount network).
  { destruct Hrun as [? Hf|? ? ? ? ? ? Hf|? ? F ? ? ? ? HF ? ? Hf|? ? ? Hf];
      auto.
    destruct Hf as [[_ Hf]|[_ Hf]]; [right; congruence | now left]. }
  split; [exact H|]. intros Hcount. destruct H as [->| ->]; lia.
Qed.

Lemma filter_keeps {A : Type} (p : A -> bool) l x :
  In x l -> p x = true -> List.filter p l <> [].
Proof.
  intros Hx Hp Hnil. assert (Hin : In x (List.filter p l))
    by (apply filter_In; auto).
  rewrite Hnil in Hin. destruct Hin.
Qed.

(** X12. A block task keeps the local chain a chain: if its blocks were
    numbered one by one, each the parent of the next, they still are
    however the task ends, and a chain that was not empty is not empty;
    and when the chain started at [finalizedBlockNumber] and the task
    returns, the chain starts at the new [finalizedBlockNumber]. *)
Theorem localChain_stays_chained fuel block s n :
  chained n (blocks s) ->
  (exists n', chained n' (blocks (snd (worker fuel block s)))) /\
  (blocks s <> [] -> blocks (snd (worker fuel block s)) <> []) /\
  (n = finalizedBlockNumber s ->
   fst (worker fuel block s) = Done tt ->
   chained (finalizedBlockNumber (snd (worker fuel block s)))
     (blocks (snd (worker fuel block s)))).
Proof.
  intros Hchain.
  destruct (worker fuel block s) as [out s'] eqn:Hrun. simpl.
  apply worker_chainStep in Hrun.
  destruct Hrun as [Hb Hf
                   |B H Hlast Hnum Hparent Hb Hf
                   |B H F Hlast Hnum Hparent HF HnumF Hdepth Hb Hf
                   |A HA Hb Hf].
  - rewrite Hb, Hf. repeat split; eauto. now intros ->.
  - pose proof (chained_snoc _ _ _ _ Hchain Hlast Hnum Hparent) as Hc.
    rewrite Hb, Hf. repeat split; eauto.
    + intros _. now destruct (blocks s).
    + now intros ->.
  - pose proof (chained_snoc _ _ _ _ Hchain Hlast Hnum Hparent) as Hc.
    pose proof (chained_numbers _ _ _ Hc HF) as Hle.
    pose proof (chained_keep_from _ _ _ Hc Hle) as Hk.
    rewrite Hb. repeat split; eauto.
    + intros _. apply (filter_keeps _ _ F); [exact HF|].
      apply Z.geb_le. lia.
    + intros -> Hdone. destruct Hf as [[_ ->]|[(msg & ->) _]];
        [exact Hk | discriminate].
  - rewrite Hb, Hf. repeat split.
    + exists n. now apply chained_keep_upto.
    + intros _. apply (filter_keeps _ _ A); [exact HA|].
      apply Z.leb_le. lia.
    + intros -> _. now apply chained_keep_upto.
Qed.

(** ** Blocks already seen *)

Lemma find_sameHash_In h l b :
  In b l -> Light.hash b = h ->
  exists b', List.find (sameHash h) l = Some b'.
Proof.
  intros Hb Hh. destruct (List.find (sameHash h) l) as [b'|] eqn:E; [eauto|].
  apply (find_none _ _ E) in Hb. unfold sameHash in Hb.
  rewrite Hh, String.eqb_refl in Hb. discriminate.
Qed.

Lemma last_In {A : Type} (l : list A) x : last l = Some x -> In x l.
Proof.
  induction l as [|y l IH]; [discriminate|].
  destruct l as [|z l]; [intros [= <-]; now left|].
  intros H. right. now apply IH.
Qed.

Lemma seen_block s fuel block b :
  In b (blocks s) -> Light.hash b = Block.hash block ->
  worker fuel block s = (Done tt, s).
Proof.
  intros Hb Hh. unfold blockTaskWorker, bind, get.
  destruct (find_sameHash_In (Block.hash block) _ _ Hb Hh) as (b' & Hfind).
  simpl. now rewrite Hfind.
Qed.

Lemma newHead_done_last fuel s block s' :
  isNewHead s block ->
  0 <= finalityBlockCount network ->
  worker fuel block s = (Done tt, s') ->
  last (blocks s') = Some (rpcBlockToLightBlock block).
Proof.
  intros Hhead Hcount. rewrite (worker_newHead _ _ _ _ _ _ _ _ Hhead).
  destruct (matching block (rpcBlockToLightBlock block) s)
    as [[count|msg|] s1] eqn:Hmatch.
  - rewrite (extending_eq _ _ _ _ _ _ _ _ _ _ Hmatch).
    set (s2 := set_stats _ _).
    destruct (advanceFinality_shape (rpcBlockToLightBlock block) s2)
      as [[_ Hr]|[(_ & _ & Hr)|(F & Hdepth & HF & Hblocks & _)]].
    + rewrite Hr. intros [= <-]. unfold s2. simpl. apply last_snoc.
    + rewrite Hr. discriminate.
    + intros Hrun. rewrite Hrun in Hblocks. cbn [snd] in Hblocks.
      rewrite Hblocks. unfold s2. cbn [blocks set_stats set_blocks observe].
      apply filter_snoc_last. apply find_some in HF as [_ HF].
      unfold atNewFinality in HF. apply Z.eqb_eq in HF.
      apply Z.geb_le. lia.
  - rewrite (extending_thrown _ _ _ _ _ Hmatch). discriminate.
  - exfalso.
    apply (matching_not_running block (rpcBlockToLightBlock block) s).
    now rewrite Hmatch.
Qed.

(** X9. A block whose hash is in the local chain is a no-op: the task
    returns and the service is untouched, nothing requested, stored or
    emitted. In particular, with a non-negative [finalityBlockCount], a
    new head block that was processed is a no-op when it comes
    again. *)
Theorem seen_block_is_noop fuel s block :
  (forall b, In b (blocks s) -> Light.hash b = Block.hash block ->
             worker fuel block s = (Done tt, s)) /\
  (forall fuel' s',
      isNewHead s block ->
      0 <= finalityBlockCount network ->
      worker fuel block s = (Done tt, s') ->
      worker fuel' block s' = (Done tt, s')).
Proof.
  split.
  - intros b. apply seen_block.
  - intros fuel' s' Hhead Hcount Hrun.
    apply (seen_block s' fuel' block (rpcBlockToLightBlock block));
      [|reflexivity].
    apply last_In. eapply newHead_done_last; eassumption.
Qed.

(** ** Missing blocks *)




(** ** The logs of a new head block *)

(** The transactions handed to the store with the matched logs. *)
Definition requiredTransactions (block : Block.t) (matched : list Log.t)
  : list Tx.t :=
  List.filter
    (fun t =>
       List.existsb (String.eqb (Tx.hash t))
         (List.map Log.transactionHash matched))
    (Block.transactions block).

Lemma requiredTransactions_In block matched t :
  In t (requiredTransactions block matched) <->
  In t (Block.transactions block) /\
  exists l, In l matched /\ Log.transactionHash l = Tx.hash t.
Proof.
  unfold requiredTransactions. rewrite filter_In, existsb_exists.
  split; intros [Ht Hl]; (split; [exact Ht|]).
  - destruct Hl as (h & Hh & Heq). apply String.eqb_eq in Heq.
    apply List.in_map_iff in Hh as (l & <- & Hl). eauto.
  - destruct Hl as (l & Hl & Heq). exists (Log.transactionHash l).
    split; [now apply in_map|]. rewrite Heq. apply String.eqb_refl.
Qed.

Lemma matching_matched block newBlock s w1 logs w2 answer_ :
  isMatchedLogInBloomFilter (Block.logsBloom block)
    (List.map filter logFilters) = true ->
  getLogs env (world s) (Light.hash newBlock) = (w1, Ok logs) ->
  filterLogs logs (List.map filter logFilters) <> [] ->
  eventStore env w1
    (insertRealtimeBlock (chainId network) block
       (requiredTransactions block
          (filterLogs logs (List.map filter logFilters)))
       (filterLogs logs (List.map filter logFilters)))
  = (w2, answer_) ->
  matching block newBlock s
  = (match answer_ with
     | Ok _ =>
         Done (Z.of_nat
                 (length (filterLogs logs (List.map filter logFilters))))
     | Err msg => Thrown msg
     end,
     observe w2
       (Called
          (insertRealtimeBlock (chainId network) block
             (requiredTransactions block
                (filterLogs logs (List.map filter logFilters)))
             (filterLogs logs (List.map filter logFilters))))
       (observe w1 (Requested (eth_getLogs (Light.hash newBlock))) s)).
Proof.
  intros Hbloom Hlogs Hmatched Hstore. unfold matchLogs. rewrite Hbloom.
  unfold bind at 1, request_getLogs, answer. rewrite Hlogs. cbn [fst snd].
  fold (requiredTransactions block
          (filterLogs logs (List.map filter logFilters))).
  destruct (filterLogs logs (List.map filter logFilters)) as [|l ls] eqn:E;
    [contradiction|].
  replace (Z.of_nat (length (l :: ls)) >? 0) with true
    by (symmetry; apply Z.gtb_lt; simpl; lia).
  unfold bind, ret, call, answer. cbn [world observe]. rewrite Hstore.
  now destruct answer_ as [[]|msg].
Qed.

(** X13. A new head block with matched logs: right after the logs are
    fetched, the store is asked once to insert the block with the
    matched logs and with the transactions of the block that a matched
    log refers to (those and no others), then [realtimeCheckpoint] is
    emitted; the block is not inserted a second time. *)
Theorem matched_logs_inserted fuel s block w1 logs w2 :
  isNewHead s block ->
  isMatchedLogInBloomFilter (Block.logsBloom block)
    (List.map filter logFilters) = true ->
  getLogs env (world s) (Block.hash block) = (w1, Ok logs) ->
  filterLogs logs (List.map filter logFilters) <> [] ->
  let matched := filterLogs logs (List.map filter logFilters) in
  eventStore env w1
    (insertRealtimeBlock (chainId network) block
       (requiredTransactions block matched) matched) = (w2, Ok tt) ->
  (exists rest,
      trace (snd (worker fuel block s))
      = trace s ++
          Requested (eth_getLogs (Block.hash block)) ::
          Called (insertRealtimeBlock (chainId network) block
                    (requiredTransactions block matched) matched) ::
          Emitted (realtimeCheckpoint (Block.timestamp block)) :: rest /\
      Forall writesNoBlock rest) /\
  (forall t,
      In t (requiredTransactions block matched) <->
      In t (Block.transactions block) /\
      exists l, In l matched /\ Log.transactionHash l = Tx.hash t).
Proof.
  intros Hhead Hbloom Hlogs Hmatched matched Hstore.
  split; [|intros t; apply requiredTransactions_In].
  pose proof (matching_matched block (rpcBlockToLightBlock block) s w1 logs
                w2 (Ok tt) Hbloom Hlogs Hmatched Hstore) as Hmatch.
  cbn match in Hmatch.
  rewrite (worker_newHead _ _ _ _ _ _ _ _ Hhead),
    (extending_eq _ _ _ _ _ _ _ _ _ _ Hmatch).
  set (s2 := set_stats _ _).
  destruct (advanceFinality_frame env logFilters network
              (rpcBlockToLightBlock block) s2)
    as (rest & Htrace & Hrest & _).
  exists rest. split; [|exact Hrest].
  rewrite Htrace. unfold s2. simpl. now rewrite <- !app_assoc.
Qed.

(** X14. When the logs of a new head block cannot be processed, because
    the [eth_getLogs] request is rejected or because the store rejects
    the insertion of the block, the task throws with that error and the
    service holds what it held: the block is not in the local chain,
    nothing is queued, no checkpoint is emitted. *)
Theorem failed_logs_leave_chain fuel s block :
  isNewHead s block ->
  isMatchedLogInBloomFilter (Block.logsBloom block)
    (List.map filter logFilters) = true ->
  (forall w1 msg,
      getLogs env (world s) (Block.hash block) = (w1, Err msg) ->
      worker fuel block s
      = (Thrown msg,
         observe w1 (Requested (eth_getLogs (Block.hash block))) s)) /\
  (forall w1 logs w2 msg,
      getLogs env (world s) (Block.hash block) = (w1, Ok logs) ->
      filterLogs logs (List.map filter logFilters) <> [] ->
      let matched := filterLogs logs (List.map filter logFilters) in
      eventStore env w1
        (insertRealtimeBlock (chainId network) block
           (requiredTransactions block matched) matched) = (w2, Err msg) ->
      worker fuel block s
      = (Thrown msg,
         observe w2
           (Called (insertRealtimeBlock (chainId network) block
                      (requiredTransactions block matched) matched))
           (observe w1 (Requested (eth_getLogs (Block.hash block))) s))).
Proof.
  intros Hhead Hbloom. rewrite (worker_newHead _ _ _ _ _ _ _ _ Hhead). split.
  - intros w1 msg Hlogs. apply extending_thrown.
    unfold matchLogs. rewrite Hbloom.
    unfold bind, request_getLogs, answer.
    cbn [rpcBlockToLightBlock Light.hash]. now rewrite Hlogs.
  - intros w1 logs w2 msg Hlogs Hmatched matched Hstore.
    apply extending_thrown.
    apply (matching_matched block (rpcBlockToLightBlock block) s w1 logs
             w2 (Err msg) Hbloom Hlogs Hmatched Hstore).
Qed.

(** X17. A new head block that should move the finality checkpoint
    while no local block has number [finalizedBlockNumber +
    finalityBlockCount]: the task throws after it emitted
    [realtimeCheckpoint] and put the block in the local chain;
    [finalizedBlockNumber] stays and the store is not asked to record a
    range. *)
Theorem missing_finalized_block_throws fuel s block matchedLogCount s1 :
  isNewHead s block ->
  matching block (rpcBlockToLightBlock block) s
    = (Done matchedLogCount, s1) ->
  Block.number block
    > finalizedBlockNumber s + 2 * finalityBlockCount network ->
  List.find (atNewFinality network s)
    (blocks s ++ [rpcBlockToLightBlock block]) = None ->
  exists msg s',
    worker fuel block s = (Thrown msg, s') /\
    blocks s' = blocks s ++ [rpcBlockToLightBlock block] /\
    finalizedBlockNumber s' = finalizedBlockNumber s /\
    trace s'
    = trace s1 ++ [Emitted (realtimeCheckpoint (Block.timestamp block))].
Proof.
  intros Hhead Hmatch Hdepth Hfind.
  rewrite (worker_newHead _ _ _ _ _ _ _ _ Hhead),
    (extending_eq _ _ _ _ _ _ _ _ _ _ Hmatch).
  destruct (matching_frame _ _ _ _ _ _ _ _ _ _ Hmatch) as (Hb & Hf & _ & _).
  set (s2 := set_stats _ _).
  assert (Hb2 : blocks s2 = blocks s ++ [rpcBlockToLightBlock block])
    by (unfold s2; simpl; now rewrite Hb).
  assert (Hf2 : finalizedBlockNumber s2 = finalizedBlockNumber s)
    by (unfold s2; simpl; exact Hf).
  destruct (advanceFinality_shape (rpcBlockToLightBlock block) s2)
    as [[Hle _]|[(_ & _ & Hr)|(F & _ & HF & _)]].
  - rewrite Hf2 in Hle. cbn in Hle. lia.
  - eexists. exists s2. split; [exact Hr|]. split; [exact Hb2|].
    split; [exact Hf2 | reflexivity].
  - unfold atNewFinality in HF, Hfind. rewrite Hf2, Hb2 in HF.
    rewrite Hfind in HF. discriminate.
Qed.

(** ** Reorgs that fail half way *)

(** The endpoint or the store did not give the block. *)
Definition isBlock (r : except (option Block.t)) : Prop :=
  exists b, r = Ok (Some b).

Lemma reconciling_parent_missing fuel newBlock canonical cursor depth s w2 r :
  Light.number cursor > finalizedBlockNumber s ->
  List.find (sameHash (Light.parentHash cursor)) (blocks s) = None ->
  getBlockByHash env (world s) (Light.parentHash cursor) true = (w2, r) ->
  ~ isBlock r ->
  exists msg,
    reconciling (S fuel) newBlock canonical cursor depth s
    = (Thrown msg,
       observe w2
         (Requested (eth_getBlockByHash (Light.parentHash cursor) true)) s).
Proof.
  intros Hnum Hfind Hfetch Hno. simpl. unfold bind at 1, get at 1.
  apply Z.gt_lt, Z.gtb_lt in Hnum. rewrite Hnum, Hfind.
  unfold bind at 1, request_getBlockByHash at 1, answer at 1.
  rewrite Hfetch. cbn [fst snd].
  destruct r as [[b|]|msg]; [exfalso; apply Hno; now exists b| |];
    eexists; reflexivity.
Qed.

(** X15. A block on a fork whose traversal comes to a block, above the
    finalized one, whose parent is neither in the local chain nor
    returned by the endpoint: the task throws, and the local chain,
    [finalizedBlockNumber] and the queue are as they were; the trace
    gained requests only, so that the store was not called and no event
    was emitted. *)
Theorem parent_fetch_failure_leaves_chain s block canonical cursor depth s1
    w2 r :
  isReorg s block ->
  climbs env [block] (rpcBlockToLightBlock block) 0 s canonical cursor depth
    s1 ->
  Light.number cursor > finalizedBlockNumber s ->
  List.find (sameHash (Light.parentHash cursor)) (blocks s) = None ->
  getBlockByHash env (world s1) (Light.parentHash cursor) true = (w2, r) ->
  ~ isBlock r ->
  exists fuel0, forall fuel, (fuel0 <= fuel)%nat ->
  exists msg s' requests,
    worker fuel block s = (Thrown msg, s') /\
    blocks s' = blocks s /\
    finalizedBlockNumber s' = finalizedBlockNumber s /\
    queue s' = queue s /\
    trace s' = trace s ++ requests /\
    Forall isRequest requests.
Proof.
  intros Hreorg Hclimb Hnum Hfind Hfetch Hno.
  destruct (climbs_frame _ _ _ _ _ _ _ _ _ Hclimb)
    as (Hb & Hf & Hq & fetched & requests & _ & _ & Ht & _ & Hr).
  destruct (reconciling_climbs env network (rpcBlockToLightBlock block)
              _ _ _ _ _ _ _ _ Hclimb) as (k & Hk).
  exists (k + 1)%nat. intros fuel Hfuel.
  replace fuel with (k + S (fuel - k - 1))%nat by lia.
  rewrite (worker_reorg _ _ _ _ _ _ _ _ Hreorg), Hk.
  destruct (reconciling_parent_missing (fuel - k - 1)
              (rpcBlockToLightBlock block) canonical cursor depth s1 w2 r)
    as (msg & Hrun); try assumption; try (rewrite ?Hf, ?Hb; assumption).
  exists msg. eexists.
  exists (requests ++
            [Requested (eth_getBlockByHash (Light.parentHash cursor) true)]).
  split; [exact Hrun|]. simpl. rewrite Ht, app_assoc.
  repeat split; try assumption.
  apply Forall_app. split; [|repeat constructor].
  eapply List.Forall_impl; [|exact Hr]. now intros [[]| |].
Qed.

Lemma reconciling_delete_rejected fuel newBlock canonical cursor depth s A
    w2 msg :
  Light.number cursor > finalizedBlockNumber s ->
  List.find (sameHash (Light.parentHash cursor)) (blocks s) = Some A ->
  eventStore env (world s)
    (deleteRealtimeData (chainId network) (Light.number A + 1))
    = (w2, Err msg) ->
  reconciling (S fuel) newBlock canonical cursor depth s
  = (Thrown msg,
     observe w2
       (Called (deleteRealtimeData (chainId network) (Light.number A + 1)))
       (set_blocks
          (List.filter (fun b => Light.number b <=? Light.number A)
             (blocks s)) s)).
Proof.
  intros Hnum Hfind Hdelete. simpl. unfold bind at 1, get at 1.
  apply Z.gt_lt, Z.gtb_lt in Hnum. rewrite Hnum, Hfind.
  unfold bind at 1, modify at 1.
  unfold bind at 1, call at 1, answer at 1. cbn [world set_blocks].
  now rewrite Hdelete.
Qed.

Lemma reconciling_latest_missing fuel newBlock canonical cursor depth s A
    w2 w3 r :
  Light.number cursor > finalizedBlockNumber s ->
  List.find (sameHash (Light.parentHash cursor)) (blocks s) = Some A ->
  eventStore env (world s)
    (deleteRealtimeData (chainId network) (Light.number A + 1))
    = (w2, Ok tt) ->
  getBlockByNumber env w2 latest true = (w3, r) ->
  ~ isBlock r ->
  exists msg s',
    reconciling (S fuel) newBlock canonical cursor depth s
      = (Thrown msg, s') /\
    blocks s'
    = List.filter (fun b => Light.number b <=? Light.number A) (blocks s) /\
    finalizedBlockNumber s' = finalizedBlockNumber s /\
    queue s' = List.map task canonical /\
    trace s'
    = trace s ++
        [Called (deleteRealtimeData (chainId network) (Light.number A + 1));
         Requested (eth_getBlockByNumber latest true)].
Proof.
  intros Hnum Hfind Hdelete Hlatest Hno. simpl. unfold bind at 1, get at 1.
  apply Z.gt_lt, Z.gtb_lt in Hnum. rewrite Hnum, Hfind.
  unfold bind at 1, modify at 1.
  unfold bind at 1, call at 1, answer at 1. cbn [world set_blocks].
  rewrite Hdelete. cbn [fst snd].
  unfold bind at 1, clear at 1, modify at 1.
  unfold bind at 1. rewrite addTasks_eq.
  unfold bind at 1, addNewLatestBlock, getLatestBlock.
  unfold bind at 1 2, request_getBlockByNumber, answer.
  cbn [world set_queue observe set_blocks]. rewrite Hlatest. cbn [fst snd].
  destruct r as [[b|]|msg]; [exfalso; apply Hno; now exists b| |];
    unfold throw; do 2 eexists; (split; [reflexivity|]);
    cbn [blocks finalizedBlockNumber queue trace observe set_queue
         set_blocks app];
    rewrite <- !app_assoc; auto.
Qed.

(** X16. A shallow reorg that fails after the common ancestor [A] was
    found leaves the service half way. If the store rejects
    [deleteRealtimeData], the task throws with the local chain already
    cut at [A] and the queue as it was. If the store accepts and the
    latest block cannot be fetched, the task throws with the chain cut,
    the queue holding the canonical blocks only, and no [shallowReorg]
    emitted. *)
Theorem shallowReorg_fails_half_way s block canonical cursor depth s1 A :
  isReorg s block ->
  climbs env [block] (rpcBlockToLightBlock block) 0 s canonical cursor depth
    s1 ->
  Light.number cursor > finalizedBlockNumber s ->
  List.find (sameHash (Light.parentHash cursor)) (blocks s) = Some A ->
  (forall w2 msg,
      eventStore env (world s1)
        (deleteRealtimeData (chainId network) (Light.number A + 1))
        = (w2, Err msg) ->
      exists fuel0, forall fuel, (fuel0 <= fuel)%nat ->
      exists s',
        worker fuel block s = (Thrown msg, s') /\
        blocks s'
        = List.filter (fun b => Light.number b <=? Light.number A)
            (blocks s) /\
        queue s' = queue s /\
        trace s'
        = trace s1 ++
            [Called (deleteRealtimeData (chainId network)
                       (Light.number A + 1))]) /\
  (forall w2 w3 r,
      eventStore env (world s1)
        (deleteRealtimeData (chainId network) (Light.number A + 1))
        = (w2, Ok tt) ->
      getBlockByNumber env w2 latest true = (w3, r) ->
      ~ isBlock r ->
      exists fuel0, forall fuel, (fuel0 <= fuel)%nat ->
      exists msg s',
        worker fuel block s = (Thrown msg, s') /\
        blocks s'
        = List.filter (fun b => Light.number b <=? Light.number A)
            (blocks s) /\
        queue s' = List.map task canonical /\
        trace s'
        = trace s1 ++
            [Called (deleteRealtimeData (chainId network)
                       (Light.number A + 1));
             Requested (eth_getBlockByNumber latest true)]).
Proof.
  intros Hreorg Hclimb Hnum Hfind.
  destruct (climbs_frame _ _ _ _ _ _ _ _ _ Hclimb) as (Hb & Hf & Hq & _).
  destruct (reconciling_climbs env network (rpcBlockToLightBlock block)
              _ _ _ _ _ _ _ _ Hclimb) as (k & Hk).
  rewrite <- Hf in Hnum. rewrite <- Hb in Hfind. split.
  - intros w2 msg Hdelete. exists (k + 1)%nat. intros fuel Hfuel.
    replace fuel with (k + S (fuel - k - 1))%nat by lia.
    rewrite (worker_reorg _ _ _ _ _ _ _ _ Hreorg), Hk.
    rewrite (reconciling_delete_rejected _ _ _ _ _ _ A w2 msg Hnum Hfind
               Hdelete).
    eexists. split; [reflexivity|]. simpl. rewrite Hb, Hq. auto.
  - intros w2 w3 r Hdelete Hlatest Hno. exists (k + 1)%nat.
    intros fuel Hfuel.
    replace fuel with (k + S (fuel - k - 1))%nat by lia.
    rewrite (worker_reorg _ _ _ _ _ _ _ _ Hreorg), Hk.
    destruct (reconciling_latest_missing (fuel - k - 1)
                (rpcBlockToLightBlock block) canonical cursor depth s1 A
                w2 w3 r Hnum Hfind Hdelete Hlatest Hno)
      as (msg & s' & Hrun & Hblocks & _ & Hqueue & Htrace).
    exists msg, s'. rewrite Hblocks, Hb. auto.
Qed.

(** ** The per-block statistics *)

Lemma advanceFinality_stats newBlock s F :
  Light.number newBlock >
    finalizedBlockNumber s + 2 * finalityBlockCount network ->
  List.find (atNewFinality network s) (blocks s) = Some F ->
  stats (snd (finality newBlock s))
  = base.filter (fun kv : Z * Z => ~ (fst kv < Light.number F)) (stats s).
Proof.
  intros Hdepth HF. unfold advanceFinality, bind, get.
  apply Z.gt_lt, Z.gtb_lt in Hdepth. rewrite Hdepth.
  unfold atNewFinality in HF. rewrite HF.
  unfold modify, call, answer, emit. cbn [world set_stats set_blocks].
  destruct (eventStore env (world s) _) as [w2 [[]|msg]]; reflexivity.
Qed.

(** X18. When a new head block moves the finality checkpoint to the
    local block [F], the statistics of the blocks below [F] are
    dropped and those of the blocks from [F] on are kept, the new block
    with its count of matched logs among them; and that whether the
    store accepts the cached range or not. *)
Theorem stats_pruned_at_finality fuel s block matchedLogCount s1 F :
  isNewHead s block ->
  matching block (rpcBlockToLightBlock block) s
    = (Done matchedLogCount, s1) ->
  Block.number block
    > finalizedBlockNumber s + 2 * finalityBlockCount network ->
  List.find (atNewFinality network s)
    (blocks s ++ [rpcBlockToLightBlock block]) = Some F ->
  (forall k, k < Light.number F ->
     stats (snd (worker fuel block s)) !! k = None) /\
  (forall k, Light.number F <= k ->
     stats (snd (worker fuel block s)) !! k
     = <[Block.number block := matchedLogCount]> (stats s) !! k).
Proof.
  intros Hhead Hmatch Hdepth Hfind.
  rewrite (worker_newHead _ _ _ _ _ _ _ _ Hhead),
    (extending_eq _ _ _ _ _ _ _ _ _ _ Hmatch).
  destruct (matching_frame _ _ _ _ _ _ _ _ _ _ Hmatch)
    as (Hb & Hf & _ & Hs).
  rewrite (advanceFinality_stats _ _ F).
  - cbn [stats set_stats set_blocks observe]. rewrite Hs.
    change (Light.number (rpcBlockToLightBlock block))
      with (Block.number block).
    split; intros k Hk.
    + apply map_lookup_filter_None. right. intros v _ Hv.
      apply Hv. exact Hk.
    + destruct (<[Block.number block:=matchedLogCount]> (stats s) !! k)
        as [v|] eqn:E.
      * apply map_lookup_filter_Some. split; [exact E|]. simpl. lia.
      * apply map_lookup_filter_None. now left.
  - cbn [finalizedBlockNumber set_stats set_blocks observe].
    rewrite Hf. exact Hdepth.
  - unfold atNewFinality in *.
    cbn [finalizedBlockNumber blocks set_stats set_blocks observe].
    rewrite Hf, Hb. exact Hfind.
Qed.

(** ** [setup] and [start] *)

(** X7. [setup] with a latest block numbered [n] returns
    [{latestBlockNumber: n, finalizedBlockNumber: max(0, n -
    finalityBlockCount)}], sets [finalizedBlockNumber] to that value,
    which is never negative and is 0 when [finalityBlockCount] exceeds
    [n], and queues the latest block with priority [MAX_SAFE_INTEGER -
    n]; when the endpoint has no latest block it throws and neither
    [finalizedBlockNumber] nor the queue changes. *)
Theorem setup_finalized s :
  (forall w' latestBlock,
      getBlockByNumber env (world s) latest true
        = (w', Ok (Some latestBlock)) ->
      let n := Block.number latestBlock in
      exists s',
        setup env network s
          = (Done (n, Z.max 0 (n - finalityBlockCount network)), s') /\
        finalizedBlockNumber s' = Z.max 0 (n - finalityBlockCount network) /\
        0 <= finalizedBlockNumber s' /\
        (n < finalityBlockCount network -> finalizedBlockNumber s' = 0) /\
        queue s' = queue s ++ [(latestBlock, MAX_SAFE_INTEGER - n)] /\
        blocks s' = blocks s) /\
  (forall w',
      getBlockByNumber env (world s) latest true = (w', Ok None) ->
      setup env network s
      = (Thrown "Unable to fetch latest block",
         observe w' (Requested (eth_getBlockByNumber latest true)) s)).
Proof.
  split.
  - intros w' latestBlock Hfetch n.
    unfold setup, getLatestBlock, bind, request_getBlockByNumber, answer.
    rewrite Hfetch. cbn [fst snd]. unfold ret, modify, addTask.
    eexists. split; [reflexivity|].
    cbn [finalizedBlockNumber queue blocks set_finalizedBlockNumber
         set_queue observe].
    fold n. repeat split; try lia.
  - intros w' Hfetch.
    unfold setup, getLatestBlock, bind, request_getBlockByNumber, answer.
    now rewrite Hfetch.
Qed.

(** X8. [start] before [setup]: with an empty queue and a filter that
    has not ended, [start] throws ["Unable to start. Must call setup()
    method before start()."] and does nothing, not even a request. After
    a [setup] that returned, [start] passes that test: with a filter
    that has not ended it asks for the block numbered
    [finalizedBlockNumber] as [setup] returned it, and when the endpoint
    has that block the local chain gains it as its last block,
    [start] is called on the queue, and polling is on. *)
Theorem start_needs_setup s :
  (~ filtersEnded logFilters s ->
   queue s = [] ->
   start env logFilters s
   = (Thrown "Unable to start. Must call setup() method before start().",
      s)) /\
  (forall result s1 w2 finalizedBlock,
      setup env network s = (Done result, s1) ->
      ~ filtersEnded logFilters s1 ->
      getBlockByNumber env (world s1) (atNumber (snd result)) false
        = (w2, Ok (Some finalizedBlock)) ->
      exists s',
        start env logFilters s1 = (Done tt, s') /\
        blocks s' = blocks s ++ [rpcBlockToLightBlock finalizedBlock] /\
        queueStarted s' = true /\
        polling s' = true /\
        finalizedBlockNumber s' = snd result /\
        trace s'
        = trace s1 ++
            [Requested (eth_getBlockByNumber (atNumber (snd result))
                          false)]).
Proof.
  split.
  - intros Hnot Hqueue. rewrite <- filtersEnded_forallb in Hnot.
    unfold start, bind, get.
    destruct (List.forallb _ _); [contradiction|]. now rewrite Hqueue.
  - intros result s1 w2 finalizedBlock Hsetup Hnot Hfetch.
    rewrite <- filtersEnded_forallb in Hnot.
    revert Hsetup.
    unfold setup, getLatestBlock, bind, request_getBlockByNumber, answer.
    destruct (getBlockByNumber env (world s) latest true)
      as [w' [[b|]|msg]]; cbn [fst snd]; try discriminate.
    unfold ret, modify, addTask. intros [= <- <-].
    revert Hnot Hfetch. unfold start, bind, get.
    cbn [queue set_queue set_finalizedBlockNumber observe snd world
         finalizedBlockNumber].
    intros Hnot Hfetch.
    destruct (List.forallb _ _); [contradiction|].
    destruct (Z.of_nat (length (queue s ++ _)) =? 0) eqn:E.
    + apply Z.eqb_eq in E. rewrite length_app in E. simpl in E. lia.
    + unfold request_getBlockByNumber, answer.
      cbn [queue set_queue set_finalizedBlockNumber observe snd world
           finalizedBlockNumber].
      rewrite Hfetch. cbn [fst snd].
      unfold modify. eexists. split; [reflexivity|].
      cbn. auto 10.
Qed.

End More.

(** ** The statements on the scenarios *)

Import Scenarios.
Local Open Scope string_scope.
Local Open Scope Z_scope.

(** Finality 1, local chain 100..102, block 103: the finalized block
    number does not go back. *)
Lemma finalizedBlockNumber_steps_scenario :
  100 <= finalizedBlockNumber (snd
    (blockTaskWorker endpoint openFilters (net 1) noBloom byAddress 0
       (rpcBlock "H103" "H102" 103)
       (service [local100; local101; local102] []))).
Proof.
  apply (proj2 (finalizedBlockNumber_steps endpoint openFilters (net 1)
                  noBloom byAddress 0 (rpcBlock "H103" "H102" 103)
                  (service [local100; local101; local102] []) _ _
                  (surjective_pairing _))).
  cbn. lia.
Defined.

(** The same step leaves the chain 101..103, which starts at the new
    finalized block. *)
Lemma localChain_stays_chained_scenario :
  chained 101
    (blocks (snd
       (blockTaskWorker endpoint openFilters (net 1) noBloom byAddress 0
          (rpcBlock "H103" "H102" 103)
          (service [local100; local101; local102] [])))).
Proof.
  apply (proj2 (proj2 (localChain_stays_chained endpoint openFilters (net 1)
                         noBloom byAddress 0 (rpcBlock "H103" "H102" 103)
                         (service [local100; local101; local102] []) 100
                         ltac:(cbn; repeat split; reflexivity)))).
  - reflexivity.
  - reflexivity.
Defined.

(** Block 101 on the chain [[100]], handled twice. *)
Lemma seen_block_is_noop_scenario :
  blockTaskWorker endpoint openFilters (net 10) anyBloom byAddress 0
    (rpcBlock "H101" "H100" 101)
    (snd (blockTaskWorker endpoint openFilters (net 10) anyBloom byAddress 0
            (rpcBlock "H101" "H100" 101) (service [local100] [])))
  = (Done tt,
     snd (blockTaskWorker endpoint openFilters (net 10) anyBloom byAddress 0
            (rpcBlock "H101" "H100" 101) (service [local100] []))).
Proof.
  apply (proj2 (seen_block_is_noop endpoint openFilters (net 10) anyBloom
                  byAddress 0 (service [local100] [])
                  (rpcBlock "H101" "H100" 101)) 0%nat).
  - split; [reflexivity|]. exists local100. repeat split; reflexivity.
  - cbn. lia.
  - reflexivity.
Defined.


(** Block 101 with a log of a filtered address: the block is written
    with its one transaction and the log. *)
Lemma matched_logs_inserted_scenario :
  exists matched rest,
    trace (snd
      (blockTaskWorker endpoint anyAddress (net 10) anyBloom byAddress 0
         (rpcBlock "H101" "H100" 101) (service [local100] [])))
    = Requested (eth_getLogs "H101") ::
      Called (insertRealtimeBlock 1 (rpcBlock "H101" "H100" 101)
                [ {| Tx.hash := "0xT"; Tx.transactionIndex := 0 |} ]
                matched) ::
      Emitted (realtimeCheckpoint 1101) :: rest.
Proof.
  destruct (matched_logs_inserted endpoint anyAddress (net 10) anyBloom
              byAddress 0 (service [local100] [])
              (rpcBlock "H101" "H100" 101) 1%nat
              [ {| Log.address := "0xOther"; Log.topics := [];
                   Log.data := "0x"; Log.blockHash := "H101";
                   Log.logIndex := 0; Log.transactionHash := "0xT" |} ]
              2%nat)
    as ((rest & Htrace & _) & _).
  - split; [reflexivity|]. exists local100. repeat split; reflexivity.
  - reflexivity.
  - reflexivity.
  - discriminate.
  - reflexivity.
  - eexists. exists rest. exact Htrace.
Defined.

(** The same block while the store rejects every call. *)
Lemma failed_logs_leave_chain_scenario :
  exists s',
    blockTaskWorker failing anyAddress (net 10) anyBloom byAddress 0
      (rpcBlock "H101" "H100" 101) (service [local100] [])
    = (Thrown "SQLITE_BUSY", s') /\
    blocks s' = [local100].
Proof.
  destruct (failed_logs_leave_chain failing anyAddress (net 10) anyBloom
              byAddress 0 (service [local100] [])
              (rpcBlock "H101" "H100" 101)) as (_ & Hstore).
  - split; [reflexivity|]. exists local100. repeat split; reflexivity.
  - reflexivity.
  - eexists. split.
    + apply (Hstore 1%nat
               [ {| Log.address := "0xOther"; Log.topics := [];
                    Log.data := "0x"; Log.blockHash := "H101";
                    Log.logIndex := 0; Log.transactionHash := "0xT" |} ]
               2%nat "SQLITE_BUSY").
      * reflexivity.
      * discriminate.
      * reflexivity.
    + reflexivity.
Defined.

(** Finality 1 and a local chain that starts at 102, above block 101
    that would be the finalized one. *)
Lemma missing_finalized_block_throws_scenario :
  exists msg s',
    blockTaskWorker endpoint openFilters (net 1) noBloom byAddress 0
      (rpcBlock "H103" "H102" 103) (service [local102] [])
    = (Thrown msg, s') /\
    blocks s' = [local102; lightBlock "H103" "H102" 103] /\
    finalizedBlockNumber s' = 100.
Proof.
  destruct (missing_finalized_block_throws endpoint openFilters (net 1)
              noBloom byAddress 0 (service [local102] [])
              (rpcBlock "H103" "H102" 103) 0 (service [local102] []))
    as (msg & s' & Hrun & Hblocks & Hfin & _).
  - split; [reflexivity|]. exists local102. repeat split; reflexivity.
  - reflexivity.
  - cbn. lia.
  - reflexivity.
  - exists msg, s'. split; [exact Hrun|]. split; [exact Hblocks | exact Hfin].
Defined.

(** Finality 1, local chain 100..102 with statistics for block 100,
    block 103: the statistics of block 100 are gone, those of block 103
    are there. *)
Lemma stats_pruned_at_finality_scenario :
  stats (snd
    (blockTaskWorker endpoint openFilters (net 1) noBloom byAddress 0
       (rpcBlock "H103" "H102" 103)
       (set_stats {[ 100 := 7 ]}
          (service [local100; local101; local102] [])))) !! 100 = None /\
  stats (snd
    (blockTaskWorker endpoint openFilters (net 1) noBloom byAddress 0
       (rpcBlock "H103" "H102" 103)
       (set_stats {[ 100 := 7 ]}
          (service [local100; local101; local102] [])))) !! 103 = Some 0.
Proof.
  destruct (stats_pruned_at_finality endpoint openFilters (net 1) noBloom
              byAddress 0
              (set_stats {[ 100 := 7 ]}
                 (service [local100; local101; local102] []))
              (rpcBlock "H103" "H102" 103) 0
              (set_stats {[ 100 := 7 ]}
                 (service [local100; local101; local102] []))
              local101) as (Hbelow & Hfrom).
  - split; [reflexivity|]. exists local102. repeat split; reflexivity.
  - reflexivity.
  - cbn. lia.
  - reflexivity.
  - split.
    + apply Hbelow. cbn. lia.
    + rewrite Hfrom by (cbn; lia). reflexivity.
Defined.

(** Block [Z102] whose parent [Z101] the endpoint does not have. *)
Lemma parent_fetch_failure_leaves_chain_scenario :
  exists fuel msg s',
    blockTaskWorker endpoint openFilters (net 10) anyBloom byAddress fuel
      (rpcBlock "Z102" "Z101" 102) (service [local100; local101] [])
    = (Thrown msg, s') /\
    blocks s' = [local100; local101].
Proof.
  destruct (parent_fetch_failure_leaves_chain endpoint openFilters (net 10)
              anyBloom byAddress (service [local100; local101] [])
              (rpcBlock "Z102" "Z101" 102) [rpcBlock "Z102" "Z101" 102]
              (lightBlock "Z102" "Z101" 102) 0
              (service [local100; local101] []) 1%nat (Ok None))
    as (fuel0 & H).
  - split; [reflexivity|]. exists local101.
    split; [reflexivity|]. split; [cbn; lia|].
    intros [_ Hparent]. discriminate Hparent.
  - apply climbs_here.
  - cbn. lia.
  - reflexivity.
  - reflexivity.
  - intros (b & Hb). discriminate Hb.
  - destruct (H fuel0 (le_n fuel0)) as (msg & s' & requests & Hrun & Hb & _).
    exists fuel0, msg, s'. split; [exact Hrun | exact Hb].
Defined.

(** The fork [Y101 <- Y102] while the store rejects every call: the
    local chain is cut at block 100 and the pending task stays. *)
Lemma shallowReorg_fails_half_way_scenario :
  exists fuel s',
    blockTaskWorker failing openFilters (net 10) anyBloom byAddress fuel
      (rpcBlock "Y102" "Y101" 102)
      (service [local100; local101] [(rpcBlock "H102" "H101" 102, 5)])
    = (Thrown "SQLITE_BUSY", s') /\
    blocks s' = [local100] /\
    queue s' = [(rpcBlock "H102" "H101" 102, 5)].
Proof.
  destruct (shallowReorg_fails_half_way failing openFilters (net 10) anyBloom
              byAddress
              (service [local100; local101] [(rpcBlock "H102" "H101" 102, 5)])
              (rpcBlock "Y102" "Y101" 102)
              [rpcBlock "Y101" "H100" 101; rpcBlock "Y102" "Y101" 102]
              (lightBlock "Y101" "H100" 101) 1
              (observe 1%nat (Requested (eth_getBlockByHash "Y101" true))
                 (service [local100; local101]
                    [(rpcBlock "H102" "H101" 102, 5)]))
              local100)
    as (Hdelete & _).
  - split; [reflexivity|]. exists local101.
    split; [reflexivity|]. split; [cbn; lia|].
    intros [_ Hparent]. discriminate Hparent.
  - eapply climbs_parent; [cbn; lia | reflexivity | reflexivity |].
    apply climbs_here.
  - cbn. lia.
  - reflexivity.
  - destruct (Hdelete 2%nat "SQLITE_BUSY" eq_refl) as (fuel0 & H).
    destruct (H fuel0 (le_n fuel0)) as (s' & Hrun & Hblocks & Hqueue & _).
    exists fuel0, s'. split; [exact Hrun|].
    split; [exact Hblocks | exact Hqueue].
Defined.

(** A finality of 200 blocks while the latest block is 103: the
    finalized block number is 0. *)
Lemma setup_finalized_scenario :
  exists s',
    setup endpoint (net 200) (service [] []) = (Done (103, 0), s') /\
    finalizedBlockNumber s' = 0.
Proof.
  destruct (proj1 (setup_finalized endpoint (net 200) (service [] []))
              1%nat (rpcBlock "H103" "H102" 103) eq_refl)
    as (s' & Hrun & _ & _ & Hzero & _).
  exists s'. split; [exact Hrun|]. apply Hzero. cbn. lia.
Defined.

(** [start] on the service as built, and after [setup] with a finality
    of 3 blocks. *)
Lemma start_needs_setup_scenario :
  start endpoint openFilters (service [] [])
  = (Thrown "Unable to start. Must call setup() method before start().",
     service [] []) /\
  exists s',
    start endpoint openFilters
      (snd (setup endpoint (net 3) (service [] []))) = (Done tt, s') /\
    blocks s' = [local100] /\
    polling s' = true.
Proof.
  destruct (start_needs_setup endpoint openFilters (net 3) (service [] []))
    as (Hbefore & Hafter).
  split.
  - apply Hbefore; [|reflexivity].
    intros Hended. destruct (Hended _ (or_introl eq_refl)) as (e & He & _).
    discriminate He.
  - destruct (Hafter (103, 100)
                (snd (setup endpoint (net 3) (service [] []))) 2%nat
                (rpcBlock "H100" "H99" 100))
      as (s' & Hrun & Hblocks & _ & Hpolling & _).
    + reflexivity.
    + intros Hended. destruct (Hended _ (or_introl eq_refl)) as (e & He & _).
      discriminate He.
    + reflexivity.
    + exists s'. split; [exact Hrun|]. split; [exact Hblocks | exact Hpolling].
Defined.

End RealtimeSyncExtra.
